(** * Canonical formula pools of carl: a shallow embedding

    Two generations of the interning pool, the sample set of the CAD and
    the trivial cases of constraints are embedded here.

    - [AstPool] follows [AstPool.tpp]: [addAstToPool] (hash-consing with
      the negation published right after the node) and [createAst] (the
      n-ary constructor for AND / OR / XOR / IFF).
    - [FormulaPool] follows [FormulaPool.h]: base formulas, usage counting
      ([reg] / [free]), Tseitin bookkeeping, the constructors for atoms,
      quantifiers and connectives, and the multiset constructor.
    - [SampleSet] follows [SampleSet.tpp]: the sorted list of samples and
      the queues that [insert], [remove], [simplify] and the [pop]
      functions keep in step with it.
    - [CoreConstraint] follows [core/Constraint.h]: the tests for
      constraints that are trivially true or false.

    Published nodes are addressed by their id. The id allocator of
    [AstPool] is an [unsigned] and wraps around; until it does, an id names
    one node, and the histories of an [AstPool] that the theorems range
    over end there. *)

From stdpp Require Import base list gmap.
From Stdlib Require Import Lia.

(** The connective / atom tags, as the [switch] statements of
    [FormulaPool::create] enumerate them. *)
Inductive FormulaType :=
  | ITE | EXISTS | FORALL
  | TRUE | FALSE | BOOL | NOT | IMPLIES | AND | OR | XOR | IFF
  | CONSTRAINT | VARCOMPARE | VARASSIGN | BITVECTOR | UEQ | PBCONSTRAINT.

#[global] Instance FormulaType_eq_dec : EqDecision FormulaType.
Proof. solve_decision. Defined.

(** ** Sets of node pointers ordered by id

    [PointerSet<Ast>] and [Formulas] are [std::set]s whose comparison looks
    at the ids only; they are kept as strictly ascending lists. An iterator
    is the element it points to ([None] for [end()]): insertions and
    erasures elsewhere in a [std::set] leave it valid. *)
Module PointerSet.

Fixpoint insert (x : nat) (s : list nat) : list nat :=
  match s with
  | [] => [x]
  | y :: s' =>
      if x <? y then x :: s
      else if x =? y then s
      else y :: insert x s'
  end.

Fixpoint erase (x : nat) (s : list nat) : list nat :=
  match s with
  | [] => []
  | y :: s' => if x =? y then s' else y :: erase x s'
  end.

(** [insert(first, last)] of a range. *)
Definition insert_range (xs : list nat) (s : list nat) : list nat :=
  foldr insert s xs.

(** The set built from the operands in the order the caller names them. *)
Definition of_list (xs : list nat) : list nat := insert_range xs [].

(** [++it] for an iterator that points to [x]. *)
Fixpoint next (x : nat) (s : list nat) : option nat :=
  match s with
  | [] => None
  | y :: s' => if x <? y then Some y else next x s'
  end.

Definition begin (s : list nat) : option nat := head s.

(** Strictly ascending: the representation invariant of a set. *)
Fixpoint ascending (s : list nat) : Prop :=
  match s with
  | [] => True
  | x :: s' => Forall (fun y => x < y) s' /\ ascending s'
  end.

(** The order in which a [std::multiset] is iterated: equal elements are
    next to each other. *)
Fixpoint nondecreasing (s : list nat) : Prop :=
  match s with
  | [] => True
  | x :: s' => Forall (fun y => x <= y) s' /\ nondecreasing s'
  end.

(** How often [x] occurs. *)
Definition count (x : nat) (s : list nat) : nat :=
  length (filter (fun y => y = x) s).

End PointerSet.

(** ** AstPool.tpp *)
Module AstPool.

(** What [Ast::operator==] and the hash look at: the tag, the set of
    sub-ast pointers and the atom (variable or constraint, an opaque key;
    [0] where the tag has none). *)
Record Shape := mkShape {
  sType : FormulaType;
  sSubasts : list nat;
  sAtom : nat
}.

#[global] Instance Shape_eq_dec : EqDecision Shape.
Proof. solve_decision. Defined.

Record Ast := mkAst {
  mId : nat;
  shape : Shape
}.

Definition getType (a : Ast) : FormulaType := sType (shape a).
Definition subasts (a : Ast) : list nat := sSubasts (shape a).

Record Pool := mkPool {
  mIdAllocator : nat;
  mpTrue : nat;
  mpFalse : nat;
  mAsts : list Ast
}.

(** [AstPool::AstPool]: TRUE is node 1, FALSE node 2, the allocator starts
    at 3 and both constants are in the table. *)
Definition init : Pool :=
  {| mIdAllocator := 3;
     mpTrue := 1;
     mpFalse := 2;
     mAsts := [ mkAst 2 (mkShape FALSE [] 0); mkAst 1 (mkShape TRUE [] 0) ] |}.

(** [mAsts.find]: lookup by structural equality. *)
Definition find_shape (s : Shape) (l : list Ast) : option Ast :=
  List.find (fun a => bool_decide (shape a = s)) l.

(** Dereferencing a pointer to a published node. *)
Definition deref (p : Pool) (i : nat) : option Ast :=
  List.find (fun a => mId a =? i) (mAsts p).

(** [new Ast<Pol>( _ast )]: the candidate for the negation of node [k]. *)
Definition negated (k : nat) : Shape := mkShape NOT [k] 0.

(** The greatest value of an [unsigned], the type of [mIdAllocator] and
    of the ids: 32 bits, as on the platforms carl is built for. *)
Definition UINT_MAX : N := 4294967295.

(** [++mIdAllocator]: the arithmetic of [unsigned] wraps around, and
    [UINT_MAX] is followed by 0. *)
Definition increment (k : nat) : nat :=
  if (N.of_nat k =? UINT_MAX)%N then 0 else S k.

(** [AstPool::addAstToPool]. [None] is the failed
    [assert( mAsts.find( astNegated ) == mAsts.end() )]. *)
Definition addAstToPool (s : Shape) (p : Pool) : option (nat * Pool) :=
  match find_shape s (mAsts p) with
  | Some a => Some (mId a, p)
  | None =>
      let k := mIdAllocator p in
      let asts1 := mkAst k s :: mAsts p in
      let k' := increment k in
      match find_shape (negated k) asts1 with
      | Some _ => None
      | None =>
          Some (k, {| mIdAllocator := increment k';
                      mpTrue := mpTrue p;
                      mpFalse := mpFalse p;
                      mAsts := mkAst k' (negated k) :: asts1 |})
      end
  end.

(** *** [AstPool::createAst] *)

(** Outcome of the scan over the operands: an early [return], or the
    operand set the rest of the function goes on with. *)
Inductive Scan :=
  | Return (r : nat)
  | Continue (subasts : list nat).

(** The [for] loop of [createAst]. [iter] is the loop iterator; one unit
    of [fuel] is one iteration, and [None] is either no fuel left, a
    pointer that is not a node of the pool, or the [assert( false )] of
    the [default] case. *)
Fixpoint scan (fuel : nat) (p : Pool) (_type : FormulaType)
    (_subasts : list nat) (iter : option nat) : option Scan :=
  match iter with
  | None => Some (Continue _subasts)
  | Some i =>
      match fuel with
      | 0 => None
      | S fuel' =>
          match deref p i with
          | None => None
          | Some a =>
              if bool_decide (getType a = _type)
                 && (bool_decide (_type = AND) || bool_decide (_type = OR))
              then
                let s1 := PointerSet.insert_range (subasts a) _subasts in
                scan fuel' p _type (PointerSet.erase i s1) (PointerSet.next i s1)
              else
                let iterB := i in
                match PointerSet.next i _subasts with
                | None => scan fuel' p _type _subasts None
                | Some j =>
                    match deref p j with
                    | None => None
                    | Some b =>
                        if ((iterB =? mpTrue p) && (j =? mpFalse p))
                           || (bool_decide (getType b = NOT)
                               && bool_decide (subasts b = [iterB]))
                        then
                          match _type with
                          | AND => Some (Return (mpFalse p))
                          | OR => Some (Return (mpTrue p))
                          | IFF => Some (Return (mpFalse p))
                          | XOR =>
                              let s1 := PointerSet.erase iterB _subasts in
                              let iter' := PointerSet.next j s1 in
                              let s2 := PointerSet.erase j s1 in
                              scan fuel' p _type
                                (PointerSet.insert (mpTrue p) s2) iter'
                          | _ => None
                          end
                        else scan fuel' p _type _subasts (Some j)
                    end
                end
          end
      end
  end.

(** [iterToTrue] and [iterToFalse] of the SIMPLIFY_AST block, for a
    non-empty operand set. *)
Definition find_constants (p : Pool) (_subasts : list nat)
    : option nat * option nat :=
  match _subasts with
  | [] => (None, None)
  | x :: rest =>
      if x =? mpTrue p then
        (Some x,
         match rest with
         | y :: _ => if y =? mpFalse p then Some y else None
         | [] => None
         end)
      else
        (None, if x =? mpFalse p then Some x else None)
  end.

Section CreateAst.

(** Whether the build defines SIMPLIFY_AST (the macro comes from
    [AstPool.h]). *)
Variable SIMPLIFY_AST : bool.

(** [newAstWithOneSubast], declared in [AstPool.h]. *)
Variable newAstWithOneSubast :
  FormulaType -> nat -> Pool -> option (nat * Pool).

(** The end of [createAst]: a single operand goes to
    [newAstWithOneSubast], anything else is interned. *)
Definition finish (p : Pool) (_type : FormulaType) (_subasts : list nat)
    : option (nat * Pool) :=
  match _subasts with
  | [x] => newAstWithOneSubast _type x p
  | _ => addAstToPool (mkShape _type _subasts 0) p
  end.

(** What follows the loop. *)
Definition after_scan (p : Pool) (_type : FormulaType) (_subasts : list nat)
    : option (nat * Pool) :=
  match _subasts with
  | [] => Some (mpFalse p, p)
  | _ :: _ =>
      if SIMPLIFY_AST
         && (bool_decide (_type = AND) || bool_decide (_type = OR)
             || bool_decide (_type = IFF))
      then
        let '(iterToTrue, iterToFalse) := find_constants p _subasts in
        match _type with
        | AND =>
            let s1 := match iterToTrue with
                      | Some t => PointerSet.erase t _subasts
                      | None => _subasts
                      end in
            if bool_decide (iterToFalse <> None) then Some (mpFalse p, p)
            else match s1 with
                 | [] => Some (mpTrue p, p)
                 | _ => finish p _type s1
                 end
        | OR =>
            let s1 := match iterToFalse with
                      | Some f => PointerSet.erase f _subasts
                      | None => _subasts
                      end in
            if bool_decide (iterToTrue <> None) then Some (mpTrue p, p)
            else match s1 with
                 | [] => Some (mpFalse p, p)
                 | _ => finish p _type s1
                 end
        | IFF =>
            if bool_decide (iterToFalse <> None)
               && bool_decide (iterToTrue <> None)
            then Some (mpFalse p, p)
            else finish p _type _subasts
        | _ => finish p _type _subasts
        end
      else finish p _type _subasts
  end.

(** [AstPool::createAst]; the leading [assert] on [_type] fails with
    [None]. *)
Definition createAst (fuel : nat) (_type : FormulaType)
    (_subasts : list nat) (p : Pool) : option (nat * Pool) :=
  if bool_decide (_type = AND) || bool_decide (_type = OR)
     || bool_decide (_type = XOR) || bool_decide (_type = IFF)
  then
    match scan fuel p _type _subasts (PointerSet.begin _subasts) with
    | None => None
    | Some (Return r) => Some (r, p)
    | Some (Continue s) => after_scan p _type s
    end
  else None.

End CreateAst.

(** *** Histories of a pool *)

(** A candidate whose sub-asts are nodes that the pool has published. *)
Definition candidate (p : Pool) (s : Shape) : Prop :=
  Forall (fun i => 0 < i < mIdAllocator p) (sSubasts s).

(** Interning a sequence of candidates, one after the other. *)
Fixpoint addAll (ss : list Shape) (p : Pool) : option Pool :=
  match ss with
  | [] => Some p
  | s :: ss' =>
      match addAstToPool s p with
      | Some (_, p') => addAll ss' p'
      | None => None
      end
  end.

(** The allocator can hand out two more ids before it wraps around. *)
Definition has_room (p : Pool) : Prop :=
  (N.of_nat (mIdAllocator p) + 2 <= UINT_MAX)%N.

(** The pools that interning candidates leads to from a new pool, up to
    the call that makes the allocator wrap around: from then on an id
    names more than one node and no longer stands for a pointer. *)
Inductive reachable : Pool -> Prop :=
  | reachable_init : reachable init
  | reachable_add s p n p' :
      reachable p -> candidate p s ->
      addAstToPool s p = Some (n, p') ->
      mIdAllocator p <= mIdAllocator p' ->
      reachable p'.

(** What every such pool satisfies: the constants are nodes 1 and 2, the
    ids below the allocator are those of the nodes, and sub-ast pointers
    point to nodes. *)
Record invariant (p : Pool) : Prop := {
  inv_true : mpTrue p = 1;
  inv_false : mpFalse p = 2;
  inv_alloc : 3 <= mIdAllocator p;
  inv_ids : Forall (fun a => mId a < mIdAllocator p) (mAsts p);
  inv_subasts :
    Forall (fun a => Forall (fun i => 0 < i < mIdAllocator p) (subasts a))
      (mAsts p);
  inv_dense : forall i, 0 < i < mIdAllocator p -> is_Some (deref p i);
  inv_deref_true : deref p 1 = Some (mkAst 1 (mkShape TRUE [] 0));
  inv_deref_false : deref p 2 = Some (mkAst 2 (mkShape FALSE [] 0))
}.

(** An operand set as [createAst] receives it: pointers to published
    nodes in ascending order of their ids. *)
Definition operands (p : Pool) (s : list nat) : Prop :=
  PointerSet.ascending s /\ Forall (fun x => 0 < x < mIdAllocator p) s.

End AstPool.

(** ** FormulaPool.h *)
Module FormulaPool.

(** The contract of the atom type [Constraint<Pol>] that the pool relies
    on: [operator==], [operator<], [negation()] and [isConsistent()]
    (0: inconsistent, 1: valid, anything else: undecided). *)
Class ConstraintOps (C : Type) := {
  constraint_eq_dec :: EqDecision C;
  constraint_lt : C -> C -> bool;
  negation : C -> C;
  isConsistent : C -> nat
}.

(** The members of a [FormulaContent] that depend on the tag: a Boolean
    variable, a constraint, the operand of a NOT, the operands of an n-ary
    connective, the bound variables and the body of a quantifier, or
    another atom kept as an opaque key. *)
Inductive Payload (C : Type) :=
  | NoPayload
  | Variable_ (v : nat)
  | Constraint_ (c : C)
  | Subformula (f : nat)
  | Subformulas (fs : list nat)
  | Atom (a : nat)
  | Quantifier (vars : list nat) (f : nat).
Arguments NoPayload {C}.
Arguments Variable_ {C} v.
Arguments Constraint_ {C} c.
Arguments Subformula {C} f.
Arguments Subformulas {C} fs.
Arguments Atom {C} a.
Arguments Quantifier {C} vars f.

#[global] Instance Payload_eq_dec {C} `{EqDecision C} : EqDecision (Payload C).
Proof. solve_decision. Defined.

(** A node. [mUsages] is a [size_t]; [mDifficulty] is a score that the
    pool only copies. *)
Record FormulaContent (C : Type) := mkContent {
  mId : nat;
  mType : FormulaType;
  mPayload : Payload C;
  mNegation : nat;
  mUsages : N;
  mDifficulty : nat
}.
Arguments mkContent {C}.
Arguments mId {C}.
Arguments mType {C}.
Arguments mPayload {C}.
Arguments mNegation {C}.
Arguments mUsages {C}.
Arguments mDifficulty {C}.

(** The pool together with the heap of published nodes ([heap], keyed by
    id) and the source of fresh Boolean variables behind
    [carl::freshBooleanVariable()] ([mFreshVariable], the next variable
    not handed out yet). [mTseitinVarToFormula] stores iterators into
    [mTseitinVars]; an iterator is kept as the key of its entry. *)
Record Pool (C : Type) := mkPool {
  mIdAllocator : nat;
  mpTrue : nat;
  mpFalse : nat;
  mPool : list nat;
  mTseitinVars : gmap nat nat;
  mTseitinVarToFormula : gmap nat nat;
  heap : gmap nat (FormulaContent C);
  mFreshVariable : nat
}.
Arguments mkPool {C}.
Arguments mIdAllocator {C}.
Arguments mpTrue {C}.
Arguments mpFalse {C}.
Arguments mPool {C}.
Arguments mTseitinVars {C}.
Arguments mTseitinVarToFormula {C}.
Arguments heap {C}.
Arguments mFreshVariable {C}.

(** [std::numeric_limits<size_t>::max()]. *)
Definition size_t_max : N := 2 ^ 64 - 1.

(** A [VariableComparison<Pol>] as the pool uses it: the atom as an
    opaque key, and what [asConstraint()] returns. *)
Record VariableComparison (C : Type) := mkVariableComparison {
  comparison : nat;
  asConstraint : option C
}.
Arguments mkVariableComparison {C}.
Arguments comparison {C}.
Arguments asConstraint {C}.

(** A [BVConstraint] as the pool uses it: the atom as an opaque key, and
    what [isAlwaysConsistent()] and [isAlwaysInconsistent()] return. *)
Record BVConstraint := mkBVConstraint {
  bitvector : nat;
  isAlwaysConsistent : bool;
  isAlwaysInconsistent : bool
}.

Section Pool.
Context {C : Type} `{ConstraintOps C}.

Definition set_heap (h : gmap nat (FormulaContent C)) (p : Pool C) : Pool C :=
  mkPool (mIdAllocator p) (mpTrue p) (mpFalse p) (mPool p)
         (mTseitinVars p) (mTseitinVarToFormula p) h (mFreshVariable p).

Definition set_usages (u : N) (c : FormulaContent C) : FormulaContent C :=
  mkContent (mId c) (mType c) (mPayload c) (mNegation c) u (mDifficulty c).

Definition set_difficulty (d : nat) (c : FormulaContent C) : FormulaContent C :=
  mkContent (mId c) (mType c) (mPayload c) (mNegation c) (mUsages c) d.

Definition trueFormula (p : Pool C) : nat := mpTrue p.
Definition falseFormula (p : Pool C) : nat := mpFalse p.
Definition size (p : Pool C) : nat := length (mPool p).

(** [isBaseFormula] on a constraint. *)
Definition isBaseFormula_constraint (c : C) : bool :=
  constraint_lt c (negation c).

(** [isBaseFormula] on a node; [None] where a member
    read by the code is not there (the [assert] on the tag, a pointer
    that is not a node). *)
Definition isBaseFormula (p : Pool C) (f : FormulaContent C) : option bool :=
  match mPayload f, heap p !! mNegation f with
  | Constraint_ a, Some n =>
      match mPayload n with
      | Constraint_ b => Some (constraint_lt a b)
      | _ => None
      end
  | _, _ => None
  end.

(** [getBaseFormula]. *)
Definition getBaseFormula (p : Pool C) (f : nat) : option nat :=
  match heap p !! f with
  | None => None
  | Some c =>
      if bool_decide (mType c = NOT) then Some (mNegation c)
      else if bool_decide (mType c = CONSTRAINT) then
        match isBaseFormula p c with
        | Some true => Some f
        | Some false => Some (mNegation c)
        | None => None
        end
      else Some f
  end.

(** [reg]; [None] is a failed [assert]. *)
Definition reg (_elem : nat) (p : Pool C) : option (Pool C) :=
  match heap p !! _elem, getBaseFormula p _elem with
  | Some e, Some tmp =>
      match heap p !! tmp with
      | None => None
      | Some t =>
          if (mUsages t <? size_t_max)%N then
            let u := (mUsages t + 1)%N in
            let u' := if (u =? 1)%N && bool_decide (mType e = CONSTRAINT)
                      then (u + 1)%N else u in
            Some (set_heap (<[tmp := set_usages u' t]> (heap p)) p)
          else None
      end
  | _, _ => None
  end.

(** [mPool.erase( tmp ); delete tmp->mNegation; delete tmp;] as [free]
    and [freeTseitinVariable] write it. The destructor of a NOT node (in
    [Formula.h]) releases its handle on [tmp] first, which only touches
    the counter of the node destroyed next. *)
Definition destroy (tmp : nat) (p : Pool C) : option (Pool C) :=
  match heap p !! tmp with
  | None => None
  | Some t =>
      Some (mkPool (mIdAllocator p) (mpTrue p) (mpFalse p)
              (filter (fun x => x <> tmp) (mPool p))
              (mTseitinVars p) (mTseitinVarToFormula p)
              (delete tmp (delete (mNegation t) (heap p)))
              (mFreshVariable p))
  end.

Definition set_tseitin (tv tvf : gmap nat nat) (p : Pool C) : Pool C :=
  mkPool (mIdAllocator p) (mpTrue p) (mpFalse p) (mPool p)
         tv tvf (heap p) (mFreshVariable p).

(** [freeTseitinVariable]. *)
Definition freeTseitinVariable (_toDelete : nat) (p : Pool C)
    : option (bool * Pool C) :=
  match mTseitinVars p !! _toDelete with
  | Some tv =>
      match heap p !! tv with
      | None => None
      | Some tvc =>
          if (mUsages tvc =? 1)%N then
            let tmp := tv in
            match mTseitinVarToFormula p !! tmp with
            | None => None
            | Some _ =>
                let p1 := set_tseitin (delete _toDelete (mTseitinVars p))
                            (delete tmp (mTseitinVarToFormula p)) p in
                match destroy tmp p1 with
                | Some p2 => Some (false, p2)
                | None => None
                end
            end
          else Some (true, p)
      end
  | None =>
      match mTseitinVarToFormula p !! _toDelete with
      | Some fcont =>
          match heap p !! fcont with
          | None => None
          | Some fc =>
              if (mUsages fc =? 1)%N then
                match getBaseFormula p fcont with
                | None => None
                | Some tmp =>
                    let p1 := set_tseitin (delete fcont (mTseitinVars p))
                                (delete _toDelete (mTseitinVarToFormula p)) p in
                    match destroy tmp p1 with
                    | Some p2 => Some (false, p2)
                    | None => None
                    end
                end
              else Some (true, p)
          end
      | None => Some (false, p)
      end
  end.

(** [free]; [None] is a failed [assert] or the use of a destroyed node. *)
Definition free (_elem : nat) (p : Pool C) : option (Pool C) :=
  match getBaseFormula p _elem with
  | None => None
  | Some tmp =>
      match heap p !! tmp with
      | None => None
      | Some t =>
          if (0 <? mUsages t)%N then
            let u := (mUsages t - 1)%N in
            let p0 := set_heap (<[tmp := set_usages u t]> (heap p)) p in
            if (u =? 1)%N then
              match freeTseitinVariable tmp p0 with
              | None => None
              | Some (b1, p1) =>
                  match heap p1 !! tmp with
                  | None => None
                  | Some t1 =>
                      match freeTseitinVariable (mNegation t1) p1 with
                      | None => None
                      | Some (b2, p2) =>
                          if b1 || b2 then Some p2 else destroy tmp p2
                      end
                  end
              end
            else Some p0
          else None
      end
  end.

(** [createNegatedContent]: the unpublished negation of node [f], given
    by its tag and payload. Building the operand handle [Formula<Pol>(f)]
    of a NOT node registers a use of [f] (see [handle] below). *)
Definition createNegatedContent (f : nat) (p : Pool C)
    : option (FormulaType * Payload C * Pool C) :=
  match heap p !! f with
  | None => None
  | Some c =>
      if bool_decide (mType c = CONSTRAINT) then
        match mPayload c with
        | Constraint_ a => Some (CONSTRAINT, Constraint_ (negation a), p)
        | _ => None
        end
      else
        match reg f p with
        | Some p' => Some (NOT, Subformula f, p')
        | None => None
        end
  end.

(** [mPool.find]: the table compares nodes by tag and payload. *)
Definition find_content (ty : FormulaType) (pl : Payload C) (p : Pool C)
    : option nat :=
  List.find (fun x => match heap p !! x with
                      | Some c => bool_decide (mType c = ty)
                                  && bool_decide (mPayload c = pl)
                      | None => false
                      end) (mPool p).

(** Modelled from the spec: the constructor of the pool, which is in
    [FormulaPool.tpp]. TRUE and FALSE are created once, negate each other,
    are both resident in the table and have their usage count pinned; the
    ids 1 and 2 and the allocator starting at 3 are those of the
    constructor of [AstPool], and 2 is the least count that [free] never
    brings to its threshold. *)
Definition init : Pool C :=
  {| mIdAllocator := 3;
     mpTrue := 1;
     mpFalse := 2;
     mPool := [1; 2];
     mTseitinVars := ∅;
     mTseitinVarToFormula := ∅;
     heap := <[1 := mkContent 1 TRUE NoPayload 2 2 0]>
             (<[2 := mkContent 2 FALSE NoPayload 1 2 0]> ∅);
     mFreshVariable := 0 |}.

(** Modelled from the spec: [add], which is in [FormulaPool.tpp]. The
    candidate is looked up by structural equality; if found it is
    discarded and the existing node returned; otherwise it gets the next
    id, its negation is constructed with the id after that, the base node
    is inserted into the table and the two nodes point to each other. *)
Definition add (ty : FormulaType) (pl : Payload C) (p : Pool C)
    : option (nat * Pool C) :=
  match find_content ty pl p with
  | Some e => Some (e, p)
  | None =>
      let k := mIdAllocator p in
      let p1 := mkPool (S (S k)) (mpTrue p) (mpFalse p) (k :: mPool p)
                  (mTseitinVars p) (mTseitinVarToFormula p)
                  (<[k := mkContent k ty pl (S k) 0 0]> (heap p))
                  (mFreshVariable p) in
      match createNegatedContent k p1 with
      | None => None
      | Some (nty, npl, p2) =>
          Some (k, set_heap (<[S k := mkContent (S k) nty npl k 0 0]> (heap p2)) p2)
      end
  end.

(** [create(FormulaType)]. *)
Definition create_bool (_type : FormulaType) (p : Pool C) : option nat :=
  match _type with
  | TRUE => Some (trueFormula p)
  | FALSE => Some (falseFormula p)
  | _ => None
  end.

(** [create(Variable::Arg)]. *)
Definition create_variable (_variable : nat) (p : Pool C)
    : option (nat * Pool C) :=
  add BOOL (Variable_ _variable) p.

(** [create(Constraint<Pol>&&)], with SIMPLIFY_FORMULA defined as the
    header does. *)
Definition create_constraint (_constraint : C) (p : Pool C)
    : option (nat * Pool C) :=
  match isConsistent _constraint with
  | 0 => Some (falseFormula p, p)
  | 1 => Some (trueFormula p, p)
  | _ =>
      if isBaseFormula_constraint _constraint then
        add CONSTRAINT (Constraint_ _constraint) p
      else
        match add CONSTRAINT (Constraint_ (negation _constraint)) p with
        | Some (b, p') =>
            match heap p' !! b with
            | Some c => Some (mNegation c, p')
            | None => None
            end
        | None => None
        end
  end.

(** [create(UEquality&&)] and [create(PBConstraint<Pol>&&)]: atoms that
    are interned as they come. *)
Definition create_ueq (eq : nat) (p : Pool C) : option (nat * Pool C) :=
  add UEQ (Atom eq) p.

Definition create_pbconstraint (pbc : nat) (p : Pool C)
    : option (nat * Pool C) :=
  add PBCONSTRAINT (Atom pbc) p.

(** [create(FormulaType, Formula<Pol>&&)]; [None] is [assert(false)]. *)
Definition create_unary (_type : FormulaType) (_subFormula : nat)
    (p : Pool C) : option nat :=
  match _type with
  | NOT =>
      match heap p !! _subFormula with
      | Some c => Some (mNegation c)
      | None => None
      end
  | AND | OR | XOR => Some _subFormula
  | IFF => create_bool TRUE p
  | _ => None
  end.

(** Modelled from the spec: a handle [Formula<Pol>( content )], which is
    declared in [Formula.h]; constructing a handle registers a use. *)
Definition handle (content : nat) (p : Pool C) : option (nat * Pool C) :=
  match reg content p with
  | Some p' => Some (content, p')
  | None => None
  end.

(** [getTseitinVar]. *)
Definition getTseitinVar (_formula : nat) (p : Pool C)
    : option (nat * Pool C) :=
  match mTseitinVars p !! _formula with
  | Some tv => handle tv p
  | None => handle (trueFormula p) p
  end.

(** [createTseitinVar]. The entry is inserted with [nullptr] and filled
    in before the function returns; only the filled entry is kept here. *)
Definition createTseitinVar (_formula : nat) (p : Pool C)
    : option (nat * Pool C) :=
  match mTseitinVars p !! _formula with
  | Some tv => handle tv p
  | None =>
      let v := mFreshVariable p in
      let p0 := mkPool (mIdAllocator p) (mpTrue p) (mpFalse p) (mPool p)
                  (mTseitinVars p) (mTseitinVarToFormula p) (heap p) (S v) in
      match create_variable v p0 with
      | None => None
      | Some (hi, p1) =>
          match heap p1 !! _formula, heap p1 !! hi with
          | Some fc, Some hc =>
              let p2 := set_heap
                          (<[hi := set_difficulty (mDifficulty fc) hc]> (heap p1))
                          p1 in
              handle hi
                (set_tseitin (<[_formula := hi]> (mTseitinVars p2))
                             (<[hi := _formula]> (mTseitinVarToFormula p2)) p2)
          | _, _ => None
          end
      end
  end.

(** *** The multiset constructor *)

(** The [while] loop of [create(const FormulasMulti<Pol>&)]: [rest] is
    what [subFormula] still has to visit. [counter] is an [int] in the
    source; it counts the copies of one formula in the multiset. *)
Fixpoint multi_scan (rest : list nat) (lastSubFormula : nat) (counter : nat)
    (subFormulas : list nat) : list nat :=
  match rest with
  | [] =>
      if counter mod 2 =? 1
      then PointerSet.insert lastSubFormula subFormulas
      else subFormulas
  | subFormula :: rest' =>
      if lastSubFormula =? subFormula
      then multi_scan rest' lastSubFormula (S counter) subFormulas
      else
        multi_scan rest' subFormula 1
          (if counter mod 2 =? 1
           then PointerSet.insert lastSubFormula subFormulas
           else subFormulas)
  end.

Section NAry.

(** [createITE], [createImplication] and [createNAry] are defined in
    [FormulaPool.tpp]. *)
Variable createITE : list nat -> Pool C -> option (nat * Pool C).
Variable createImplication : list nat -> Pool C -> option (nat * Pool C).
Variable createNAry :
  FormulaType -> list nat -> Pool C -> option (nat * Pool C).

(** [create(FormulaType, Formulas<Pol>&&)]. *)
Definition create_nary (_type : FormulaType) (_subformulas : list nat)
    (p : Pool C) : option (nat * Pool C) :=
  match _type with
  | ITE => createITE _subformulas p
  | IMPLIES => createImplication _subformulas p
  | AND | OR | XOR | IFF => createNAry _type _subformulas p
  | _ => None
  end.

(** [create(const FormulasMulti<Pol>&)]; the multiset is the list of its
    elements in iteration order. *)
Definition create_multi (_subformulas : list nat) (p : Pool C)
    : option (nat * Pool C) :=
  match _subformulas with
  | [] => Some (falseFormula p, p)
  | [f] => Some (f, p)
  | lastSubFormula :: rest =>
      create_nary XOR (multi_scan rest lastSubFormula 1 []) p
  end.

End NAry.

(** *** Atoms of the other theories, quantifiers and connectives *)

(** [create(VariableComparison<Pol>&&)] and
    [create(VariableAssignment<Pol>&&)]: atoms that are interned as they
    come. *)
Definition create_varcompare (_variableComparison : nat) (p : Pool C)
    : option (nat * Pool C) :=
  add VARCOMPARE (Atom _variableComparison) p.

Definition create_varassign (_variableAssignment : nat) (p : Pool C)
    : option (nat * Pool C) :=
  add VARASSIGN (Atom _variableAssignment) p.

(** [create(const VariableComparison<Pol>&)]: a comparison that is a
    constraint is created as this constraint. *)
Definition create_varcompare_copy (_variableComparison : VariableComparison C)
    (p : Pool C) : option (nat * Pool C) :=
  match asConstraint _variableComparison with
  | Some val => create_constraint val p
  | None => create_varcompare (comparison _variableComparison) p
  end.

(** [create(BVConstraint&&)], with SIMPLIFY_FORMULA defined as the header
    does. *)
Definition create_bvconstraint (_constraint : BVConstraint) (p : Pool C)
    : option (nat * Pool C) :=
  if isAlwaysConsistent _constraint then Some (trueFormula p, p)
  else if isAlwaysInconsistent _constraint then Some (falseFormula p, p)
  else add BITVECTOR (Atom (bitvector _constraint)) p.

(** Modelled from the spec: handles, which are declared in [Formula.h].
    Copying a set of handles registers a use of each of them, and
    destroying it releases them, one after the other. *)
Fixpoint copy_handles (fs : list nat) (p : Pool C) : option (Pool C) :=
  match fs with
  | [] => Some p
  | f :: fs' =>
      match reg f p with
      | Some p' => copy_handles fs' p'
      | None => None
      end
  end.

Fixpoint release_handles (fs : list nat) (p : Pool C) : option (Pool C) :=
  match fs with
  | [] => Some p
  | f :: fs' =>
      match free f p with
      | Some p' => release_handles fs' p'
      | None => None
      end
  end.

(** Modelled from the spec: [add] for a candidate that owns handles of
    its operands. A candidate that is found in the table is discarded,
    which releases the handles it owns; one that is not found is
    published with them. *)
Definition add_candidate (ty : FormulaType) (pl : Payload C)
    (operands : list nat) (p : Pool C) : option (nat * Pool C) :=
  match find_content ty pl p with
  | Some e =>
      match release_handles operands p with
      | Some p' => Some (e, p')
      | None => None
      end
  | None => add ty pl p
  end.

(** [create(FormulaType, std::vector<Variable>&&, const Formula<Pol>&)];
    [None] is the failed [assert] on the tag. The candidate keeps a copy
    of the handle [_term] (its constructor is in [Formula.h]; see
    [handle]). *)
Definition create_quantifier (_type : FormulaType) (_vars : list nat)
    (_term : nat) (p : Pool C) : option (nat * Pool C) :=
  if bool_decide (_type = EXISTS) || bool_decide (_type = FORALL) then
    match _vars with
    | [] => Some (_term, p)
    | _ :: _ =>
        match handle _term p with
        | Some (_, p1) =>
            add_candidate _type (Quantifier _vars _term) [_term] p1
        | None => None
        end
    end
  else None.

(** Modelled from the spec: [createNAry], [createImplication] and
    [createITE], which are in [FormulaPool.tpp], as far as the histories
    of a pool need them. The canonicalization (section 4.2) either
    returns a node that exists, or it hands the operands that are left
    to [add] under the tag of the connective; [_subformulas] stands for
    the operands that are left. The rules of the canonicalization are
    not modelled. *)
Definition intern_connective (_type : FormulaType) (_subformulas : list nat)
    (p : Pool C) : option (nat * Pool C) :=
  add_candidate _type (Subformulas _subformulas) _subformulas p.

(** [create(FormulaType, const Formulas<Pol>&)]: the set of operands is
    copied and the copy handed to [create(FormulaType, Formulas<Pol>&&)],
    which dispatches on the tag. *)
Definition create_nary_copy (_type : FormulaType) (_subformulas : list nat)
    (p : Pool C) : option (nat * Pool C) :=
  match copy_handles _subformulas p with
  | Some p1 =>
      create_nary (intern_connective ITE) (intern_connective IMPLIES)
        intern_connective _type _subformulas p1
  | None => None
  end.

(** The pool after [free] has brought the counter of [tmp] down. *)
Definition released (p : Pool C) (tmp : nat) (t : FormulaContent C) : Pool C :=
  set_heap (<[tmp := set_usages (mUsages t - 1) t]> (heap p)) p.

(** The pool in which the counter of [tmp] is [u]. *)
Definition with_usages (p : Pool C) (tmp : nat) (t : FormulaContent C) (u : N)
    : Pool C :=
  set_heap (<[tmp := set_usages u t]> (heap p)) p.

(** Neither map of the Tseitin bookkeeping mentions [f]. *)
Definition no_tseitin (p : Pool C) (f : nat) : Prop :=
  mTseitinVars p !! f = None /\ mTseitinVarToFormula p !! f = None.

(** [createTseitinVar] called [n] times in a row for the same formula;
    the placeholders are returned in the order of the calls. *)
Fixpoint createTseitinVars (n : nat) (_formula : nat) (p : Pool C)
    : option (list nat * Pool C) :=
  match n with
  | 0 => Some ([], p)
  | S n' =>
      match createTseitinVar _formula p with
      | Some (tv, p') =>
          match createTseitinVars n' _formula p' with
          | Some (tvs, p'') => Some (tv :: tvs, p'')
          | None => None
          end
      | None => None
      end
  end.

(** Nothing was allocated or dropped between [p] and [p']: the same
    nodes, the same table, the same Tseitin maps, the same allocators. *)
Definition same_nodes (p p' : Pool C) : Prop :=
  mIdAllocator p' = mIdAllocator p
  /\ mPool p' = mPool p
  /\ mTseitinVars p' = mTseitinVars p
  /\ mTseitinVarToFormula p' = mTseitinVarToFormula p
  /\ mFreshVariable p' = mFreshVariable p
  /\ dom (heap p') = dom (heap p).

(** *** Elementary changes of a pool

    Every call is a sequence of a few kinds of change; the invariants of
    the pool are proved once for each kind. *)

(** Two contents of one node that differ at most in the usage count and
    the difficulty. *)
Definition same_links (c c' : FormulaContent C) : Prop :=
  mType c' = mType c /\ mPayload c' = mPayload c /\ mNegation c' = mNegation c.

(** A tag that is neither a constant, nor NOT, nor CONSTRAINT. *)
Definition plain (ty : FormulaType) : Prop :=
  ty <> NOT /\ ty <> CONSTRAINT /\ ty <> TRUE /\ ty <> FALSE.

(** The pairs that [add] publishes: a plain node with its NOT node, or a
    constraint accepted by [ok] with the negated constraint. *)
Inductive publishable (ok : C -> Prop)
    : FormulaType -> Payload C -> FormulaType -> Payload C -> Prop :=
  | publishable_plain ty pl f :
      plain ty -> publishable ok ty pl NOT (Subformula f)
  | publishable_constraint a :
      ok a ->
      publishable ok CONSTRAINT (Constraint_ a)
                     CONSTRAINT (Constraint_ (negation a)).

Inductive change (ok : C -> Prop) : Pool C -> Pool C -> Prop :=
  | change_refl p : change ok p p
  | change_trans p1 p2 p3 :
      change ok p1 p2 -> change ok p2 p3 -> change ok p1 p3
  | change_update p x c c' :
      heap p !! x = Some c -> same_links c c' ->
      change ok p (set_heap (<[x := c']> (heap p)) p)
  | change_tseitin p tv tvf : change ok p (set_tseitin tv tvf p)
  | change_variable p v :
      change ok p (mkPool (mIdAllocator p) (mpTrue p) (mpFalse p) (mPool p)
                     (mTseitinVars p) (mTseitinVarToFormula p) (heap p) v)
  | change_destroy p tmp p' : destroy tmp p = Some p' -> change ok p p'
  | change_publish p ty pl nty npl u :
      publishable ok ty pl nty npl ->
      let k := mIdAllocator p in
      change ok p
        (mkPool (S (S k)) (mpTrue p) (mpFalse p) (k :: mPool p)
           (mTseitinVars p) (mTseitinVarToFormula p)
           (<[S k := mkContent (S k) nty npl k 0 0]>
              (<[k := mkContent k ty pl (S k) u 0]> (heap p)))
           (mFreshVariable p)).

(** How a node [x] with content [c] and its negation, with content [n],
    stand to the lookup table. *)
Inductive polarity (ok : C -> Prop) (table : list nat) (x : nat)
    (c n : FormulaContent C) : Prop :=
  | polarity_constant :
      mType c = TRUE \/ mType c = FALSE ->
      mType n = TRUE \/ mType n = FALSE ->
      x ∈ table -> mNegation c ∈ table ->
      polarity ok table x c n
  | polarity_plain :
      plain (mType c) -> mType n = NOT ->
      x ∈ table -> mNegation c ∉ table ->
      polarity ok table x c n
  | polarity_not :
      mType c = NOT -> plain (mType n) ->
      x ∉ table -> mNegation c ∈ table ->
      polarity ok table x c n
  | polarity_base a :
      mType c = CONSTRAINT -> mType n = CONSTRAINT ->
      mPayload c = Constraint_ a -> mPayload n = Constraint_ (negation a) ->
      ok a ->
      x ∈ table -> mNegation c ∉ table ->
      polarity ok table x c n
  | polarity_negated a :
      mType c = CONSTRAINT -> mType n = CONSTRAINT ->
      mPayload n = Constraint_ a -> mPayload c = Constraint_ (negation a) ->
      ok a ->
      x ∉ table -> mNegation c ∈ table ->
      polarity ok table x c n.

(** The invariant of the pool: live nodes and table entries are below the
    allocator, and every live node has a live negation, distinct from it,
    that points back, the two standing in one of the polarities. *)
Record invariant (ok : C -> Prop) (p : Pool C) : Prop := {
  inv_live : forall x, is_Some (heap p !! x) -> x < mIdAllocator p;
  inv_table : forall x, x ∈ mPool p -> x < mIdAllocator p;
  inv_pair : forall x c,
    heap p !! x = Some c ->
    exists n, heap p !! mNegation c = Some n
              /\ mNegation n = x /\ mNegation c <> x
              /\ polarity ok (mPool p) x c n
}.

(** The laws of the atom type that make the choice of the base polarity
    well defined. *)
Class ConstraintLaws : Prop := {
  negation_involutive : forall a : C, negation (negation a) = a;
  constraint_lt_asym :
    forall a b : C, constraint_lt a b = true -> constraint_lt b a = false;
  constraint_lt_negation :
    forall a : C, constraint_lt a (negation a) = false ->
                  constraint_lt (negation a) a = true
}.

(** The polarity that [create_constraint] interns. *)
Definition base_polarity (a : C) : Prop := constraint_lt a (negation a) = true.

(** *** Histories of a pool *)

(** The calls that change a pool: the constructors of the header for
    atoms, quantifiers and connectives, the registration and release of
    a handle, and the Tseitin bookkeeping. [create(FormulaType)], the
    unary [create], the multiset constructor and the constructor for
    equalities of uninterpreted terms either leave the pool as it is or
    end in one of these. *)
Inductive Call :=
  | CreateVariable (v : nat)
  | CreateConstraint (c : C)
  | CreateUEq (eq : nat)
  | CreatePBConstraint (pbc : nat)
  | Reg (f : nat)
  | Free (f : nat)
  | GetTseitinVar (f : nat)
  | CreateTseitinVar (f : nat)
  | CreateVariableComparison (vc : nat)
  | CopyVariableComparison (vc : VariableComparison C)
  | CreateVariableAssignment (va : nat)
  | CreateBVConstraint (bv : BVConstraint)
  | CreateQuantifier (ty : FormulaType) (vars : list nat) (term : nat)
  | CreateNAry (ty : FormulaType) (fs : list nat).

Definition call (c : Call) (p : Pool C) : option (Pool C) :=
  match c with
  | CreateVariable v => snd <$> create_variable v p
  | CreateConstraint c => snd <$> create_constraint c p
  | CreateUEq eq => snd <$> create_ueq eq p
  | CreatePBConstraint pbc => snd <$> create_pbconstraint pbc p
  | Reg f => reg f p
  | Free f => free f p
  | GetTseitinVar f => snd <$> getTseitinVar f p
  | CreateTseitinVar f => snd <$> createTseitinVar f p
  | CreateVariableComparison vc => snd <$> create_varcompare vc p
  | CopyVariableComparison vc => snd <$> create_varcompare_copy vc p
  | CreateVariableAssignment va => snd <$> create_varassign va p
  | CreateBVConstraint bv => snd <$> create_bvconstraint bv p
  | CreateQuantifier ty vars term => snd <$> create_quantifier ty vars term p
  | CreateNAry ty fs => snd <$> create_nary_copy ty fs p
  end.

(** A sequence of calls, one after the other. *)
Fixpoint calls (cs : list Call) (p : Pool C) : option (Pool C) :=
  match cs with
  | [] => Some p
  | c :: cs' =>
      match call c p with
      | Some p' => calls cs' p'
      | None => None
      end
  end.

(** The pools that a sequence of calls leads to from a new pool. *)
Inductive reachable : Pool C -> Prop :=
  | reachable_init : reachable init
  | reachable_call c p p' :
      reachable p -> call c p = Some p' -> reachable p'.

(** *** The Tseitin bookkeeping of a history *)
(** The iterators kept in [mTseitinVarToFormula] are valid and point
    back: the two maps are inverse to each other. *)
Definition tseitin_inverse (p : Pool C) : Prop :=
  forall tv f,
    mTseitinVarToFormula p !! tv = Some f <-> mTseitinVars p !! f = Some tv.

(** A placeholder was published, and while it lives it is a variable
    that [carl::freshBooleanVariable] has handed out. *)
Definition placeholders (p : Pool C) : Prop :=
  forall tv f,
    mTseitinVarToFormula p !! tv = Some f ->
    tv < mIdAllocator p
    /\ forall c, heap p !! tv = Some c ->
                 exists v, mPayload c = Variable_ v /\ v < mFreshVariable p.

(** The published nodes keep what they stand for: a node of [p] that is
    still there in [p'] has the payload it had. *)
Definition older_kept (p p' : Pool C) : Prop :=
  mIdAllocator p <= mIdAllocator p'
  /\ forall x c', x < mIdAllocator p -> heap p' !! x = Some c' ->
                  exists c, heap p !! x = Some c /\ mPayload c = mPayload c'.

(** The Tseitin bookkeeping and the source of fresh variables are the
    same in [p] and [p']. *)
Definition same_tseitin (p p' : Pool C) : Prop :=
  mTseitinVars p' = mTseitinVars p
  /\ mTseitinVarToFormula p' = mTseitinVarToFormula p
  /\ mFreshVariable p' = mFreshVariable p.

(** Entries of the bookkeeping were dropped in pairs at most. *)
Definition pruned (p p' : Pool C) : Prop :=
  mFreshVariable p' = mFreshVariable p
  /\ (forall tv f, mTseitinVarToFormula p' !! tv = Some f ->
                   mTseitinVarToFormula p !! tv = Some f)
  /\ (tseitin_inverse p -> tseitin_inverse p').

(** The counters are kept on the nodes of the table: a node outside it
    has never been counted on. *)
Definition counted_on_table (p : Pool C) : Prop :=
  forall x c, heap p !! x = Some c -> x ∉ mPool p -> mUsages c = 0%N.

(** TRUE and FALSE are the two nodes that the accessors return, and they
    negate each other. *)
Definition constants (p : Pool C) : Prop :=
  forall x c,
    heap p !! x = Some c ->
    (mType c = TRUE -> x = trueFormula p /\ mNegation c = falseFormula p)
    /\ (mType c = FALSE -> x = falseFormula p /\ mNegation c = trueFormula p).

(** *** Equalities over uninterpreted terms *)

(** [UEquality::Arg], a [boost::variant] of an uninterpreted variable
    and an instance of an uninterpreted function, each named by its
    id. *)
Inductive Arg :=
  | UVariable_ (v : nat)
  | UFInstance_ (i : nat).

Section UEquality.

(** [operator<] of [UVariable] and of [UFInstance], and the equality
    that the constructors of [UEquality] build, as the key of the atom:
    from a left-hand side, a right-hand side, the flag [_negated] and
    the fourth argument where the call has one. All three are in
    [UEquality.h], [UVariable.h] and [UFInstance.h]. *)
Variable uvariable_lt : nat -> nat -> bool.
Variable ufinstance_lt : nat -> nat -> bool.
Variable UEquality : Arg -> Arg -> bool -> option bool -> nat.

(** [create(const UEquality::Arg&, const UEquality::Arg&, bool)], with
    SIMPLIFY_FORMULA defined as the header does. *)
Definition create_uequality (_lhs _rhs : Arg) (_negated : bool) (p : Pool C)
    : option (nat * Pool C) :=
  match _lhs, _rhs with
  | UVariable_ l, UVariable_ r =>
      if uvariable_lt l r then
        add UEQ (Atom (UEquality _lhs _rhs _negated (Some true))) p
      else if uvariable_lt r l then
        add UEQ (Atom (UEquality _rhs _lhs _negated (Some true))) p
      else if _negated then Some (falseFormula p, p)
      else Some (trueFormula p, p)
  | UVariable_ _, UFInstance_ _ =>
      add UEQ (Atom (UEquality _lhs _rhs _negated None)) p
  | UFInstance_ _, UVariable_ _ =>
      add UEQ (Atom (UEquality _rhs _lhs _negated None)) p
  | UFInstance_ l, UFInstance_ r =>
      if ufinstance_lt l r then
        add UEQ (Atom (UEquality _lhs _rhs _negated (Some true))) p
      else if ufinstance_lt r l then
        add UEQ (Atom (UEquality _rhs _lhs _negated (Some true))) p
      else if _negated then Some (falseFormula p, p)
      else Some (trueFormula p, p)
  end.

End UEquality.

End Pool.

End FormulaPool.

(** ** SampleSet.tpp *)
Module SampleSet.

(** A real algebraic number as the sample set uses it: the address of
    the object (the lists hold pointers, and [std::find] compares them),
    [isNumeric()], [value()] and [isRoot()]. *)
Record RealAlgebraicNumber (Number : Type) := mkNumber {
  address : nat;
  isNumeric : bool;
  value : Number;
  isRoot : bool
}.
Arguments mkNumber {Number}.
Arguments address {Number}.
Arguments isNumeric {Number}.
Arguments value {Number}.
Arguments isRoot {Number}.

(** [carl::less] and [carl::Equal<Number>], which compare the numbers
    behind two pointers; they are declared with [RealAlgebraicNumber]. *)
Class Comparison (Number : Type) := {
  less : RealAlgebraicNumber Number -> RealAlgebraicNumber Number -> bool;
  Equal : RealAlgebraicNumber Number -> RealAlgebraicNumber Number -> bool
}.

(** The members of a [SampleSet], and the next address that [new] hands
    out. *)
Record SampleSet (Number : Type) := mkSampleSet {
  samples : list (RealAlgebraicNumber Number);
  queue : list (RealAlgebraicNumber Number);
  NRqueue : list (RealAlgebraicNumber Number);
  IRqueue : list (RealAlgebraicNumber Number);
  rootQueue : list (RealAlgebraicNumber Number);
  nonRootQueue : list (RealAlgebraicNumber Number);
  allocated : nat
}.
Arguments mkSampleSet {Number}.
Arguments samples {Number}.
Arguments queue {Number}.
Arguments NRqueue {Number}.
Arguments IRqueue {Number}.
Arguments rootQueue {Number}.
Arguments nonRootQueue {Number}.
Arguments allocated {Number}.

Section SampleSet.
Context {Number : Type} `{Comparison Number}.
Implicit Types (r x y a b c : RealAlgebraicNumber Number).
Implicit Types (l : list (RealAlgebraicNumber Number)).
Implicit Types (s : SampleSet Number).

(** [std::lower_bound( first, last, r, less )] on a list that is
    partitioned by [less( ., r )], as a sorted list is: the position of
    the first element that is not less than [r]; the length of the list
    is [end()]. *)
Fixpoint lower_bound l r : nat :=
  match l with
  | [] => 0
  | x :: l' => if less x r then S (lower_bound l' r) else 0
  end.

(** [list.insert( position, r )]. *)
Definition insert_at (position : nat) r l : list (RealAlgebraicNumber Number) :=
  take position l ++ r :: drop position l.

(** [std::find] for a pointer followed by [erase]; [None] is the
    [assert] that the pointer was found. *)
Fixpoint find_erase r l : option (list (RealAlgebraicNumber Number)) :=
  match l with
  | [] => None
  | x :: l' =>
      if address x =? address r then Some l'
      else match find_erase r l' with
           | Some k => Some (x :: k)
           | None => None
           end
  end.

(** [SampleSet::insert]. The result is the position returned, the flag,
    and the set; [None] for a number that is not numeric, for which the
    function has no [return]. The object that [new] makes is a
    [RealAlgebraicNumberNR], the numeric representation, with the value
    and the root flag it is given. *)
Definition insert r s
    : option (nat * bool * SampleSet Number) :=
  if isNumeric r then
    let rNR := mkNumber (allocated s) true (value r) (isRoot r) in
    let s0 := mkSampleSet (samples s) (queue s) (NRqueue s) (IRqueue s)
                (rootQueue s) (nonRootQueue s) (S (allocated s)) in
    let position :=
      if bool_decide (samples s = []) then 0
      else lower_bound (samples s) rNR in
    match (if bool_decide (samples s = []) then None
           else samples s !! position) with
    | Some x =>
        if Equal x rNR then Some (position, false, s0)
        else
          Some (position, true,
                mkSampleSet (insert_at position rNR (samples s))
                  (queue s ++ [rNR]) (NRqueue s ++ [rNR]) (IRqueue s)
                  (if isRoot rNR then rootQueue s ++ [rNR] else rootQueue s)
                  (if isRoot rNR then nonRootQueue s
                   else nonRootQueue s ++ [rNR])
                  (S (allocated s)))
    | None =>
        Some (position, true,
              mkSampleSet (insert_at position rNR (samples s))
                (queue s ++ [rNR]) (NRqueue s ++ [rNR]) (IRqueue s)
                (if isRoot rNR then rootQueue s ++ [rNR] else rootQueue s)
                (if isRoot rNR then nonRootQueue s
                 else nonRootQueue s ++ [rNR])
                (S (allocated s)))
    end
  else None.

(** [removeFromQueue], [removeFromNRIR] and [removeFromNonrootRoot]. *)
Definition removeFromQueue r s
    : option (SampleSet Number) :=
  match find_erase r (queue s) with
  | Some q =>
      Some (mkSampleSet (samples s) q (NRqueue s) (IRqueue s)
              (rootQueue s) (nonRootQueue s) (allocated s))
  | None => None
  end.

Definition removeFromNRIR r s
    : option (SampleSet Number) :=
  if isNumeric r then
    match find_erase r (NRqueue s) with
    | Some q =>
        Some (mkSampleSet (samples s) (queue s) q (IRqueue s)
                (rootQueue s) (nonRootQueue s) (allocated s))
    | None => None
    end
  else
    match find_erase r (IRqueue s) with
    | Some q =>
        Some (mkSampleSet (samples s) (queue s) (NRqueue s) q
                (rootQueue s) (nonRootQueue s) (allocated s))
    | None => None
    end.

Definition removeFromNonrootRoot r s
    : option (SampleSet Number) :=
  if isRoot r then
    match find_erase r (rootQueue s) with
    | Some q =>
        Some (mkSampleSet (samples s) (queue s) (NRqueue s) (IRqueue s)
                q (nonRootQueue s) (allocated s))
    | None => None
    end
  else
    match find_erase r (nonRootQueue s) with
    | Some q =>
        Some (mkSampleSet (samples s) (queue s) (NRqueue s) (IRqueue s)
                (rootQueue s) q (allocated s))
    | None => None
    end.

Definition set_samples l s
    : SampleSet Number :=
  mkSampleSet l (queue s) (NRqueue s) (IRqueue s)
    (rootQueue s) (nonRootQueue s) (allocated s).

(** [SampleSet::remove]; the position returned is that of the element
    after the one erased, which is the same index. *)
Definition remove (position : nat) s
    : option (nat * SampleSet Number) :=
  match samples s !! position with
  | None => None
  | Some r =>
      match removeFromQueue r s with
      | None => None
      | Some s1 =>
          match removeFromNRIR r s1 with
          | None => None
          | Some s2 =>
              match removeFromNonrootRoot r s2 with
              | None => None
              | Some s3 =>
                  Some (position,
                        set_samples (delete position (samples s3)) s3)
              end
          end
      end
  end.

(** [SampleSet::next]; [None] is [assert(false)] or the front of an
    empty list. *)
Definition next s : option (RealAlgebraicNumber Number) :=
  if bool_decide (samples s = []) then None else head (queue s).

Definition nextNR s : option (RealAlgebraicNumber Number) :=
  if bool_decide (samples s = []) then None
  else if bool_decide (NRqueue s = []) then head (IRqueue s)
  else head (NRqueue s).

Definition nextNonRoot s : option (RealAlgebraicNumber Number) :=
  if bool_decide (samples s = []) then None
  else if bool_decide (nonRootQueue s = []) then head (rootQueue s)
  else head (nonRootQueue s).

Definition nextRoot s : option (RealAlgebraicNumber Number) :=
  if bool_decide (samples s = []) then None
  else if bool_decide (rootQueue s = []) then head (nonRootQueue s)
  else head (rootQueue s).

(** [SampleSet::pop]; [carl::Less<Number>()], which it passes to
    [std::lower_bound], is the order [less]. *)
Definition pop s : option (SampleSet Number) :=
  if bool_decide (samples s = []) then Some s
  else
    match next s with
    | None => None
    | Some r =>
        let position := lower_bound (samples s) r in
        if bool_decide (position = length (samples s)) then None
        else
          let s1 := mkSampleSet (delete position (samples s))
                      (tail (queue s)) (NRqueue s) (IRqueue s)
                      (rootQueue s) (nonRootQueue s) (allocated s) in
          match removeFromNRIR r s1 with
          | None => None
          | Some s2 => removeFromNonrootRoot r s2
          end
    end.

(** [SampleSet::popNR]. *)
Definition popNR s : option (SampleSet Number) :=
  if bool_decide (samples s = []) then Some s
  else
    match nextNR s with
    | None => None
    | Some r =>
        let position := lower_bound (samples s) r in
        if bool_decide (position = length (samples s)) then None
        else
          let s1 :=
            if bool_decide (NRqueue s = []) then
              mkSampleSet (delete position (samples s)) (queue s)
                (NRqueue s) (tail (IRqueue s))
                (rootQueue s) (nonRootQueue s) (allocated s)
            else
              mkSampleSet (delete position (samples s)) (queue s)
                (tail (NRqueue s)) (IRqueue s)
                (rootQueue s) (nonRootQueue s) (allocated s) in
          match removeFromQueue r s1 with
          | None => None
          | Some s2 => removeFromNonrootRoot r s2
          end
    end.

(** [SampleSet::popNonroot]. *)
Definition popNonroot s : option (SampleSet Number) :=
  if bool_decide (samples s = []) then Some s
  else
    match nextNonRoot s with
    | None => None
    | Some r =>
        let position := lower_bound (samples s) r in
        if bool_decide (position = length (samples s)) then None
        else
          let s1 :=
            if bool_decide (nonRootQueue s = []) then
              mkSampleSet (delete position (samples s)) (queue s)
                (NRqueue s) (IRqueue s)
                (tail (rootQueue s)) (nonRootQueue s) (allocated s)
            else
              mkSampleSet (delete position (samples s)) (queue s)
                (NRqueue s) (IRqueue s)
                (rootQueue s) (tail (nonRootQueue s)) (allocated s) in
          match removeFromNRIR r s1 with
          | None => None
          | Some s2 => removeFromQueue r s2
          end
    end.

(** [SampleSet::popRoot]. *)
Definition popRoot s : option (SampleSet Number) :=
  if bool_decide (samples s = []) then Some s
  else
    match nextRoot s with
    | None => None
    | Some r =>
        let position := lower_bound (samples s) r in
        if bool_decide (position = length (samples s)) then None
        else
          let s1 :=
            if bool_decide (rootQueue s = []) then
              mkSampleSet (delete position (samples s)) (queue s)
                (NRqueue s) (IRqueue s)
                (rootQueue s) (tail (nonRootQueue s)) (allocated s)
            else
              mkSampleSet (delete position (samples s)) (queue s)
                (NRqueue s) (IRqueue s)
                (tail (rootQueue s)) (nonRootQueue s) (allocated s) in
          match removeFromNRIR r s1 with
          | None => None
          | Some s2 => removeFromQueue r s2
          end
    end.

(** [std::find] for a pointer followed by [*position = to]; [None] is
    the [assert] that the pointer was found. *)
Fixpoint find_replace r (to : RealAlgebraicNumber Number) l
    : option (list (RealAlgebraicNumber Number)) :=
  match l with
  | [] => None
  | x :: l' =>
      if address x =? address r then Some (to :: l')
      else match find_replace r to l' with
           | Some k => Some (x :: k)
           | None => None
           end
  end.

(** [SampleSet::simplify( from, to, fromIt )], with the number [from]
    that [fromIt] points to in [IRqueue]; [None] is a failed [assert]. *)
Definition simplify_at (from to : RealAlgebraicNumber Number) s
    : option (bool * SampleSet Number) :=
  if bool_decide (isRoot from = isRoot to) then
    let position := lower_bound (samples s) from in
    if bool_decide (position = length (samples s)) then Some (false, s)
    else
      match find_erase from (IRqueue s) with
      | None => None
      | Some ir =>
          match (if isRoot from
                 then find_replace from to (rootQueue s)
                 else find_replace from to (nonRootQueue s)) with
          | None => None
          | Some roots =>
              match find_replace from to (queue s) with
              | None => None
              | Some q =>
                  Some (true,
                        mkSampleSet (<[position := to]> (samples s)) q
                          (NRqueue s ++ [to]) ir
                          (if isRoot from then roots else rootQueue s)
                          (if isRoot from then nonRootQueue s else roots)
                          (allocated s))
              end
          end
      end
  else None.

(** [SampleSet::simplify( from, to )]. *)
Definition simplify (from to : RealAlgebraicNumber Number) s
    : option (bool * SampleSet Number) :=
  match find_erase from (IRqueue s) with
  | Some _ => simplify_at from to s
  | None => Some (false, s)
  end.

(** [SampleSet::contains]. *)
Definition contains r s : bool :=
  bool_decide (lower_bound (samples s) r <> length (samples s)).

(** The empty sample set. *)
Definition empty : SampleSet Number := mkSampleSet [] [] [] [] [] [] 0.

(** *** What the lists of a sample set have to do with each other *)

(** The order of the samples. *)
Definition below x y : Prop := less x y = true.

Fixpoint sorted l : Prop :=
  match l with
  | [] => True
  | x :: l' => Forall (below x) l' /\ sorted l'
  end.

(** The laws of the comparison that the set relies on: a strict order
    in which two numbers that are not [Equal] are comparable. *)
Class ComparisonLaws : Prop := {
  less_irreflexive : forall a, less a a = false;
  less_transitive :
    forall a b c, less a b = true -> less b c = true -> less a c = true;
  less_Equal :
    forall a b, less a b = false -> Equal a b = false -> less b a = true;
  Equal_less : forall a b, Equal a b = true -> less a b = false
}.

(** The samples are in ascending order, every queue holds its share of
    the samples, and the objects are distinct and were allocated. *)
Record wf s : Prop := {
  wf_sorted : sorted (samples s);
  wf_queue : queue s ≡ₚ samples s;
  wf_NR : NRqueue s ≡ₚ filter (fun x => isNumeric x = true) (samples s);
  wf_IR : IRqueue s ≡ₚ filter (fun x => isNumeric x = false) (samples s);
  wf_root : rootQueue s ≡ₚ filter (fun x => isRoot x = true) (samples s);
  wf_nonRoot :
    nonRootQueue s ≡ₚ filter (fun x => isRoot x = false) (samples s);
  wf_distinct : NoDup (address <$> samples s);
  wf_allocated : Forall (fun x => address x < allocated s) (samples s)
}.

End SampleSet.
End SampleSet.

(** ** core/Constraint.h *)
Module CoreConstraint.

(** [CompareRelation], declared in [CompareRelation.h]. *)
Inductive CompareRelation := EQ | NEQ | LT | LEQ | GT | GEQ.

#[global] Instance CompareRelation_eq_dec : EqDecision CompareRelation.
Proof. solve_decision. Defined.

(** What [Constraint<LhsType>] asks of its left-hand side:
    [isConstant()] and [constantPart()], the latter an integer here. *)
Class LhsOps (LhsType : Type) := {
  isConstant : LhsType -> bool;
  constantPart : LhsType -> Z
}.

Record Constraint (LhsType : Type) := mkConstraint {
  mLhs : LhsType;
  mRelation : CompareRelation
}.
Arguments mkConstraint {LhsType}.
Arguments mLhs {LhsType}.
Arguments mRelation {LhsType}.

Section Constraint.
Context {LhsType : Type} `{LhsOps LhsType}.

(** [relationIsStrict], declared in [CompareRelation.h]. *)
Variable relationIsStrict : CompareRelation -> bool.

(** [Constraint::isTrivialTrue]; the [assert( cp < 0 )] of the last
    branch cannot fail for an integer. *)
Definition isTrivialTrue (c : Constraint LhsType) : bool :=
  if isConstant (mLhs c) then
    let cp := constantPart (mLhs c) in
    if (cp =? 0)%Z then negb (relationIsStrict (mRelation c))
    else if (0 <? cp)%Z then
      bool_decide (mRelation c = GEQ) || bool_decide (mRelation c = GT)
      || bool_decide (mRelation c = NEQ)
    else
      bool_decide (mRelation c = LEQ) || bool_decide (mRelation c = LT)
      || bool_decide (mRelation c = NEQ)
  else false.

(** [Constraint::isTrivialFalse]. *)
Definition isTrivialFalse (c : Constraint LhsType) : bool :=
  if isConstant (mLhs c) then
    let cp := constantPart (mLhs c) in
    if (cp =? 0)%Z then relationIsStrict (mRelation c)
    else if (0 <? cp)%Z then
      bool_decide (mRelation c = LEQ) || bool_decide (mRelation c = LT)
      || bool_decide (mRelation c = EQ)
    else
      bool_decide (mRelation c = GEQ) || bool_decide (mRelation c = GT)
      || bool_decide (mRelation c = EQ)
  else false.

End Constraint.

(** What a constraint [lhs rel 0] says of the value [v] of its left-hand
    side. *)
Definition holds (rel : CompareRelation) (v : Z) : Prop :=
  match rel with
  | EQ => v = 0
  | NEQ => v <> 0
  | LT => v < 0
  | LEQ => v <= 0
  | GT => v > 0
  | GEQ => v >= 0
  end%Z.

(** The strict relations. *)
Definition strict (rel : CompareRelation) : bool :=
  match rel with
  | NEQ | LT | GT => true
  | EQ | LEQ | GEQ => false
  end.

End CoreConstraint.

(** ** A concrete constraint type

    Constraints [lhs <= 0] and [lhs > 0] over polynomials named by a
    natural number, [0] being the zero polynomial; they are ordered by
    left-hand side first. *)
Module Sample.

Record constraint := mkConstraint {
  lhs : nat;
  strict : bool
}.

#[global] Instance constraint_eq_dec : EqDecision constraint.
Proof. solve_decision. Defined.

Definition lt (a b : constraint) : bool :=
  (lhs a <? lhs b)
  || ((lhs a =? lhs b) && negb (strict a) && strict b).

Definition neg (a : constraint) : constraint :=
  mkConstraint (lhs a) (negb (strict a)).

Definition consistent (a : constraint) : nat :=
  match lhs a with
  | 0 => if strict a then 0 else 1
  | _ => 2
  end.

#[global] Instance ops : FormulaPool.ConstraintOps constraint :=
  {| FormulaPool.constraint_lt := lt;
     FormulaPool.negation := neg;
     FormulaPool.isConsistent := consistent |}.

(** Modelled from the spec: [newAstWithOneSubast], which is declared in
    [AstPool.h]: a single operand is returned unwrapped, as
    [FormulaPool::create(FormulaType, Formula&&)] does for AND, OR and
    XOR; IFF of one operand is TRUE there. *)
Definition oneSubast (_type : FormulaType) (sub : nat) (p : AstPool.Pool)
    : option (nat * AstPool.Pool) :=
  match _type with
  | AND | OR | XOR => Some (sub, p)
  | IFF => Some (AstPool.mpTrue p, p)
  | _ => None
  end.

(** A new pool in which the constraint [5 > 0] has just been created: its
    base polarity [5 <= 0] is node 3, the constraint itself node 4. *)
Definition with_constraint : FormulaPool.Pool constraint :=
  default FormulaPool.init
    (snd <$> FormulaPool.create_constraint (mkConstraint 5 true)
               FormulaPool.init).

(** A new pool in which the Boolean variable 7 has just been created as
    node 3. *)
Definition with_variable : FormulaPool.Pool constraint :=
  default FormulaPool.init
    (snd <$> FormulaPool.create_variable 7 FormulaPool.init).

(** The variable 7, node 3, is held by one handle and has got the
    placeholder 5, whose handle has been released again. *)
Definition with_placeholder : FormulaPool.Pool constraint :=
  default FormulaPool.init
    (FormulaPool.calls
       [ FormulaPool.CreateVariable 7; FormulaPool.Reg 3;
         FormulaPool.CreateTseitinVar 3; FormulaPool.Free 5 ]
       FormulaPool.init).

(** Modelled from the spec: [createNAry] of [FormulaPool.tpp] as far as
    the multiset constructor needs it: no operand gives FALSE, a single
    operand goes to the unary [create], several operands are interned
    (flattening and the search for an operand next to its negation are
    left out). *)
Definition createNAry (_type : FormulaType) (_subformulas : list nat)
    (p : FormulaPool.Pool constraint)
    : option (nat * FormulaPool.Pool constraint) :=
  match _subformulas with
  | [] => Some (FormulaPool.falseFormula p, p)
  | [f] =>
      match FormulaPool.create_unary _type f p with
      | Some r => Some (r, p)
      | None => None
      end
  | _ => FormulaPool.add _type (FormulaPool.Subformulas _subformulas) p
  end.

(** The multiset constructor over [createNAry]; it reaches neither
    [createITE] nor [createImplication]. *)
Definition create_multi :=
  FormulaPool.create_multi (fun _ _ => None) (fun _ _ => None) createNAry.

(** An [AstPool] with three variables [a] = 3, [b] = 5 and [c] = 7. *)
Definition three_variables : AstPool.Pool :=
  {| AstPool.mIdAllocator := 9;
     AstPool.mpTrue := 1;
     AstPool.mpFalse := 2;
     AstPool.mAsts :=
       [ AstPool.mkAst 8 (AstPool.negated 7);
         AstPool.mkAst 7 (AstPool.mkShape BOOL [] 3);
         AstPool.mkAst 6 (AstPool.negated 5);
         AstPool.mkAst 5 (AstPool.mkShape BOOL [] 2);
         AstPool.mkAst 4 (AstPool.negated 3);
         AstPool.mkAst 3 (AstPool.mkShape BOOL [] 1);
         AstPool.mkAst 2 (AstPool.mkShape FALSE [] 0);
         AstPool.mkAst 1 (AstPool.mkShape TRUE [] 0) ] |}.

(** The pool with [p] = 3, [q] = 5 and AND(p, q) = 7, each followed by
    its negation. *)
Definition conjunction : AstPool.Pool :=
  {| AstPool.mIdAllocator := 9;
     AstPool.mpTrue := 1;
     AstPool.mpFalse := 2;
     AstPool.mAsts :=
       [ AstPool.mkAst 8 (AstPool.negated 7);
         AstPool.mkAst 7 (AstPool.mkShape AND [3; 5] 0);
         AstPool.mkAst 6 (AstPool.negated 5);
         AstPool.mkAst 5 (AstPool.mkShape BOOL [] 2);
         AstPool.mkAst 4 (AstPool.negated 3);
         AstPool.mkAst 3 (AstPool.mkShape BOOL [] 1);
         AstPool.mkAst 2 (AstPool.mkShape FALSE [] 0);
         AstPool.mkAst 1 (AstPool.mkShape TRUE [] 0) ] |}.

(** A new pool in which the Boolean variable 7, node 3, has got the
    placeholder 5; the caller holds the handle of the placeholder and no
    handle of the variable. *)
Definition with_fresh_placeholder : FormulaPool.Pool constraint :=
  default FormulaPool.init
    (FormulaPool.calls
       [ FormulaPool.CreateVariable 7; FormulaPool.CreateTseitinVar 3 ]
       FormulaPool.init).

(** A new pool with the variables 7 and 8, nodes 3 and 5, their
    conjunction, node 7, and the conjunction under a quantifier that
    binds the variable 1, node 9; each node is followed by its
    negation. *)
Definition with_connectives : FormulaPool.Pool constraint :=
  default FormulaPool.init
    (FormulaPool.calls
       [ FormulaPool.CreateVariable 7; FormulaPool.CreateVariable 8;
         FormulaPool.CreateNAry AND [3; 5];
         FormulaPool.CreateQuantifier EXISTS [1] 7 ]
       FormulaPool.init).

(** The conjunction of the variables 7 and 8, node 7, has got the
    placeholder 9. *)
Definition with_connective_placeholder : FormulaPool.Pool constraint :=
  default FormulaPool.init
    (FormulaPool.calls
       [ FormulaPool.CreateVariable 7; FormulaPool.CreateVariable 8;
         FormulaPool.CreateNAry AND [3; 5];
         FormulaPool.CreateTseitinVar 7 ]
       FormulaPool.init).

(** The negation of the variable 7, node 4, was held by one handle, has
    got the placeholder 5, and the handle of node 4 has been released
    again; the handle of the placeholder is still there. *)
Definition with_negation_placeholder : FormulaPool.Pool constraint :=
  default FormulaPool.init
    (FormulaPool.calls
       [ FormulaPool.CreateVariable 7; FormulaPool.Reg 4;
         FormulaPool.CreateTseitinVar 4; FormulaPool.Free 4 ]
       FormulaPool.init).

(** Equalities over uninterpreted terms named by the pair of their
    sides, the negated ones by the odd numbers. *)
Definition uequality (l r : FormulaPool.Arg) (negated : bool)
    (orderCheck : option bool) : nat :=
  let side a := match a with
                | FormulaPool.UVariable_ v => 2 * v
                | FormulaPool.UFInstance_ i => 2 * i + 1
                end in
  2 * (side l + (side l + side r) * (side l + side r + 1) / 2)
  + (if negated then 1 else 0).

(** A new pool in which the constraint [5 > 0], node 4, has just been
    created and is held by one handle. *)
Definition with_held_constraint : FormulaPool.Pool constraint :=
  default FormulaPool.init
    (FormulaPool.calls
       [ FormulaPool.CreateConstraint (mkConstraint 5 true);
         FormulaPool.Reg 4 ]
       FormulaPool.init).

(** Numbers with natural values, ordered by value. *)
#[global] Instance comparison : SampleSet.Comparison nat :=
  {| SampleSet.less a b := SampleSet.value a <? SampleSet.value b;
     SampleSet.Equal a b := SampleSet.value a =? SampleSet.value b |}.

(** The sample set after the root 5 and then the number 3 were put into
    the empty set. *)
Definition two_samples : SampleSet.SampleSet nat :=
  let three := SampleSet.mkNumber 1 true 3 false in
  let five := SampleSet.mkNumber 0 true 5 true in
  SampleSet.mkSampleSet [three; five] [five; three] [five; three] []
    [five] [three] 2.


(** Left-hand sides that are constants. *)
#[global] Instance constants : CoreConstraint.LhsOps Z :=
  {| CoreConstraint.isConstant := fun _ => true;
     CoreConstraint.constantPart := fun z => z |}.

End Sample.

(** * Properties of [AstPool] *)
Module AstPoolProofs.
Import AstPool.

(** ** Sets do not depend on the order of insertion *)

Lemma insert_comm (x y : nat) (s : list nat) :
  PointerSet.insert x (PointerSet.insert y s)
  = PointerSet.insert y (PointerSet.insert x s).
Proof.
  induction s as [|z s IH]; simpl.
  - destruct (Nat.ltb_spec x y), (Nat.ltb_spec y x),
      (Nat.eqb_spec x y), (Nat.eqb_spec y x);
      try lia; try reflexivity; subst; reflexivity.
  - destruct (Nat.ltb_spec y z), (Nat.ltb_spec x z),
      (Nat.eqb_spec y z), (Nat.eqb_spec x z); simpl;
      repeat match goal with
             | |- context [?a <? ?b] => destruct (Nat.ltb_spec a b)
             | |- context [?a =? ?b] => destruct (Nat.eqb_spec a b)
             end; try lia; subst; try reflexivity; try lia.
    now rewrite IH.
Qed.

Lemma of_list_perm (l1 l2 : list nat) :
  l1 ≡ₚ l2 -> PointerSet.of_list l1 = PointerSet.of_list l2.
Proof.
  unfold PointerSet.of_list, PointerSet.insert_range.
  induction 1 as [|x l l' _ IH|x y l|l l' l'' _ IH1 _ IH2]; simpl.
  - reflexivity.
  - now rewrite IH.
  - apply insert_comm.
  - now rewrite IH1.
Qed.

(** ** Hash-consing *)

Lemma find_shape_cons (s : Shape) (a : Ast) (l : list Ast) :
  find_shape s (a :: l)
  = if bool_decide (shape a = s) then Some a else find_shape s l.
Proof. reflexivity. Qed.

Lemma find_shape_elem (s : Shape) (l : list Ast) (a : Ast) :
  find_shape s l = Some a -> a ∈ l /\ shape a = s.
Proof.
  unfold find_shape. intros Hfind.
  apply List.find_some in Hfind as [Hin Hs].
  apply bool_decide_eq_true in Hs. split; [now apply list_elem_of_In|assumption].
Qed.

(** ** The allocator *)

Lemma increment_in_range (k : nat) :
  N.of_nat k <> UINT_MAX -> increment k = S k.
Proof.
  unfold increment. intros Hk.
  destruct (N.eqb_spec (N.of_nat k) UINT_MAX); [contradiction|reflexivity].
Qed.

Lemma increment_wraps (k : nat) :
  N.of_nat k = UINT_MAX -> increment k = 0 /\ increment (increment k) = 1.
Proof.
  unfold increment. intros ->. now rewrite N.eqb_refl.
Qed.

Lemma increment_other (k : nat) : increment k <> k.
Proof.
  unfold increment.
  destruct (N.eqb_spec (N.of_nat k) UINT_MAX) as [E|_]; [|lia].
  unfold UINT_MAX in E. lia.
Qed.

(** The allocator after a new pair is not below the one before exactly
    when neither increment has wrapped around. *)
Lemma increment_twice (k : nat) :
  2 <= k -> k <= increment (increment k) ->
  increment k = S k /\ increment (increment k) = S (S k).
Proof.
  intros Hk Hle.
  destruct (N.eqb_spec (N.of_nat k) UINT_MAX) as [E|E].
  - destruct (increment_wraps k E) as [_ E2]. lia.
  - assert (E1 : increment k = S k) by now apply increment_in_range.
    rewrite E1 in Hle |- *.
    destruct (N.eqb_spec (N.of_nat (S k)) UINT_MAX) as [E'|E'].
    + destruct (increment_wraps (S k) E') as [E2 _]. lia.
    + rewrite (increment_in_range (S k)) by assumption. auto.
Qed.

Lemma has_room_increment (p : Pool) :
  has_room p ->
  increment (mIdAllocator p) = S (mIdAllocator p)
  /\ increment (S (mIdAllocator p)) = S (S (mIdAllocator p)).
Proof.
  unfold has_room. intros Hroom.
  split; apply increment_in_range; lia.
Qed.

(** What [addAstToPool] does while the allocator does not wrap around. *)
Lemma addAstToPool_in_range (s : Shape) (p p' : Pool) (n : nat) :
  2 <= mIdAllocator p ->
  addAstToPool s p = Some (n, p') ->
  mIdAllocator p <= mIdAllocator p' ->
  match find_shape s (mAsts p) with
  | Some a => Some (mId a, p)
  | None =>
      let k := mIdAllocator p in
      let asts1 := mkAst k s :: mAsts p in
      match find_shape (negated k) asts1 with
      | Some _ => None
      | None =>
          Some (k, {| mIdAllocator := S (S k);
                      mpTrue := mpTrue p;
                      mpFalse := mpFalse p;
                      mAsts := mkAst (S k) (negated k) :: asts1 |})
      end
  end = Some (n, p').
Proof.
  unfold addAstToPool. intros Hk Hadd Hle.
  destruct (find_shape s (mAsts p)); [exact Hadd|].
  cbv zeta in *.
  destruct (find_shape (negated (mIdAllocator p)) _); [discriminate|].
  inversion Hadd; subst. cbn [mIdAllocator] in Hle.
  destruct (increment_twice _ Hk Hle) as [E1 E2].
  now rewrite E2, E1.
Qed.

(** ** Hash-consing *)

(** A node that is in the table stays the answer for its shape. *)
Lemma find_shape_add (s s' : Shape) (p p' : Pool) (n : nat) (a : Ast) :
  addAstToPool s' p = Some (n, p') ->
  find_shape s (mAsts p) = Some a ->
  find_shape s (mAsts p') = Some a.
Proof.
  unfold addAstToPool. intros Hadd Hfind.
  destruct (find_shape s' (mAsts p)) as [b|] eqn:Es'.
  - now inversion Hadd; subst.
  - destruct (find_shape (negated (mIdAllocator p)) _) eqn:Eneg; [discriminate|].
    inversion Hadd; subst; clear Hadd. simpl mAsts.
    rewrite find_shape_cons in Eneg. simpl shape in Eneg.
    rewrite !find_shape_cons. simpl shape.
    repeat case_bool_decide; congruence.
Qed.

Lemma find_shape_addAll (s : Shape) (ss : list Shape) (p p' : Pool) (a : Ast) :
  addAll ss p = Some p' ->
  find_shape s (mAsts p) = Some a ->
  find_shape s (mAsts p') = Some a.
Proof.
  revert p. induction ss as [|s' ss IH]; simpl; intros p Hall Hfind.
  - now inversion Hall; subst.
  - destruct (addAstToPool s' p) as [[n p1]|] eqn:Eadd; [|discriminate].
    eauto using find_shape_add.
Qed.

(** What [addAstToPool] returns is in the table afterwards. *)
Lemma addAstToPool_find (s : Shape) (p p' : Pool) (n : nat) :
  addAstToPool s p = Some (n, p') ->
  exists a, find_shape s (mAsts p') = Some a /\ mId a = n.
Proof.
  unfold addAstToPool. intros Hadd.
  destruct (find_shape s (mAsts p)) as [b|] eqn:Es.
  - inversion Hadd; subst. eauto.
  - destruct (find_shape (negated (mIdAllocator p)) _) eqn:Eneg; [discriminate|].
    inversion Hadd; subst; clear Hadd. simpl mAsts.
    rewrite find_shape_cons in Eneg. simpl shape in Eneg.
    rewrite !find_shape_cons. simpl shape.
    repeat case_bool_decide; try congruence; eauto.
Qed.

Lemma addAstToPool_found (s : Shape) (p : Pool) (a : Ast) :
  find_shape s (mAsts p) = Some a ->
  addAstToPool s p = Some (mId a, p).
Proof. unfold addAstToPool. now intros ->. Qed.

(** C1. Structural sharing: interning a shape returns the id [n] of a
    node of the table that has this shape; interning the same shape
    again, after any further internings and with the operands named in
    any order, finds that very node in the table, returns its id [n]
    again and leaves the pool as it was (the candidate is discarded). *)
Theorem addAstToPool_sharing (p p1 p2 : Pool) (t : FormulaType)
    (l1 l2 : list nat) (atom n : nat) (others : list Shape) :
  l1 ≡ₚ l2 ->
  addAstToPool (mkShape t (PointerSet.of_list l1) atom) p = Some (n, p1) ->
  addAll others p1 = Some p2 ->
  exists a,
    mId a = n
    /\ shape a = mkShape t (PointerSet.of_list l1) atom
    /\ a ∈ mAsts p1
    /\ a ∈ mAsts p2
    /\ find_shape (mkShape t (PointerSet.of_list l2) atom) (mAsts p2) = Some a
    /\ addAstToPool (mkShape t (PointerSet.of_list l2) atom) p2 = Some (n, p2).
Proof.
  intros Hperm Hadd Hall.
  rewrite <- (of_list_perm _ _ Hperm).
  destruct (addAstToPool_find _ _ _ _ Hadd) as (a & Ha & <-).
  pose proof (find_shape_addAll _ _ _ _ _ Hall Ha) as Ha2.
  exists a. split; [reflexivity|].
  destruct (find_shape_elem _ _ _ Ha) as [Hin1 Hshape].
  destruct (find_shape_elem _ _ _ Ha2) as [Hin2 _].
  repeat split; try assumption.
  now apply addAstToPool_found.
Qed.

(** AND(a,b,c) and AND(c,b,a) over three fresh variables, with another
    node interned in between. *)
Lemma addAstToPool_sharing_witness :
  exists p1 p2,
    addAstToPool (mkShape AND (PointerSet.of_list [3; 5; 7]) 0)
      Sample.three_variables = Some (9, p1)
    /\ addAll [mkShape OR [3; 5] 0] p1 = Some p2
    /\ exists a,
         mId a = 9
         /\ shape a = mkShape AND (PointerSet.of_list [3; 5; 7]) 0
         /\ a ∈ mAsts p1
         /\ a ∈ mAsts p2
         /\ find_shape (mkShape AND (PointerSet.of_list [7; 5; 3]) 0)
              (mAsts p2) = Some a
         /\ addAstToPool (mkShape AND (PointerSet.of_list [7; 5; 3]) 0) p2
            = Some (9, p2).
Proof.
  eexists _, _.
  split; [vm_compute; reflexivity|]. split; [vm_compute; reflexivity|].
  eapply (addAstToPool_sharing Sample.three_variables _ _ AND [3; 5; 7] [7; 5; 3] 0 9
            [mkShape OR [3; 5] 0]); [|vm_compute; reflexivity..].
  change [7; 5; 3] with (reverse [3; 5; 7]).
  symmetry. apply reverse_Permutation.
Defined.

(** ** Invariants of the pools that can arise *)

Lemma invariant_new_pool : invariant init.
Proof.
  split; try reflexivity; simpl.
  - repeat constructor.
  - repeat constructor.
  - intros i Hi. unfold deref.
    destruct i as [|[|[|i]]]; simpl; eauto; lia.
Qed.

Lemma find_shape_None (s : Shape) (l : list Ast) :
  Forall (fun a => shape a <> s) l -> find_shape s l = None.
Proof.
  induction 1 as [|a l Ha _ IH]; [reflexivity|].
  rewrite find_shape_cons. now case_bool_decide.
Qed.

(** The negation of the node about to be published is not in the table:
    no published node has the new id among its sub-asts. *)
Lemma negated_fresh (p : Pool) (s : Shape) :
  invariant p -> candidate p s ->
  find_shape (negated (mIdAllocator p))
    (mkAst (mIdAllocator p) s :: mAsts p) = None.
Proof.
  intros Hinv Hcand. apply find_shape_None.
  assert (Hno : forall sh,
            Forall (fun i => 0 < i < mIdAllocator p) (sSubasts sh) ->
            sh <> negated (mIdAllocator p)).
  { intros sh Hsub ->. inversion Hsub; subst. lia. }
  constructor; [now apply Hno|].
  eapply Forall_impl; [apply (inv_subasts _ Hinv)|].
  intros a Ha. now apply Hno.
Qed.

Lemma find_id_old (i k : nat) (l : list Ast) (a : Ast) :
  i < k -> mId a >= k ->
  List.find (fun a => mId a =? i) (a :: l) = List.find (fun a => mId a =? i) l.
Proof.
  intros Hi Ha. simpl. destruct (Nat.eqb_spec (mId a) i); [lia|reflexivity].
Qed.

Lemma invariant_interned (p p' : Pool) (s : Shape) (n : nat) :
  invariant p -> candidate p s ->
  addAstToPool s p = Some (n, p') ->
  mIdAllocator p <= mIdAllocator p' -> invariant p'.
Proof.
  intros Hinv Hcand Hadd Hle.
  apply addAstToPool_in_range in Hadd;
    [|pose proof (inv_alloc _ Hinv); lia|exact Hle].
  clear Hle. revert Hadd.
  destruct (find_shape s (mAsts p)); [now intros [= _ <-]|]. cbv zeta.
  rewrite negated_fresh by assumption. intros [= _ <-].
  destruct Hinv as [Ht Hf Ha Hids Hsub Hdense Hdt Hdf].
  split; simpl; try assumption; try lia.
  - repeat constructor; simpl; try lia.
    eapply Forall_impl; [exact Hids|]. simpl. lia.
  - constructor; [|constructor]; simpl.
    + unfold subasts. simpl. repeat constructor; lia.
    + unfold subasts; simpl.
      eapply Forall_impl; [exact Hcand|]. simpl. lia.
    + eapply Forall_impl; [exact Hsub|]. simpl. intros a Hall.
      eapply Forall_impl; [exact Hall|]. simpl. lia.
  - intros i Hi. unfold deref. cbn [mAsts List.find mId].
    destruct (Nat.eqb_spec (S (mIdAllocator p)) i); [eauto|].
    destruct (Nat.eqb_spec (mIdAllocator p) i); [eauto|].
    apply Hdense. lia.
  - unfold deref in *. simpl mAsts.
    rewrite !(find_id_old 1 (mIdAllocator p)) by (simpl; lia). exact Hdt.
  - unfold deref in *. simpl mAsts.
    rewrite !(find_id_old 2 (mIdAllocator p)) by (simpl; lia). exact Hdf.
Qed.

Lemma reachable_invariant (p : Pool) : reachable p -> invariant p.
Proof.
  induction 1; eauto using invariant_new_pool, invariant_interned.
Qed.

(** C2. Id adjacency: a candidate over published nodes that is not yet in
    the table is published under the next id [k] of the allocator, and its
    negation [NOT k] is published with it under the id that follows [k]
    in the arithmetic of [unsigned]; the allocator moves on by two. While
    the allocator has room for the two ids, these are [k] and [k + 1],
    the allocator goes up to [k + 2], and the pool is again one of those
    that interning leads to. *)
Theorem addAstToPool_adjacent (p : Pool) (s : Shape) :
  reachable p -> candidate p s ->
  find_shape s (mAsts p) = None ->
  let k := mIdAllocator p in
  exists p',
    addAstToPool s p = Some (k, p')
    /\ deref p' k = Some (mkAst k s)
    /\ find_shape (negated k) (mAsts p')
       = Some (mkAst (increment k) (negated k))
    /\ deref p' (increment k) = Some (mkAst (increment k) (negated k))
    /\ mIdAllocator p' = increment (increment k)
    /\ (has_room p ->
        increment k = S k /\ mIdAllocator p' = S (S k) /\ reachable p').
Proof.
  intros Hreach Hcand Hnew k. subst k.
  pose proof (reachable_invariant _ Hreach) as Hinv.
  assert (Hadd : addAstToPool s p
                 = Some (mIdAllocator p,
                         {| mIdAllocator := increment (increment (mIdAllocator p));
                            mpTrue := mpTrue p;
                            mpFalse := mpFalse p;
                            mAsts := mkAst (increment (mIdAllocator p))
                                       (negated (mIdAllocator p))
                                     :: mkAst (mIdAllocator p) s :: mAsts p |})).
  { unfold addAstToPool. now rewrite Hnew, negated_fresh by assumption. }
  eexists. split; [exact Hadd|].
  unfold deref. cbn [mAsts mIdAllocator]. rewrite find_shape_cons.
  cbn [List.find mId shape].
  rewrite (proj2 (Nat.eqb_neq _ _) (increment_other (mIdAllocator p))).
  rewrite !Nat.eqb_refl.
  rewrite bool_decide_eq_true_2 by reflexivity.
  repeat split.
  - now apply has_room_increment.
  - destruct (has_room_increment p H) as [E1 E2]. now rewrite E1, E2.
  - eapply reachable_add; [exact Hreach|exact Hcand|exact Hadd|].
    destruct (has_room_increment p H) as [E1 E2].
    cbn [mIdAllocator]. rewrite E1, E2. lia.
Qed.

(** The first variable of a new pool gets id 3, its negation id 4, and
    the allocator goes from 3 to 5. *)
Lemma addAstToPool_adjacent_witness :
  has_room init
  /\ exists p',
       addAstToPool (mkShape BOOL [] 1) init = Some (3, p')
       /\ deref p' 3 = Some (mkAst 3 (mkShape BOOL [] 1))
       /\ find_shape (negated 3) (mAsts p') = Some (mkAst 4 (negated 3))
       /\ deref p' 4 = Some (mkAst 4 (negated 3))
       /\ mIdAllocator p' = 5
       /\ (has_room init -> 4 = 4 /\ mIdAllocator p' = 5 /\ reachable p').
Proof.
  split; [unfold has_room, UINT_MAX; simpl; lia|].
  apply (addAstToPool_adjacent init (mkShape BOOL [] 1)).
  - apply reachable_init.
  - constructor.
  - reflexivity.
Defined.

(** At the end of the id space the pair is no longer adjacent as
    numbers: the negation of node [UINT_MAX] gets id 0 and the
    allocator goes on with 1. *)
Lemma addAstToPool_wraps (p : Pool) (s : Shape) :
  N.of_nat (mIdAllocator p) = UINT_MAX ->
  find_shape s (mAsts p) = None ->
  find_shape (negated (mIdAllocator p)) (mkAst (mIdAllocator p) s :: mAsts p)
  = None ->
  exists asts,
    addAstToPool s p
    = Some (mIdAllocator p, mkPool 1 (mpTrue p) (mpFalse p) asts)
    /\ head asts = Some (mkAst 0 (negated (mIdAllocator p))).
Proof.
  intros Hmax Hnew Hneg. unfold addAstToPool. rewrite Hnew. cbv zeta.
  rewrite Hneg. destruct (increment_wraps _ Hmax) as [-> ->].
  eexists. split; reflexivity.
Qed.

(** ** Pointer sets *)

Lemma elem_of_insert (x y : nat) (s : list nat) :
  x ∈ PointerSet.insert y s <-> x = y \/ x ∈ s.
Proof.
  induction s as [|z s IH]; simpl.
  - rewrite list_elem_of_singleton. split; [auto|].
    intros [E|E]; [assumption|now apply elem_of_nil in E].
  - destruct (Nat.ltb_spec y z); [apply elem_of_cons|].
    destruct (Nat.eqb_spec y z) as [->|Hne].
    + split; [auto|]. intros [->|E]; [apply list_elem_of_here|assumption].
    + rewrite !elem_of_cons, IH. tauto.
Qed.

Lemma Forall_insert (P : nat -> Prop) (y : nat) (s : list nat) :
  P y -> Forall P s -> Forall P (PointerSet.insert y s).
Proof.
  intros Hy Hs. apply Forall_forall. intros x Hx.
  apply elem_of_insert in Hx as [->|Hx]; [assumption|].
  now apply (proj1 (Forall_forall _ _) Hs).
Qed.

Lemma ascending_insert (y : nat) (s : list nat) :
  PointerSet.ascending s -> PointerSet.ascending (PointerSet.insert y s).
Proof.
  induction s as [|z s IH]; simpl.
  - intros _. split; constructor.
  - intros [Hz Hs].
    destruct (Nat.ltb_spec y z).
    + simpl. split; [|split; assumption].
      constructor; [assumption|].
      eapply Forall_impl; [exact Hz|]. simpl. lia.
    + destruct (Nat.eqb_spec y z); [simpl; auto|].
      simpl. split; [|auto]. apply Forall_insert; [lia|assumption].
Qed.

Lemma elem_of_insert_range (x : nat) (ys s : list nat) :
  x ∈ PointerSet.insert_range ys s <-> x ∈ ys \/ x ∈ s.
Proof.
  unfold PointerSet.insert_range. induction ys as [|y ys IH]; simpl.
  - split; [auto|]. intros [E|E]; [now apply elem_of_nil in E|assumption].
  - rewrite elem_of_insert, IH, elem_of_cons. tauto.
Qed.

Lemma ascending_insert_range (ys s : list nat) :
  PointerSet.ascending s ->
  PointerSet.ascending (PointerSet.insert_range ys s).
Proof.
  intros Hs. unfold PointerSet.insert_range.
  induction ys as [|y ys IH]; simpl; [assumption|].
  now apply ascending_insert.
Qed.

Lemma elem_of_erase (x y : nat) (s : list nat) :
  PointerSet.ascending s ->
  x ∈ PointerSet.erase y s <-> x ∈ s /\ x <> y.
Proof.
  induction s as [|z s IH]; simpl.
  - intros _. split; [intros E|intros [E _]]; now apply elem_of_nil in E.
  - intros [Hz Hs]. destruct (Nat.eqb_spec y z) as [->|Hne].
    + rewrite elem_of_cons. split.
      * intros Hx. split; [auto|].
        apply (proj1 (Forall_forall _ _) Hz) in Hx. lia.
      * intros [[->|Hx] Hxz]; [congruence|assumption].
    + rewrite !elem_of_cons, IH by assumption. split.
      * intros [->|[Hx Hxy]]; [split; [auto|congruence]|tauto].
      * intros [[->|Hx] Hxy]; tauto.
Qed.

Lemma ascending_erase (y : nat) (s : list nat) :
  PointerSet.ascending s -> PointerSet.ascending (PointerSet.erase y s).
Proof.
  induction s as [|z s IH]; simpl; [auto|].
  intros [Hz Hs]. destruct (Nat.eqb_spec y z); [assumption|].
  simpl. split; [|auto].
  apply Forall_forall. intros x Hx.
  apply elem_of_erase in Hx as [Hx _]; [|assumption].
  now apply (proj1 (Forall_forall _ _) Hz).
Qed.

(** [++it] reaches the least element above the one it leaves. *)
Lemma next_spec (i b : nat) (s : list nat) :
  PointerSet.ascending s -> b ∈ s -> i < b ->
  exists j, PointerSet.next i s = Some j /\ i < j <= b /\ j ∈ s.
Proof.
  induction s as [|z s IH]; simpl.
  - intros _ Hb. now apply elem_of_nil in Hb.
  - intros [Hz Hs] Hb Hib.
    destruct (Nat.ltb_spec i z) as [Hiz|Hiz].
    + exists z. split; [reflexivity|]. split; [|apply list_elem_of_here].
      apply elem_of_cons in Hb as [->|Hb]; [lia|].
      apply (proj1 (Forall_forall _ _) Hz) in Hb. lia.
    + apply elem_of_cons in Hb as [->|Hb]; [lia|].
      destruct (IH Hs Hb Hib) as (j & Hj & Hrange & Hin).
      exists j. split; [assumption|]. split; [assumption|].
      now apply list_elem_of_further.
Qed.

Lemma begin_spec (b : nat) (s : list nat) :
  PointerSet.ascending s -> b ∈ s ->
  exists j, PointerSet.begin s = Some j /\ j <= b /\ j ∈ s.
Proof.
  destruct s as [|z s]; simpl.
  - intros _ Hb. now apply elem_of_nil in Hb.
  - intros [Hz _] Hb. exists z. split; [reflexivity|].
    split; [|apply list_elem_of_here].
    apply elem_of_cons in Hb as [->|Hb]; [lia|].
    apply (proj1 (Forall_forall _ _) Hz) in Hb. lia.
Qed.

(** ** Absorption *)

Lemma deref_elem (p : Pool) (i : nat) (a : Ast) :
  deref p i = Some a -> a ∈ mAsts p.
Proof.
  unfold deref. intros Hfind. apply List.find_some in Hfind as [Hin _].
  now apply list_elem_of_In.
Qed.

(** The scan over a set that holds an operand [a] and, right after it,
    its negation: if the scan does not replace [a] by its own operands,
    it finds the pair (or an earlier one) and returns the constant. *)
Lemma scan_absorbs (p : Pool) (_type : FormulaType) (a : nat) (A B : Ast) :
  invariant p ->
  _type = AND \/ _type = OR ->
  deref p a = Some A -> getType A <> _type ->
  deref p (S a) = Some B ->
  (getType B = NOT /\ subasts B = [a])
  \/ (a = mpTrue p /\ S a = mpFalse p) ->
  forall (fuel : nat) (s : list nat) (i : nat),
    a - i < fuel -> i <= a ->
    PointerSet.ascending s ->
    Forall (fun x => 0 < x < mIdAllocator p) s ->
    i ∈ s -> a ∈ s -> S a ∈ s ->
    scan fuel p _type s (Some i)
    = Some (Return (if bool_decide (_type = AND) then mpFalse p else mpTrue p)).
Proof.
  intros Hinv Hty HA HtyA HB Hneg.
  induction fuel as [|fuel IH]; intros s i Hfuel Hia Hasc Hrange Hi Ha HSa;
    [lia|].
  cbn [scan].
  destruct (inv_dense _ Hinv i) as [Ai HAi].
  { now apply (proj1 (Forall_forall _ _) Hrange). }
  rewrite HAi.
  destruct (bool_decide (getType Ai = _type)
            && (bool_decide (_type = AND) || bool_decide (_type = OR)))
    eqn:Hflat.
  - assert (Hne : i <> a).
    { intros ->. rewrite HA in HAi. inversion HAi; subst Ai.
      apply andb_true_iff in Hflat as [Hsame _].
      now apply bool_decide_eq_true in Hsame. }
    set (s1 := PointerSet.insert_range (subasts Ai) s).
    assert (Hasc1 : PointerSet.ascending s1)
      by now apply ascending_insert_range.
    destruct (next_spec i a s1) as (j & Hj & Hr & Hjin);
      [assumption|apply elem_of_insert_range; auto|lia|].
    rewrite Hj. apply IH.
    + lia.
    + lia.
    + now apply ascending_erase.
    + apply Forall_forall. intros x Hx.
      apply elem_of_erase in Hx as [Hx _]; [|assumption].
      apply elem_of_insert_range in Hx as [Hx|Hx].
      * pose proof (inv_subasts _ Hinv) as Hsub.
        pose proof (proj1 (Forall_forall _ _) Hsub Ai
                      (deref_elem _ _ _ HAi)) as HsubAi.
        now apply (proj1 (Forall_forall _ _) HsubAi).
      * now apply (proj1 (Forall_forall _ _) Hrange).
    + apply elem_of_erase; [assumption|]. split; [assumption|lia].
    + apply elem_of_erase; [assumption|].
      split; [apply elem_of_insert_range; auto|congruence].
    + apply elem_of_erase; [assumption|].
      split; [apply elem_of_insert_range; auto|lia].
  - destruct (decide (i = a)) as [->|Hne].
    + destruct (next_spec a (S a) s) as (j & Hj & Hr & _);
        [assumption|assumption|lia|].
      assert (j = S a) as -> by lia.
      rewrite Hj, HB.
      replace ((a =? mpTrue p) && (S a =? mpFalse p)
               || bool_decide (getType B = NOT) && bool_decide (subasts B = [a]))
        with true.
      2:{ destruct Hneg as [[HBnot HBsub]|[Etrue Efalse]].
          - rewrite HBnot, HBsub.
            rewrite !bool_decide_eq_true_2 by reflexivity.
            now rewrite orb_true_r.
          - rewrite <- Etrue, <- Efalse. now rewrite !Nat.eqb_refl. }
      destruct Hty as [->| ->]; reflexivity.
    + destruct (next_spec i a s) as (j & Hj & Hr & Hjin);
        [assumption|assumption|lia|].
      rewrite Hj.
      destruct (inv_dense _ Hinv j) as [Bj HBj].
      { now apply (proj1 (Forall_forall _ _) Hrange). }
      rewrite HBj.
      destruct ((i =? mpTrue p) && (j =? mpFalse p) || _).
      * destruct Hty as [->| ->]; reflexivity.
      * apply IH; try assumption; lia.
Qed.

(** ** The n-ary constructor *)

Section CreateAstProofs.
Variable SIMPLIFY_AST : bool.
Variable newAstWithOneSubast :
  FormulaType -> nat -> Pool -> option (nat * Pool).

(** C6. Empty operand sets: a call with no operand returns FALSE for AND
    as for OR, while AND over the set that only holds TRUE returns TRUE and
    OR over the set that only holds FALSE returns FALSE (SIMPLIFY_AST
    defined). *)
Theorem createAst_empty (p : Pool) (fuel : nat) :
  reachable p ->
  createAst SIMPLIFY_AST newAstWithOneSubast fuel AND [] p
    = Some (mpFalse p, p)
  /\ createAst SIMPLIFY_AST newAstWithOneSubast fuel OR [] p
    = Some (mpFalse p, p)
  /\ createAst true newAstWithOneSubast (S fuel) AND [mpTrue p] p
    = Some (mpTrue p, p)
  /\ createAst true newAstWithOneSubast (S fuel) OR [mpFalse p] p
    = Some (mpFalse p, p)
  /\ mpTrue p <> mpFalse p.
Proof.
  intros Hreach. apply reachable_invariant in Hreach.
  destruct Hreach as [Ht Hf _ _ _ _ Hdt Hdf].
  repeat split.
  - unfold createAst. simpl. now destruct fuel.
  - unfold createAst. simpl. now destruct fuel.
  - unfold createAst, PointerSet.begin. cbn [head scan].
    rewrite Ht, Hdt. unfold getType. cbn [shape sType].
    repeat (case_bool_decide; try congruence). simpl.
    replace (scan fuel p AND [1] None) with (Some (Continue [1]))
      by now destruct fuel.
    simpl. rewrite ?Ht, ?Hf. simpl.
    repeat (case_bool_decide; try congruence); reflexivity.
  - unfold createAst, PointerSet.begin. cbn [head scan].
    rewrite Hf, Hdf. unfold getType. cbn [shape sType].
    repeat (case_bool_decide; try congruence). simpl.
    replace (scan fuel p OR [2] None) with (Some (Continue [2]))
      by now destruct fuel.
    simpl. rewrite ?Ht, ?Hf. simpl.
    repeat (case_bool_decide; try congruence); reflexivity.
  - lia.
Qed.

(** C5, as the code has it. Let [a] be a node and [S a], the node with
    the next id, its negation: the NOT node over [a], or FALSE for
    [a] = TRUE. AND over a set of published nodes that holds both is
    FALSE, and OR over such a set is TRUE, provided [a] is not itself an
    AND (OR) node, which the scan would replace by its operands ([S a],
    a NOT node or FALSE, never is). The negation is the next element of
    the set, and the scan compares every element it keeps with the next
    one. *)
Theorem createAst_absorbs (p : Pool) (_type : FormulaType) (a : nat) (A B : Ast)
    (s : list nat) (fuel : nat) :
  reachable p ->
  _type = AND \/ _type = OR ->
  deref p a = Some A -> getType A <> _type ->
  deref p (S a) = Some B ->
  (getType B = NOT /\ subasts B = [a])
  \/ (a = mpTrue p /\ S a = mpFalse p) ->
  PointerSet.ascending s ->
  Forall (fun x => 0 < x < mIdAllocator p) s ->
  a ∈ s -> S a ∈ s ->
  a < fuel ->
  createAst SIMPLIFY_AST newAstWithOneSubast fuel _type s p
  = Some (if bool_decide (_type = AND) then mpFalse p else mpTrue p, p).
Proof.
  intros Hreach Hty HA HtyA HB Hneg Hasc Hrange Ha HSa Hfuel.
  apply reachable_invariant in Hreach.
  unfold createAst.
  replace (bool_decide (_type = AND) || bool_decide (_type = OR)
           || bool_decide (_type = XOR) || bool_decide (_type = IFF))
    with true by (destruct Hty as [->| ->]; reflexivity).
  destruct (begin_spec a s Hasc Ha) as (i & Hi & Hle & Hin).
  rewrite Hi.
  rewrite (scan_absorbs p _type a A B Hreach Hty HA HtyA HB Hneg
             fuel s i); try assumption; [reflexivity|lia].
Qed.

End CreateAstProofs.

Lemma createAst_empty_witness :
  createAst true Sample.oneSubast 0 AND [] init = Some (2, init)
  /\ createAst true Sample.oneSubast 0 OR [] init = Some (2, init)
  /\ createAst true Sample.oneSubast 1 AND [1] init = Some (1, init)
  /\ createAst true Sample.oneSubast 1 OR [2] init = Some (2, init)
  /\ 1 <> 2.
Proof.
  apply (createAst_empty true Sample.oneSubast init 0), reachable_init.
Defined.

Lemma reachable_conjunction : reachable Sample.conjunction.
Proof.
  pose (vars := [ mkAst 4 (negated 3); mkAst 3 (mkShape BOOL [] 1);
                  mkAst 2 (mkShape FALSE [] 0);
                  mkAst 1 (mkShape TRUE [] 0) ]).
  apply (reachable_add (mkShape AND [3; 5] 0)
           (mkPool 7 1 2 (mkAst 6 (negated 5)
                          :: mkAst 5 (mkShape BOOL [] 2) :: vars)) 7);
    [|repeat constructor; lia|reflexivity|simpl; lia].
  apply (reachable_add (mkShape BOOL [] 2) (mkPool 5 1 2 vars) 5);
    [|repeat constructor; lia|reflexivity|simpl; lia].
  apply (reachable_add (mkShape BOOL [] 1) init 3);
    [|repeat constructor; lia|reflexivity|simpl; lia].
  apply reachable_init.
Qed.

(** AND over { AND(p, q), NOT AND(p, q) }: the scan replaces the first
    operand by [p] and [q] and moves on to the second, which it compares
    with nothing; the node AND(p, q, NOT AND(p, q)) is published. *)
Lemma createAst_nested_conjunction
    (simplify : bool) (one : FormulaType -> nat -> Pool -> option (nat * Pool))
    (fuel : nat) :
  exists p',
    createAst simplify one (S (S fuel)) AND [7; 8] Sample.conjunction
    = Some (9, p')
    /\ deref p' 9 = Some (mkAst 9 (mkShape AND [3; 5; 8] 0))
    /\ mpFalse p' = 2.
Proof.
  eexists. split.
  - destruct simplify, fuel; reflexivity.
  - split; reflexivity.
Qed.

(** C5 as stated fails: in [Sample.conjunction] node 7 is AND(p, q) and
    node 8 its negation, and AND over { 7, 8 } is not FALSE, whatever the
    fuel. *)
Lemma absorption_fails_when_flattened :
  ~ (forall (p : Pool) (a : nat) (B : Ast) (s : list nat),
       reachable p ->
       deref p (S a) = Some B ->
       (getType B = NOT /\ subasts B = [a])
       \/ (a = mpTrue p /\ S a = mpFalse p) ->
       PointerSet.ascending s ->
       Forall (fun x => 0 < x < mIdAllocator p) s ->
       a ∈ s -> S a ∈ s ->
       exists fuel,
         createAst true Sample.oneSubast fuel AND s p = Some (mpFalse p, p)).
Proof.
  intros Hall.
  assert (Hasc : PointerSet.ascending [7; 8]) by (simpl; repeat constructor).
  assert (Hrange : Forall (fun x => 0 < x < mIdAllocator Sample.conjunction)
                     [7; 8]) by (repeat constructor).
  assert (H7 : 7 ∈ [7; 8]) by repeat constructor.
  assert (H8 : 8 ∈ [7; 8]) by repeat constructor.
  destruct (Hall Sample.conjunction 7 (mkAst 8 (negated 7)) [7; 8]
              reachable_conjunction eq_refl (or_introl (conj eq_refl eq_refl))
              Hasc Hrange H7 H8) as [fuel Hfuel].
  destruct fuel as [|[|fuel]]; [discriminate Hfuel..|].
  destruct (createAst_nested_conjunction true Sample.oneSubast fuel)
    as (p' & Hnested & _).
  rewrite Hnested in Hfuel. discriminate Hfuel.
Qed.

(** AND over { p, NOT p, AND(p, q) } in [Sample.conjunction]. *)
Lemma createAst_absorbs_witness :
  createAst true Sample.oneSubast 4 AND [3; 4; 7] Sample.conjunction
  = Some (2, Sample.conjunction).
Proof.
  apply (createAst_absorbs true Sample.oneSubast Sample.conjunction AND 3
           (mkAst 3 (mkShape BOOL [] 1)) (mkAst 4 (negated 3)) [3; 4; 7] 4).
  - apply reachable_conjunction.
  - now left.
  - reflexivity.
  - discriminate.
  - reflexivity.
  - left. split; reflexivity.
  - simpl. repeat constructor.
  - repeat constructor.
  - repeat constructor.
  - repeat constructor.
  - lia.
Defined.

End AstPoolProofs.

(** * Properties of [FormulaPool] *)
Module FormulaPoolProofs.
Import FormulaPool.

Section Proofs.
Context {C : Type} `{ConstraintOps C}.
Implicit Types (p : Pool C) (t e : FormulaContent C).

(** ** Usage counting *)

Lemma freeTseitinVariable_none p (f : nat) :
  no_tseitin p f -> freeTseitinVariable f p = Some (false, p).
Proof. intros [H1 H2]. unfold freeTseitinVariable. now rewrite H1, H2. Qed.

Lemma reg_spec p (f tmp : nat) e t :
  heap p !! f = Some e ->
  getBaseFormula p f = Some tmp ->
  heap p !! tmp = Some t ->
  (mUsages t < size_t_max)%N ->
  reg f p
  = Some (set_heap
            (<[tmp := set_usages
                        (if (mUsages t =? 0)%N && bool_decide (mType e = CONSTRAINT)
                         then mUsages t + 2 else mUsages t + 1)%N t]> (heap p)) p).
Proof.
  intros He Hb Ht Hlt. unfold reg. rewrite He, Hb, Ht.
  apply N.ltb_lt in Hlt. rewrite Hlt.
  destruct (N.eqb_spec (mUsages t) 0) as [E|E].
  - rewrite E. simpl. now destruct (bool_decide _).
  - destruct (N.eqb_spec (mUsages t + 1) 1); [lia|reflexivity].
Qed.

(** Above or below the threshold [free] only counts down. *)
Lemma free_counts_down p (f tmp : nat) t :
  getBaseFormula p f = Some tmp ->
  heap p !! tmp = Some t ->
  (0 < mUsages t)%N -> mUsages t <> 2%N ->
  free f p = Some (released p tmp t).
Proof.
  intros Hb Ht Hpos Hne. unfold free. rewrite Hb, Ht.
  apply N.ltb_lt in Hpos. rewrite Hpos.
  destruct (N.eqb_spec (mUsages t - 1) 1); [lia|reflexivity].
Qed.

(** At the threshold, a node without Tseitin bookkeeping is destroyed
    with its negation, after the table has dropped it. *)
Lemma free_destroys p (f tmp : nat) t :
  getBaseFormula p f = Some tmp ->
  heap p !! tmp = Some t ->
  mUsages t = 2%N ->
  no_tseitin p tmp -> no_tseitin p (mNegation t) ->
  free f p = destroy tmp (released p tmp t).
Proof.
  intros Hb Ht Hu Htm Hneg. unfold free. rewrite Hb, Ht.
  fold (released p tmp t). rewrite Hu.
  change (0 <? 2)%N with true. change (2 - 1 =? 1)%N with true. cbv iota.
  rewrite (freeTseitinVariable_none (released p tmp t) tmp) by exact Htm.
  unfold released at 1. simpl heap. rewrite lookup_insert_eq.
  simpl mNegation.
  rewrite (freeTseitinVariable_none (released p tmp t) _) by exact Hneg.
  reflexivity.
Qed.

Lemma destroy_spec p (tmp : nat) t :
  heap p !! tmp = Some t ->
  exists p',
    destroy tmp p = Some p'
    /\ heap p' !! tmp = None
    /\ heap p' !! mNegation t = None
    /\ (tmp ∉ mPool p')
    /\ mPool p' = filter (fun x => x <> tmp) (mPool p)
    /\ heap p' = delete tmp (delete (mNegation t) (heap p)).
Proof.
  intros Ht. unfold destroy. rewrite Ht. eexists. split; [reflexivity|].
  simpl. repeat split.
  - apply lookup_delete_eq.
  - destruct (decide (tmp = mNegation t)) as [<-|Hne].
    + apply lookup_delete_eq.
    + rewrite lookup_delete_ne by exact Hne. apply lookup_delete_eq.
  - rewrite list_elem_of_filter. tauto.
Qed.

(** ** Interning *)

(** The pool in which [add] has published a new node and its negation. *)
Lemma add_found (ty : FormulaType) (pl : Payload C) p (e : nat) :
  find_content ty pl p = Some e -> add ty pl p = Some (e, p).
Proof. unfold add. now intros ->. Qed.

Lemma add_new (ty : FormulaType) (pl : Payload C) p :
  find_content ty pl p = None ->
  ty <> CONSTRAINT -> ty <> NOT ->
  let k := mIdAllocator p in
  add ty pl p
  = Some (k, mkPool (S (S k)) (mpTrue p) (mpFalse p) (k :: mPool p)
               (mTseitinVars p) (mTseitinVarToFormula p)
               (<[S k := mkContent (S k) NOT (Subformula k) k 0 0]>
                  (<[k := mkContent k ty pl (S k) 1 0]> (heap p)))
               (mFreshVariable p)).
Proof.
  intros Hnew Hc Hn k. unfold add. rewrite Hnew. fold k.
  unfold createNegatedContent. simpl heap. rewrite lookup_insert_eq.
  simpl mType. rewrite bool_decide_eq_false_2 by exact Hc.
  unfold reg, getBaseFormula. simpl heap. rewrite !lookup_insert_eq.
  simpl mType. rewrite !bool_decide_eq_false_2 by assumption.
  rewrite lookup_insert_eq. simpl.
  unfold set_heap, set_usages. simpl. now rewrite insert_insert_eq.
Qed.

Lemma add_new_constraint (c : C) p :
  find_content CONSTRAINT (Constraint_ c) p = None ->
  let k := mIdAllocator p in
  add CONSTRAINT (Constraint_ c) p
  = Some (k, mkPool (S (S k)) (mpTrue p) (mpFalse p) (k :: mPool p)
               (mTseitinVars p) (mTseitinVarToFormula p)
               (<[S k := mkContent (S k) CONSTRAINT (Constraint_ (negation c)) k 0 0]>
                  (<[k := mkContent k CONSTRAINT (Constraint_ c) (S k) 0 0]> (heap p)))
               (mFreshVariable p)).
Proof.
  intros Hnew k. unfold add. rewrite Hnew. fold k.
  unfold createNegatedContent. simpl heap. rewrite lookup_insert_eq.
  simpl mType. rewrite bool_decide_eq_true_2 by reflexivity. reflexivity.
Qed.

(** C10. The first registration on a base node whose counter is 0 sets
    the counter to 2 when the registered formula is a CONSTRAINT and to 1
    otherwise; [free] compares the decremented counter with 1: reaching 0
    deletes nothing, reaching 1 deletes the pair (no Tseitin bookkeeping
    being involved). *)
Theorem reg_free_threshold p (f tmp : nat) e t :
  heap p !! f = Some e ->
  getBaseFormula p f = Some tmp ->
  heap p !! tmp = Some t ->
  (mUsages t = 0%N ->
   exists p' t',
     reg f p = Some p' /\ heap p' !! tmp = Some t'
     /\ mUsages t' = if bool_decide (mType e = CONSTRAINT) then 2%N else 1%N)
  /\ (mUsages t = 1%N ->
      exists p' t',
        free f p = Some p' /\ heap p' !! tmp = Some t'
        /\ mUsages t' = 0%N /\ mPool p' = mPool p)
  /\ (mUsages t = 2%N ->
      no_tseitin p tmp -> no_tseitin p (mNegation t) ->
      exists p',
        free f p = Some p' /\ heap p' !! tmp = None
        /\ heap p' !! mNegation t = None /\ (tmp ∉ mPool p')).
Proof.
  intros He Hb Ht. repeat split.
  - intros Hu.
    rewrite (reg_spec p f tmp e t He Hb Ht) by (rewrite Hu; reflexivity).
    do 2 eexists. split; [reflexivity|]. simpl heap.
    rewrite lookup_insert_eq. split; [reflexivity|].
    rewrite Hu. simpl. now destruct (bool_decide _).
  - intros Hu.
    rewrite (free_counts_down p f tmp t Hb Ht) by (rewrite Hu; lia).
    do 2 eexists. split; [reflexivity|]. unfold released. simpl heap.
    rewrite lookup_insert_eq. split; [reflexivity|].
    simpl. now rewrite Hu.
  - intros Hu Htm Hneg.
    rewrite (free_destroys p f tmp t Hb Ht Hu Htm Hneg).
    destruct (destroy_spec (released p tmp t) tmp (set_usages (mUsages t - 1) t))
      as (p' & Hd & H1 & H2 & H3 & _).
    { unfold released. simpl heap. apply lookup_insert_eq. }
    exists p'. auto.
Qed.

(** ** Tseitin bookkeeping *)

Lemma same_nodes_refl p : same_nodes p p.
Proof. repeat split. Qed.

Lemma same_nodes_trans p1 p2 p3 :
  same_nodes p1 p2 -> same_nodes p2 p3 -> same_nodes p1 p3.
Proof.
  unfold same_nodes. intros (?&?&?&?&?&?) (?&?&?&?&?&?).
  repeat split; congruence.
Qed.

(** A handle on a node that is its own base: one more use, nothing else. *)
Lemma handle_own_base p (x : nat) c :
  heap p !! x = Some c ->
  mType c <> NOT -> mType c <> CONSTRAINT ->
  (0 < mUsages c < size_t_max)%N ->
  handle x p
  = Some (x, set_heap (<[x := set_usages (mUsages c + 1) c]> (heap p)) p).
Proof.
  intros Hx Hn Hc Hu. unfold handle.
  assert (Hb : getBaseFormula p x = Some x).
  { unfold getBaseFormula. rewrite Hx.
    now rewrite !bool_decide_eq_false_2 by assumption. }
  rewrite (reg_spec p x x c c Hx Hb Hx) by lia.
  destruct (N.eqb_spec (mUsages c) 0); [lia|reflexivity].
Qed.

Lemma same_nodes_set_usages p (x : nat) c (u : N) :
  heap p !! x = Some c ->
  same_nodes p (set_heap (<[x := set_usages u c]> (heap p)) p).
Proof.
  intros Hx. repeat split. simpl.
  rewrite dom_insert_L. apply elem_of_dom_2 in Hx.
  apply subseteq_union_1_L. now apply singleton_subseteq_l.
Qed.

Lemma createTseitinVar_existing p (f tv : nat) c :
  mTseitinVars p !! f = Some tv ->
  heap p !! tv = Some c ->
  mType c <> NOT -> mType c <> CONSTRAINT ->
  (0 < mUsages c < size_t_max)%N ->
  createTseitinVar f p
  = Some (tv, set_heap (<[tv := set_usages (mUsages c + 1) c]> (heap p)) p).
Proof.
  intros Hf Hx Hn Hc Hu. unfold createTseitinVar. rewrite Hf.
  now apply handle_own_base.
Qed.

Lemma createTseitinVars_existing (n : nat) p (f tv : nat) c :
  mTseitinVars p !! f = Some tv ->
  heap p !! tv = Some c ->
  mType c <> NOT -> mType c <> CONSTRAINT ->
  (0 < mUsages c)%N -> (mUsages c + N.of_nat n <= size_t_max)%N ->
  exists p',
    createTseitinVars n f p = Some (replicate n tv, p') /\ same_nodes p p'.
Proof.
  revert p c. induction n as [|n IH]; intros p c Hf Hx Hn Hc Hpos Hu.
  - exists p. split; [reflexivity|apply same_nodes_refl].
  - simpl createTseitinVars.
    rewrite (createTseitinVar_existing p f tv c) by (try assumption; lia).
    set (p1 := set_heap _ p).
    destruct (IH p1 (set_usages (mUsages c + 1) c)) as (p' & Hrun & Hsame);
      try assumption.
    + subst p1. simpl. apply lookup_insert_eq.
    + simpl. lia.
    + simpl. lia.
    + exists p'. rewrite Hrun. split; [reflexivity|].
      eapply same_nodes_trans; [|exact Hsame].
      now apply same_nodes_set_usages.
Qed.

(** The first call for a formula: a fresh variable is interned as the
    placeholder, both maps get their entry, and the returned handle is
    the second use of the placeholder (the first is its negation's). *)
Lemma createTseitinVar_fresh p (f : nat) fc :
  heap p !! f = Some fc ->
  mTseitinVars p !! f = None ->
  find_content BOOL (Variable_ (mFreshVariable p)) p = None ->
  let k := mIdAllocator p in
  exists h c,
    createTseitinVar f p
    = Some (k, mkPool (S (S k)) (mpTrue p) (mpFalse p) (k :: mPool p)
                 (<[f := k]> (mTseitinVars p))
                 (<[k := f]> (mTseitinVarToFormula p))
                 h (S (mFreshVariable p)))
    /\ h !! k = Some c /\ mType c = BOOL /\ mUsages c = 2%N
    /\ mPayload c = Variable_ (mFreshVariable p)
    /\ (f <> k -> f <> S k -> mDifficulty c = mDifficulty fc).
Proof.
  intros Hf Hnone Hfresh k. unfold createTseitinVar. rewrite Hnone.
  unfold create_variable.
  rewrite add_new by (try discriminate; exact Hfresh).
  cbn [mIdAllocator heap mTseitinVars mTseitinVarToFormula mpTrue mpFalse
       mPool mFreshVariable]. fold k.
  assert (Hf' : exists fc', (<[S k := mkContent (S k) NOT (Subformula k) k 0 0]>
                    (<[k := mkContent k BOOL (Variable_ (mFreshVariable p)) (S k) 1 0]>
                       (heap p))) !! f = Some fc'
                    /\ (f <> k -> f <> S k -> fc' = fc)).
  { destruct (decide (f = S k)) as [->|H1].
    - rewrite lookup_insert_eq. eexists. split; [reflexivity|]. congruence.
    - rewrite lookup_insert_ne by congruence.
      destruct (decide (f = k)) as [->|H2].
      + rewrite lookup_insert_eq. eexists. split; [reflexivity|]. congruence.
      + rewrite lookup_insert_ne by congruence. eauto. }
  destruct Hf' as (fc' & -> & Hsame).
  rewrite lookup_insert_ne by lia. rewrite lookup_insert_eq.
  rewrite (handle_own_base _ k
             (set_difficulty (mDifficulty fc')
                (mkContent k BOOL (Variable_ (mFreshVariable p)) (S k) 1 0)));
    [|simpl; apply lookup_insert_eq|discriminate|discriminate
     |simpl; unfold size_t_max; lia].
  do 2 eexists. split; [reflexivity|].
  split; [apply lookup_insert_eq|].
  split; [reflexivity|]. split; [reflexivity|]. split; [reflexivity|].
  intros H1 H2. simpl. now rewrite (Hsame H1 H2).
Qed.

Lemma getTseitinVar_none p (f : nat) tt :
  mTseitinVars p !! f = None ->
  heap p !! trueFormula p = Some tt ->
  mType tt = TRUE ->
  (0 < mUsages tt < size_t_max)%N ->
  exists p', getTseitinVar f p = Some (trueFormula p, p') /\ same_nodes p p'.
Proof.
  intros Hnone Ht Hty Hu. unfold getTseitinVar. rewrite Hnone.
  rewrite (handle_own_base p _ tt Ht) by (rewrite ?Hty; done).
  eexists. split; [reflexivity|]. now apply same_nodes_set_usages.
Qed.

Lemma getTseitinVar_some p (f tv : nat) c :
  mTseitinVars p !! f = Some tv ->
  heap p !! tv = Some c ->
  mType c <> NOT -> mType c <> CONSTRAINT ->
  (0 < mUsages c < size_t_max)%N ->
  exists p', getTseitinVar f p = Some (tv, p') /\ same_nodes p p'.
Proof.
  intros Hsome Ht Hn Hc Hu. unfold getTseitinVar. rewrite Hsome.
  rewrite (handle_own_base p _ c Ht) by done.
  eexists. split; [reflexivity|]. now apply same_nodes_set_usages.
Qed.

(** ** Every call is a sequence of elementary changes *)

Section Changes.
Variable ok : C -> Prop.

Lemma same_links_set_usages (u : N) (c : FormulaContent C) :
  same_links c (set_usages u c).
Proof. repeat split. Qed.

Lemma same_links_set_difficulty (d : nat) (c : FormulaContent C) :
  same_links c (set_difficulty d c).
Proof. repeat split. Qed.

Lemma reg_change (f : nat) p p' : reg f p = Some p' -> change ok p p'.
Proof.
  unfold reg. intros Hreg.
  destruct (heap p !! f) as [e|]; [|discriminate].
  destruct (getBaseFormula p f) as [tmp|]; [|discriminate].
  destruct (heap p !! tmp) as [t|] eqn:Ht; [|discriminate].
  destruct (mUsages t <? size_t_max)%N; [|discriminate].
  inversion Hreg; subst.
  eapply change_update; [exact Ht|apply same_links_set_usages].
Qed.

Lemma handle_change (f r : nat) p p' :
  handle f p = Some (r, p') -> change ok p p'.
Proof.
  unfold handle. destruct (reg f p) as [p1|] eqn:Hreg; [|discriminate].
  intros [= _ <-]. eauto using reg_change.
Qed.

Lemma freeTseitinVariable_change (x : nat) (b : bool) p p' :
  freeTseitinVariable x p = Some (b, p') -> change ok p p'.
Proof.
  unfold freeTseitinVariable. intros Hfree.
  destruct (mTseitinVars p !! x) as [tv|].
  - destruct (heap p !! tv) as [tvc|]; [|discriminate].
    destruct (mUsages tvc =? 1)%N.
    + destruct (mTseitinVarToFormula p !! tv); [|discriminate].
      destruct (destroy tv _) as [p2|] eqn:Hd; [|discriminate].
      inversion Hfree; subst.
      eapply change_trans; [apply change_tseitin|].
      eapply change_destroy; exact Hd.
    + inversion Hfree; subst. apply change_refl.
  - destruct (mTseitinVarToFormula p !! x) as [fcont|].
    + destruct (heap p !! fcont) as [fc|]; [|discriminate].
      destruct (mUsages fc =? 1)%N.
      * destruct (getBaseFormula p fcont) as [tmp|]; [|discriminate].
        destruct (destroy tmp _) as [p2|] eqn:Hd; [|discriminate].
        inversion Hfree; subst.
        eapply change_trans; [apply change_tseitin|].
        eapply change_destroy; exact Hd.
      * inversion Hfree; subst. apply change_refl.
    + inversion Hfree; subst. apply change_refl.
Qed.

Lemma free_change (f : nat) p p' : free f p = Some p' -> change ok p p'.
Proof.
  unfold free. intros Hfree.
  destruct (getBaseFormula p f) as [tmp|]; [|discriminate].
  destruct (heap p !! tmp) as [t|] eqn:Ht; [|discriminate].
  destruct (0 <? mUsages t)%N; [|discriminate].
  eapply change_trans.
  { eapply change_update;
      [exact Ht|apply (same_links_set_usages (mUsages t - 1))]. }
  destruct (mUsages t - 1 =? 1)%N.
  - destruct (freeTseitinVariable tmp _) as [[b1 p1]|] eqn:H1; [|discriminate].
    destruct (heap p1 !! tmp) as [t1|]; [|discriminate].
    destruct (freeTseitinVariable (mNegation t1) p1) as [[b2 p2]|] eqn:H2;
      [|discriminate].
    eapply change_trans; [eapply freeTseitinVariable_change; exact H1|].
    eapply change_trans; [eapply freeTseitinVariable_change; exact H2|].
    destruct (b1 || b2).
    + inversion Hfree; subst. apply change_refl.
    + eapply change_destroy; exact Hfree.
  - inversion Hfree; subst. apply change_refl.
Qed.

Lemma add_change (ty : FormulaType) (pl : Payload C) (e : nat) p p' :
  plain ty \/ (ty = CONSTRAINT /\ exists a, pl = Constraint_ a /\ ok a) ->
  add ty pl p = Some (e, p') -> change ok p p'.
Proof.
  intros Hty Hadd.
  destruct (find_content ty pl p) as [x|] eqn:Hfind.
  - rewrite (add_found _ _ _ _ Hfind) in Hadd. inversion Hadd; subst.
    apply change_refl.
  - destruct Hty as [Hplain|(-> & a & -> & Hok)].
    + pose proof Hplain as (Hn & Hc & _ & _).
      rewrite add_new in Hadd by assumption. inversion Hadd; subst.
      apply change_publish. now constructor.
    + rewrite add_new_constraint in Hadd by assumption.
      inversion Hadd; subst.
      apply change_publish. now constructor.
Qed.

Lemma plain_BOOL : plain BOOL.
Proof. repeat split; discriminate. Qed.

Lemma createTseitinVar_change (f r : nat) p p' :
  createTseitinVar f p = Some (r, p') -> change ok p p'.
Proof.
  unfold createTseitinVar. intros Hcreate.
  destruct (mTseitinVars p !! f) as [tv|]; [eauto using handle_change|].
  destruct (create_variable _ _) as [[hi p1]|] eqn:Hvar; [|discriminate].
  destruct (heap p1 !! f) as [fc|]; [|discriminate].
  destruct (heap p1 !! hi) as [hc|] eqn:Hhi; [|discriminate].
  eapply change_trans; [apply (change_variable ok p (S (mFreshVariable p)))|].
  eapply change_trans.
  { eapply add_change; [left; apply plain_BOOL|exact Hvar]. }
  eapply change_trans.
  { eapply change_update;
      [exact Hhi|apply (same_links_set_difficulty (mDifficulty fc))]. }
  eapply change_trans; [|eapply handle_change; exact Hcreate].
  apply change_tseitin.
Qed.

(** [ok] accepts the polarity that [create_constraint] interns. *)
Hypothesis ok_base :
  forall a : C, isBaseFormula_constraint a = true -> ok a.
Hypothesis ok_negated :
  forall a : C, isBaseFormula_constraint a = false -> ok (negation a).

Lemma create_constraint_change (a : C) (r : nat) p p' :
  create_constraint a p = Some (r, p') -> change ok p p'.
Proof.
  unfold create_constraint. intros Hcreate.
  destruct (isConsistent a) as [|[|n]].
  - inversion Hcreate; subst. apply change_refl.
  - inversion Hcreate; subst. apply change_refl.
  - destruct (isBaseFormula_constraint a) eqn:Hbase.
    + eapply add_change; [|exact Hcreate]. right. eauto.
    + destruct (add _ _ p) as [[b p1]|] eqn:Hadd; [|discriminate].
      destruct (heap p1 !! b); [|discriminate].
      inversion Hcreate; subst.
      eapply add_change; [|exact Hadd]. right. eauto.
Qed.

Lemma copy_handles_change (fs : list nat) p p' :
  copy_handles fs p = Some p' -> change ok p p'.
Proof.
  revert p. induction fs as [|f fs IH]; simpl; intros p Hcopy.
  - inversion Hcopy; subst. apply change_refl.
  - destruct (reg f p) as [p1|] eqn:Hreg; [|discriminate].
    eapply change_trans; [eapply reg_change; exact Hreg|eauto].
Qed.

Lemma release_handles_change (fs : list nat) p p' :
  release_handles fs p = Some p' -> change ok p p'.
Proof.
  revert p. induction fs as [|f fs IH]; simpl; intros p Hrel.
  - inversion Hrel; subst. apply change_refl.
  - destruct (free f p) as [p1|] eqn:Hfree; [|discriminate].
    eapply change_trans; [eapply free_change; exact Hfree|eauto].
Qed.

Lemma add_candidate_change (ty : FormulaType) (pl : Payload C)
    (fs : list nat) (e : nat) p p' :
  plain ty ->
  add_candidate ty pl fs p = Some (e, p') -> change ok p p'.
Proof.
  unfold add_candidate. intros Hplain Hadd.
  destruct (find_content ty pl p).
  - destruct (release_handles fs p) as [p1|] eqn:Hrel; [|discriminate].
    inversion Hadd; subst. eauto using release_handles_change.
  - eapply add_change; [left; exact Hplain|exact Hadd].
Qed.

Lemma create_quantifier_change (ty : FormulaType) (vars : list nat)
    (term r : nat) p p' :
  create_quantifier ty vars term p = Some (r, p') -> change ok p p'.
Proof.
  unfold create_quantifier. intros Hcreate.
  destruct (bool_decide (ty = EXISTS) || bool_decide (ty = FORALL)) eqn:Hty;
    [|discriminate].
  assert (Hplain : plain ty).
  { apply orb_true_iff in Hty as [E|E]; apply bool_decide_eq_true in E;
      subst ty; repeat split; discriminate. }
  destruct vars as [|v vars]; [inversion Hcreate; subst; apply change_refl|].
  destruct (handle term p) as [[h p1]|] eqn:Hh; [|discriminate].
  eapply change_trans; [eapply handle_change; exact Hh|].
  eapply add_candidate_change; [exact Hplain|exact Hcreate].
Qed.

Lemma create_nary_copy_change (ty : FormulaType) (fs : list nat) (r : nat)
    p p' :
  create_nary_copy ty fs p = Some (r, p') -> change ok p p'.
Proof.
  unfold create_nary_copy, create_nary, intern_connective. intros Hcreate.
  destruct (copy_handles fs p) as [p1|] eqn:Hcopy; [|discriminate].
  eapply change_trans; [eapply copy_handles_change; exact Hcopy|].
  destruct ty; try discriminate;
    (eapply add_candidate_change; [|exact Hcreate]);
    repeat split; discriminate.
Qed.

Lemma call_change (c : Call) p p' : call c p = Some p' -> change ok p p'.
Proof.
  destruct c as [v|a|eq|pbc|f|f|f|f|vc|vc|va|bv|ty vars term|ty fs];
    simpl; intros Hcall.
  - destruct (create_variable v p) as [[r p1]|] eqn:E; [|discriminate].
    inversion Hcall; subst.
    eapply add_change; [left; apply plain_BOOL|exact E].
  - destruct (create_constraint a p) as [[r p1]|] eqn:E; [|discriminate].
    inversion Hcall; subst. eauto using create_constraint_change.
  - destruct (create_ueq eq p) as [[r p1]|] eqn:E; [|discriminate].
    inversion Hcall; subst.
    eapply add_change; [left|exact E]. repeat split; discriminate.
  - destruct (create_pbconstraint pbc p) as [[r p1]|] eqn:E; [|discriminate].
    inversion Hcall; subst.
    eapply add_change; [left|exact E]. repeat split; discriminate.
  - eauto using reg_change.
  - eauto using free_change.
  - destruct (getTseitinVar f p) as [[r p1]|] eqn:E; [|discriminate].
    inversion Hcall; subst. unfold getTseitinVar in E.
    destruct (mTseitinVars p !! f); eauto using handle_change.
  - destruct (createTseitinVar f p) as [[r p1]|] eqn:E; [|discriminate].
    inversion Hcall; subst. eauto using createTseitinVar_change.
  - destruct (create_varcompare vc p) as [[r p1]|] eqn:E; [|discriminate].
    inversion Hcall; subst.
    eapply add_change; [left|exact E]. repeat split; discriminate.
  - destruct (create_varcompare_copy vc p) as [[r p1]|] eqn:E; [|discriminate].
    inversion Hcall; subst. unfold create_varcompare_copy in E.
    destruct (asConstraint vc); [eauto using create_constraint_change|].
    eapply add_change; [left|exact E]. repeat split; discriminate.
  - destruct (create_varassign va p) as [[r p1]|] eqn:E; [|discriminate].
    inversion Hcall; subst.
    eapply add_change; [left|exact E]. repeat split; discriminate.
  - destruct (create_bvconstraint bv p) as [[r p1]|] eqn:E; [|discriminate].
    inversion Hcall; subst. unfold create_bvconstraint in E.
    destruct (isAlwaysConsistent bv);
      [inversion E; subst; apply change_refl|].
    destruct (isAlwaysInconsistent bv);
      [inversion E; subst; apply change_refl|].
    eapply add_change; [left|exact E]. repeat split; discriminate.
  - destruct (create_quantifier ty vars term p) as [[r p1]|] eqn:E;
      [|discriminate].
    inversion Hcall; subst. eauto using create_quantifier_change.
  - destruct (create_nary_copy ty fs p) as [[r p1]|] eqn:E; [|discriminate].
    inversion Hcall; subst. eauto using create_nary_copy_change.
Qed.

End Changes.

(** ** The elementary changes keep the invariant *)

Section Invariant.
Variable ok : C -> Prop.

Lemma polarity_ext (T T' : list nat) (x : nat) (c c' n n' : FormulaContent C) :
  same_links c c' -> same_links n n' ->
  (x ∈ T' <-> x ∈ T) -> (mNegation c ∈ T' <-> mNegation c ∈ T) ->
  polarity ok T x c n -> polarity ok T' x c' n'.
Proof.
  intros (Ht & Hp & Hn) (Ht' & Hp' & Hn') Hx Hm Hpol.
  destruct Hpol;
    [eapply polarity_constant|eapply polarity_plain|eapply polarity_not
    |eapply polarity_base|eapply polarity_negated];
    rewrite ?Ht, ?Ht', ?Hp, ?Hp', ?Hn; try eassumption; tauto.
Qed.

Lemma same_links_refl (c : FormulaContent C) : same_links c c.
Proof. repeat split. Qed.

Lemma invariant_update p (x : nat) (c c' : FormulaContent C) :
  heap p !! x = Some c -> same_links c c' ->
  invariant ok p -> invariant ok (set_heap (<[x := c']> (heap p)) p).
Proof.
  intros Hx Hsame [Hlive Htable Hpair].
  pose proof Hsame as (_ & _ & Hneg).
  split; simpl.
  - intros y Hy. apply Hlive.
    destruct (decide (y = x)) as [->|Hne]; [now rewrite Hx|].
    now rewrite lookup_insert_ne in Hy by congruence.
  - exact Htable.
  - intros y cy Hy.
    destruct (decide (y = x)) as [->|Hne].
    + rewrite lookup_insert_eq in Hy. inversion Hy; subst cy.
      destruct (Hpair x c Hx) as (n & Hn & Hback & Hdiff & Hpol).
      rewrite Hneg. exists n.
      rewrite lookup_insert_ne by congruence.
      repeat split; try assumption.
      eapply polarity_ext;
        [exact Hsame|apply same_links_refl|reflexivity..|exact Hpol].
    + rewrite lookup_insert_ne in Hy by congruence.
      destruct (Hpair y cy Hy) as (n & Hn & Hback & Hdiff & Hpol).
      destruct (decide (mNegation cy = x)) as [E|E].
      * rewrite E in *. rewrite Hx in Hn. inversion Hn; subst n.
        exists c'. rewrite lookup_insert_eq.
        repeat split; try assumption; [congruence|].
        eapply polarity_ext;
          [apply same_links_refl|exact Hsame|reflexivity..|exact Hpol].
      * exists n. rewrite lookup_insert_ne by congruence.
        repeat split; assumption.
Qed.

Lemma invariant_destroy p p' (tmp : nat) :
  destroy tmp p = Some p' -> invariant ok p -> invariant ok p'.
Proof.
  unfold destroy. destruct (heap p !! tmp) as [t|] eqn:Ht; [|discriminate].
  intros [= <-] [Hlive Htable Hpair].
  destruct (Hpair tmp t Ht) as (nt & Hnt & Hbackt & Hdifft & _).
  split; simpl.
  - intros y [cy Hy]. apply Hlive.
    apply lookup_delete_Some in Hy as [_ Hy].
    apply lookup_delete_Some in Hy as [_ Hy]. eauto.
  - intros y Hy. apply Htable.
    apply list_elem_of_filter in Hy. tauto.
  - intros y cy Hy.
    apply lookup_delete_Some in Hy as [Hy1 Hy].
    apply lookup_delete_Some in Hy as [Hy2 Hy].
    destruct (Hpair y cy Hy) as (n & Hn & Hback & Hdiff & Hpol).
    assert (H1 : mNegation cy <> tmp).
    { intros E. rewrite E, Ht in Hn. inversion Hn; subst n. congruence. }
    assert (H2 : mNegation cy <> mNegation t).
    { intros E. rewrite E, Hnt in Hn. inversion Hn; subst n. congruence. }
    exists n. rewrite !lookup_delete_ne by congruence.
    repeat split; try assumption.
    eapply polarity_ext; [apply same_links_refl..| | |exact Hpol];
      rewrite list_elem_of_filter; split; try tauto; intros; split; congruence.
Qed.

Lemma invariant_publish p (ty nty : FormulaType) (pl npl : Payload C) (u : N) :
  publishable ok ty pl nty npl ->
  invariant ok p ->
  let k := mIdAllocator p in
  invariant ok
    (mkPool (S (S k)) (mpTrue p) (mpFalse p) (k :: mPool p)
       (mTseitinVars p) (mTseitinVarToFormula p)
       (<[S k := mkContent (S k) nty npl k 0 0]>
          (<[k := mkContent k ty pl (S k) u 0]> (heap p)))
       (mFreshVariable p)).
Proof.
  intros Hpub [Hlive Htable Hpair] k.
  assert (Hk : S k ∉ k :: mPool p).
  { intros Hin. apply elem_of_cons in Hin as [Hin|Hin]; [lia|].
    apply Htable in Hin. unfold k in Hin. lia. }
  assert (Hk' : k ∈ k :: mPool p) by apply list_elem_of_here.
  split; simpl.
  - intros y [cy Hy].
    destruct (decide (y = S k)) as [->|H1]; [lia|].
    rewrite lookup_insert_ne in Hy by congruence.
    destruct (decide (y = k)) as [->|H2]; [lia|].
    rewrite lookup_insert_ne in Hy by congruence.
    assert (y < k) by (apply Hlive; eauto). lia.
  - intros y Hy. apply elem_of_cons in Hy as [->|Hy]; [lia|].
    apply Htable in Hy. unfold k. lia.
  - intros y cy Hy.
    destruct (decide (y = S k)) as [->|H1].
    { rewrite lookup_insert_eq in Hy. inversion Hy; subst cy. simpl.
      eexists. rewrite lookup_insert_ne by lia. rewrite lookup_insert_eq.
      split; [reflexivity|]. split; [reflexivity|]. split; [lia|].
      destruct Hpub.
      - apply polarity_not; simpl; auto.
      - eapply polarity_negated; simpl; eauto. }
    rewrite lookup_insert_ne in Hy by congruence.
    destruct (decide (y = k)) as [->|H2].
    { rewrite lookup_insert_eq in Hy. inversion Hy; subst cy. simpl.
      eexists. rewrite lookup_insert_eq.
      split; [reflexivity|]. split; [reflexivity|]. split; [lia|].
      destruct Hpub.
      - apply polarity_plain; simpl; auto.
      - eapply polarity_base; simpl; eauto. }
    rewrite lookup_insert_ne in Hy by congruence.
    destruct (Hpair y cy Hy) as (n & Hn & Hback & Hdiff & Hpol).
    assert (Hm : mNegation cy < k) by (apply Hlive; eauto).
    exists n. rewrite !lookup_insert_ne by lia.
    repeat split; try assumption.
    eapply polarity_ext; [apply same_links_refl..| | |exact Hpol];
      rewrite elem_of_cons; split; auto; intros [E|E]; auto; lia.
Qed.

Lemma change_invariant p p' :
  change ok p p' -> invariant ok p -> invariant ok p'.
Proof.
  induction 1 as [p|p1 p2 p3 _ IH1 _ IH2|p x c c' Hx Hsame|p tv tvf|p v
                 |p tmp p' Hd|p ty pl nty npl u Hpub k]; intros Hinv.
  - exact Hinv.
  - auto.
  - eauto using invariant_update.
  - destruct Hinv. split; assumption.
  - destruct Hinv. split; assumption.
  - eauto using invariant_destroy.
  - now apply invariant_publish.
Qed.

Lemma invariant_init : invariant ok init.
Proof.
  assert (Hcases : forall (x : nat) (c : FormulaContent C),
            heap init !! x = Some c ->
            (x = 1 /\ c = mkContent 1 TRUE NoPayload 2 2 0)
            \/ (x = 2 /\ c = mkContent 2 FALSE NoPayload 1 2 0)).
  { intros x c. simpl. intros Hx.
    apply lookup_insert_Some in Hx as [[<- <-]|[_ Hx]]; [auto|].
    apply lookup_insert_Some in Hx as [[<- <-]|[_ Hx]]; [auto|].
    now rewrite lookup_empty in Hx. }
  split.
  - intros x [c Hx]. destruct (Hcases x c Hx) as [[-> _]|[-> _]]; simpl; lia.
  - simpl. intros x Hx. set_unfold. lia.
  - intros x c Hx. destruct (Hcases x c Hx) as [[-> ->]|[-> ->]]; simpl.
    + eexists. split; [reflexivity|]. split; [reflexivity|]. split; [lia|].
      apply polarity_constant; simpl; auto; set_solver.
    + eexists. split; [reflexivity|]. split; [reflexivity|]. split; [lia|].
      apply polarity_constant; simpl; auto; set_solver.
Qed.

End Invariant.

(** ** The constants *)

Lemma change_constants (ok : C -> Prop) p p' :
  change ok p p' ->
  mpTrue p' = mpTrue p /\ mpFalse p' = mpFalse p
  /\ (constants p -> constants p').
Proof.
  induction 1 as [p|p1 p2 p3 _ (T1 & F1 & K1) _ (T2 & F2 & K2)
                 |p x c c' Hx (Hty & _ & Hneg)
                 |p tv tvf|p v|p tmp p' Hdestroy|p ty pl nty npl u Hpub k].
  - auto.
  - split; [congruence|]. split; [congruence|auto].
  - split; [reflexivity|]. split; [reflexivity|].
    intros Hc y cy. unfold trueFormula, falseFormula. simpl. intros Hy.
    destruct (decide (y = x)) as [->|Hne].
    + rewrite lookup_insert_eq in Hy. inversion Hy; subst cy.
      rewrite Hty, Hneg. apply (Hc x c Hx).
    + rewrite lookup_insert_ne in Hy by congruence. apply (Hc y cy Hy).
  - split; [reflexivity|]. split; [reflexivity|]. intros Hc. exact Hc.
  - split; [reflexivity|]. split; [reflexivity|]. intros Hc. exact Hc.
  - unfold destroy in Hdestroy.
    destruct (heap p !! tmp) as [t|]; [|discriminate].
    inversion Hdestroy; subst p'.
    split; [reflexivity|]. split; [reflexivity|].
    intros Hc y cy. unfold trueFormula, falseFormula. simpl. intros Hy.
    apply lookup_delete_Some in Hy as [_ Hy].
    apply lookup_delete_Some in Hy as [_ Hy]. apply (Hc y cy Hy).
  - split; [reflexivity|]. split; [reflexivity|].
    intros Hc y cy. unfold trueFormula, falseFormula. simpl. intros Hy.
    apply lookup_insert_Some in Hy as [[_ <-]|[_ Hy]].
    { simpl. destruct Hpub; split; discriminate. }
    apply lookup_insert_Some in Hy as [[_ <-]|[_ Hy]].
    { simpl. destruct Hpub as [ty pl f (_ & _ & Ht & Hf)|a _];
        split; intros E; try discriminate; contradiction. }
    apply (Hc y cy Hy).
Qed.

Lemma constants_init : constants (init : Pool C).
Proof.
  intros x c. unfold trueFormula, falseFormula. simpl. intros Hx.
  apply lookup_insert_Some in Hx as [[<- <-]|[_ Hx]];
    [split; [auto|discriminate]|].
  apply lookup_insert_Some in Hx as [[<- <-]|[_ Hx]];
    [split; [discriminate|auto]|].
  now rewrite lookup_empty in Hx.
Qed.

(** ** Negation pairs and base formulas *)

Lemma reachable_linked p : reachable p -> invariant (fun _ => True) p.
Proof.
  induction 1 as [|c p p' _ IH Hcall].
  - apply invariant_init.
  - eapply change_invariant; [|exact IH].
    eapply call_change; [| |exact Hcall]; auto.
Qed.

Lemma reachable_polarized `{!ConstraintLaws} p :
  reachable p -> invariant base_polarity p.
Proof.
  induction 1 as [|c p p' _ IH Hcall].
  - apply invariant_init.
  - eapply change_invariant; [|exact IH].
    eapply call_change; [| |exact Hcall]; unfold base_polarity.
    + auto.
    + intros a Ha. rewrite negation_involutive.
      now apply constraint_lt_negation.
Qed.

(** C9. Tseitin bookkeeping. For a formula [f] without a placeholder,
    [getTseitinVar] returns TRUE and allocates nothing. The first
    [createTseitinVar] allocates the placeholder: a node [tv] that did
    not exist, other than TRUE and [f], which holds the fresh Boolean
    variable, has the difficulty of [f] and is in the table; and it
    records [f -> tv] and [tv -> f]. The [n] calls that follow all
    return [tv] and allocate nothing, and so does [getTseitinVar]. *)
Theorem tseitin_bookkeeping p (f : nat) fc tt (n : nat) :
  reachable p ->
  heap p !! f = Some fc ->
  mTseitinVars p !! f = None ->
  find_content BOOL (Variable_ (mFreshVariable p)) p = None ->
  heap p !! trueFormula p = Some tt ->
  mType tt = TRUE ->
  (0 < mUsages tt < size_t_max)%N ->
  (N.of_nat n + 2 <= size_t_max)%N ->
  (exists p0, getTseitinVar f p = Some (trueFormula p, p0) /\ same_nodes p p0)
  /\ exists tv p1 tvc,
       createTseitinVar f p = Some (tv, p1)
       /\ heap p !! tv = None
       /\ tv <> trueFormula p /\ tv <> f
       /\ heap p1 !! tv = Some tvc
       /\ mType tvc = BOOL
       /\ mPayload tvc = Variable_ (mFreshVariable p)
       /\ mDifficulty tvc = mDifficulty fc
       /\ mFreshVariable p1 = S (mFreshVariable p)
       /\ tv ∈ mPool p1
       /\ mTseitinVars p1 !! f = Some tv
       /\ mTseitinVarToFormula p1 !! tv = Some f
       /\ (exists p2, createTseitinVars n f p1 = Some (replicate n tv, p2)
                      /\ same_nodes p1 p2)
       /\ (exists p3, getTseitinVar f p1 = Some (tv, p3) /\ same_nodes p1 p3).
Proof.
  intros Hreach Hf Hnone Hfresh Ht Hty Hu Hn.
  pose proof (inv_live _ _ (reachable_linked p Hreach)) as Hlive.
  assert (Hnew : heap p !! mIdAllocator p = None).
  { destruct (heap p !! mIdAllocator p) eqn:E; [|reflexivity].
    pose proof (Hlive (mIdAllocator p) (ltac:(eauto))). lia. }
  assert (Hflt : f < mIdAllocator p) by (apply Hlive; eauto).
  split; [eauto using getTseitinVar_none|].
  destruct (createTseitinVar_fresh p f fc Hf Hnone Hfresh)
    as (h & c & Hc & Hk & Hb & Hu2 & Hpl & Hd).
  eexists _, _, c. split; [exact Hc|].
  cbn [mTseitinVars mTseitinVarToFormula heap mFreshVariable mPool].
  split; [exact Hnew|].
  split; [intros E; rewrite E, Ht in Hnew; discriminate|].
  split; [lia|].
  split; [exact Hk|]. split; [exact Hb|]. split; [exact Hpl|].
  split; [apply Hd; lia|]. split; [reflexivity|].
  split; [apply list_elem_of_here|].
  split; [apply lookup_insert_eq|]. split; [apply lookup_insert_eq|].
  split.
  - eapply (createTseitinVars_existing n _ f _ c);
      [apply lookup_insert_eq|exact Hk|rewrite Hb; discriminate..|lia|lia].
  - eapply (getTseitinVar_some _ f _ c);
      [apply lookup_insert_eq|exact Hk|rewrite Hb; discriminate..
      |unfold size_t_max; lia].
Qed.

Lemma reachable_constants p : reachable p -> constants p.
Proof.
  induction 1 as [|c p p' _ IH Hcall].
  - apply constants_init.
  - apply (change_constants (fun _ => True) p p'); [|exact IH].
    eapply call_change; [| |exact Hcall]; auto.
Qed.

(** C3. Negation involution. In every pool that calls lead to, a live
    node has a negation other than itself, NOT of the node is that
    negation and NOT of the negation is the node again; [create_unary]
    only reads the pool, so no node is published. This rests on [add] and
    on the constructor of the pool as the spec describes them. *)
Theorem negation_involution p (f : nat) (c : FormulaContent C) :
  reachable p ->
  heap p !! f = Some c ->
  create_unary NOT f p = Some (mNegation c)
  /\ create_unary NOT (mNegation c) p = Some f
  /\ mNegation c <> f.
Proof.
  intros Hreach Hf. apply reachable_linked in Hreach.
  destruct (inv_pair _ _ Hreach f c Hf) as (n & Hn & Hback & Hdiff & _).
  unfold create_unary. rewrite Hf, Hn, Hback. auto.
Qed.

(** C4, as the code has it. In every pool that calls lead to, a live
    node other than TRUE and FALSE has exactly one of itself and its
    negation in the table, and that one is what [getBaseFormula] returns:
    the negation for a NOT node, the node itself for any other tag but
    CONSTRAINT, and for a CONSTRAINT the polarity whose constraint is less
    than its negation. TRUE and FALSE are the nodes that [trueFormula]
    and [falseFormula] return; they negate each other and are both in
    the table. This rests on [add] and on the constructor of the pool as
    the spec describes them. *)
Theorem base_polarity_invariant `{!ConstraintLaws} p (x : nat)
    (c : FormulaContent C) :
  reachable p ->
  heap p !! x = Some c ->
  exists n : FormulaContent C,
    heap p !! mNegation c = Some n
    /\ (mType c = TRUE \/ mType c = FALSE ->
        (x ∈ mPool p) /\ (mNegation c ∈ mPool p)
        /\ (mType c = TRUE ->
            x = trueFormula p /\ mNegation c = falseFormula p
            /\ mType n = FALSE)
        /\ (mType c = FALSE ->
            x = falseFormula p /\ mNegation c = trueFormula p
            /\ mType n = TRUE))
    /\ (mType c <> TRUE -> mType c <> FALSE ->
        exists (b : nat) (bc : FormulaContent C),
          getBaseFormula p x = Some b
          /\ heap p !! b = Some bc
          /\ (x ∈ mPool p <-> mNegation c ∉ mPool p)
          /\ b ∈ mPool p
          /\ (mType c = NOT -> b = mNegation c)
          /\ (mType c <> NOT -> mType c <> CONSTRAINT -> b = x)
          /\ (mType c = CONSTRAINT ->
              (b = x \/ b = mNegation c)
              /\ exists a, mPayload bc = Constraint_ a
                           /\ constraint_lt a (negation a) = true)
          /\ mType bc <> NOT).
Proof.
  intros Hreach Hx.
  pose proof (reachable_constants p Hreach) as Hconst.
  apply reachable_polarized in Hreach.
  destruct (inv_pair _ _ Hreach x c Hx) as (n & Hn & Hback & Hdiff & Hpol).
  exists n. split; [exact Hn|]. split.
  - intros Hc.
    destruct (Hconst x c Hx) as [Ht Hf].
    destruct (Hconst _ n Hn) as [Hnt Hnf].
    assert (Hin : (x ∈ mPool p) /\ (mNegation c ∈ mPool p)).
    { destruct Hpol as [_ _ Hin1 Hin2|(_ & _ & H1 & H2) _ _ _|E _ _ _
                       |a E _ _ _ _ _ _|a E _ _ _ _ _ _];
        [auto|destruct Hc; congruence..]. }
    assert (Hnc : mType n = TRUE \/ mType n = FALSE).
    { destruct Hpol as [_ Hnc _ _|(_ & _ & H1 & H2) _ _ _|E _ _ _
                       |a E _ _ _ _ _ _|a E _ _ _ _ _ _];
        [auto|destruct Hc; congruence..]. }
    split; [apply Hin|]. split; [apply Hin|]. split.
    + intros E. destruct (Ht E) as [Ex En]. split; [assumption|].
      split; [assumption|].
      destruct Hnc as [E'|E']; [|assumption].
      destruct (Hnt E') as [Ex' _]. congruence.
    + intros E. destruct (Hf E) as [Ex En]. split; [assumption|].
      split; [assumption|].
      destruct Hnc as [E'|E']; [assumption|].
      destruct (Hnf E') as [Ex' _]. congruence.
  - intros Htrue Hfalse.
    unfold getBaseFormula, isBaseFormula. rewrite Hx, Hn.
    destruct Hpol as [[E|E] _ _ _|(Hnot & Hcon & _ & _) Hnn Hin Hout
                     |Hnot (Hnn & Hnc & _ & _) Hout Hin
                     |a Hc Hnc Hpc Hpn Hok Hin Hout
                     |a Hc Hnc Hpn Hpc Hok Hout Hin];
      try congruence.
    + rewrite !bool_decide_eq_false_2 by assumption.
      exists x, c. repeat split; try tauto; try congruence.
    + rewrite bool_decide_eq_true_2 by assumption.
      exists (mNegation c), n. repeat split; try tauto; try congruence.
    + rewrite bool_decide_eq_false_2 by congruence.
      rewrite bool_decide_eq_true_2 by assumption.
      rewrite Hpc, Hpn. unfold base_polarity in Hok. rewrite Hok.
      exists x, c. repeat split; try tauto; try congruence; eauto.
    + rewrite bool_decide_eq_false_2 by congruence.
      rewrite bool_decide_eq_true_2 by assumption.
      rewrite Hpc, Hpn. unfold base_polarity in Hok.
      rewrite (constraint_lt_asym _ _ Hok).
      exists (mNegation c), n. repeat split; try tauto; try congruence; eauto.
Qed.

(** ** The multiset constructor *)

Lemma insert_beyond (x : nat) (s : list nat) :
  Forall (fun y => y < x) s -> PointerSet.insert x s = s ++ [x].
Proof.
  induction 1 as [|y s Hy _ IH]; [reflexivity|]. simpl.
  destruct (Nat.ltb_spec x y); [lia|].
  destruct (Nat.eqb_spec x y); [lia|]. now rewrite IH.
Qed.

Lemma ascending_snoc (x : nat) (s : list nat) :
  PointerSet.ascending s -> Forall (fun y => y < x) s ->
  PointerSet.ascending (s ++ [x]).
Proof.
  induction s as [|y s IH]; simpl; [auto|].
  intros [Hy Hs] Hall. inversion Hall; subst. split; [|auto].
  apply Forall_app. split; [assumption|]. constructor; [assumption|constructor].
Qed.

Lemma count_cons (x y : nat) (s : list nat) :
  PointerSet.count x (y :: s)
  = (if decide (y = x) then 1 else 0) + PointerSet.count x s.
Proof.
  unfold PointerSet.count. rewrite filter_cons. now destruct (decide (y = x)).
Qed.

Lemma count_app (x : nat) (s1 s2 : list nat) :
  PointerSet.count x (s1 ++ s2) = PointerSet.count x s1 + PointerSet.count x s2.
Proof. unfold PointerSet.count. now rewrite filter_app, length_app. Qed.

Lemma count_absent (x : nat) (s : list nat) :
  Forall (fun y => y <> x) s -> PointerSet.count x s = 0.
Proof.
  induction 1 as [|y s Hy _ IH]; [reflexivity|].
  rewrite count_cons, IH. now destruct (decide (y = x)).
Qed.

Lemma parity_cases (n : nat) :
  (n mod 2 = 1 /\ (S n) mod 2 = 0) \/ (n mod 2 = 0 /\ (S n) mod 2 = 1).
Proof.
  induction n as [|n [[H1 H2]|[H1 H2]]]; [right; split; reflexivity|right|left].
  - split; [assumption|].
    change (S (S n)) with (2 + n). now rewrite Nat.Div0.add_mod, H1.
  - split; [assumption|].
    change (S (S n)) with (2 + n). now rewrite Nat.Div0.add_mod, H1.
Qed.

(** What the scan has collected when it ends: the survivors are in
    ascending order, and beyond what [subFormulas] held before, a formula
    is there once if the copies still to be counted are odd in number and
    not at all if they are even. *)
Lemma multi_scan_spec (rest : list nat) :
  forall (lastSubFormula counter : nat) (subFormulas : list nat),
    Forall (fun y => lastSubFormula <= y) rest ->
    PointerSet.nondecreasing rest ->
    PointerSet.ascending subFormulas ->
    Forall (fun y => y < lastSubFormula) subFormulas ->
    PointerSet.ascending (multi_scan rest lastSubFormula counter subFormulas)
    /\ forall x,
         PointerSet.count x (multi_scan rest lastSubFormula counter subFormulas)
         = PointerSet.count x subFormulas
           + (if decide (x = lastSubFormula)
              then (counter + PointerSet.count x rest) mod 2
              else PointerSet.count x rest mod 2).
Proof.
  induction rest as [|sub rest IH]; intros last counter acc Hle Hsorted Hacc Hlt.
  - cbn [multi_scan].
    assert (Hlast : PointerSet.count last acc = 0).
    { apply count_absent. eapply Forall_impl; [exact Hlt|]. simpl. lia. }
    destruct (parity_cases counter) as [[Hodd _]|[Heven _]].
    + rewrite Hodd. simpl Nat.eqb. cbv iota.
      rewrite insert_beyond by assumption.
      split; [now apply ascending_snoc|].
      intros x. rewrite count_app, count_cons.
      change (PointerSet.count x []) with 0. rewrite !Nat.add_0_r.
      destruct (decide (x = last)) as [->|Hne].
      * now rewrite decide_True, Hodd by reflexivity.
      * rewrite decide_False by congruence. change (0 mod 2) with 0. lia.
    + rewrite Heven. simpl Nat.eqb. cbv iota.
      split; [assumption|].
      intros x. change (PointerSet.count x []) with 0. rewrite !Nat.add_0_r.
      destruct (decide (x = last)); [now rewrite Heven|].
      change (0 mod 2) with 0. lia.
  - inversion Hle as [|? ? Hsub Hle']; subst.
    destruct Hsorted as [Hsub' Hsorted]. cbn [multi_scan].
    destruct (Nat.eqb_spec last sub) as [<-|Hne].
    + destruct (IH last (S counter) acc) as [Hasc Hcount]; try assumption.
      split; [assumption|].
      intros x. rewrite Hcount, count_cons.
      destruct (decide (x = last)) as [->|Hx].
      * rewrite decide_True by reflexivity.
        now replace (S counter + PointerSet.count last rest)
          with (counter + (1 + PointerSet.count last rest)) by lia.
      * now rewrite decide_False by congruence.
    + assert (Hlast_sub : last < sub) by lia.
      set (acc' := if counter mod 2 =? 1 then PointerSet.insert last acc else acc).
      assert (Hacc' : PointerSet.ascending acc'
                      /\ Forall (fun y => y < sub) acc'
                      /\ forall x, PointerSet.count x acc'
                                   = PointerSet.count x acc
                                     + if decide (x = last) then counter mod 2 else 0).
      { subst acc'. destruct (parity_cases counter) as [[-> _]|[-> _]];
          simpl Nat.eqb; cbv iota.
        - rewrite insert_beyond by assumption.
          split; [now apply ascending_snoc|]. split.
          + apply Forall_app. split.
            * eapply Forall_impl; [exact Hlt|]. simpl. lia.
            * repeat constructor. lia.
          + intros x. rewrite count_app, count_cons.
            change (PointerSet.count x []) with 0. rewrite !Nat.add_0_r.
            destruct (decide (x = last)) as [->|Hx].
            * now rewrite decide_True by reflexivity.
            * now rewrite decide_False by congruence.
        - split; [assumption|]. split.
          + eapply Forall_impl; [exact Hlt|]. simpl. lia.
          + intros x. destruct (decide (x = last)); lia. }
      destruct Hacc' as (Hasc' & Hlt' & Hcount').
      destruct (IH sub 1 acc') as [Hasc Hcount]; try assumption.
      split; [assumption|].
      intros x. rewrite Hcount, Hcount', count_cons.
      destruct (decide (x = last)) as [->|Hx].
      * rewrite decide_False by lia. rewrite decide_False by lia.
        rewrite (count_absent last rest).
        2:{ eapply Forall_impl; [exact Hsub'|]. simpl. lia. }
        change (0 mod 2) with 0. change (0 + 0) with 0.
        rewrite !Nat.add_0_r. reflexivity.
      * repeat case_decide; try congruence; rewrite ?Nat.add_0_l; lia.
Qed.

Section Multi.
Variable createITE : list nat -> Pool C -> option (nat * Pool C).
Variable createImplication : list nat -> Pool C -> option (nat * Pool C).
Variable createNAry :
  FormulaType -> list nat -> Pool C -> option (nat * Pool C).

(** What the spec says of the XOR constructor for fewer than two
    operands: no operand is FALSE, one operand is that operand (as the
    unary [create] of the header has it). *)
Hypothesis createNAry_empty :
  forall p, createNAry XOR [] p = Some (falseFormula p, p).
Hypothesis createNAry_single :
  forall (f : nat) p, createNAry XOR [f] p = Some (f, p).

(** C7. XOR over a multiset: the survivors [s] are in ascending order and
    hold each formula once if it occurs an odd number of times and not at
    all if it occurs an even number of times; no survivor gives FALSE, one
    survivor is returned as it is, several go to the XOR constructor. So
    XOR(a, a) is FALSE, XOR(a, a, a) is [a], and XOR(a, b, b, c, c, c) is
    XOR(a, c). *)
Theorem create_multi_parity (l : list nat) p :
  PointerSet.nondecreasing l ->
  (exists s,
     PointerSet.ascending s
     /\ (forall x, PointerSet.count x s = PointerSet.count x l mod 2)
     /\ create_multi createITE createImplication createNAry l p
        = match s with
          | [] => Some (falseFormula p, p)
          | [f] => Some (f, p)
          | _ => createNAry XOR s p
          end)
  /\ (forall a,
        create_multi createITE createImplication createNAry [a; a] p
        = Some (falseFormula p, p))
  /\ (forall a,
        create_multi createITE createImplication createNAry [a; a; a] p
        = Some (a, p))
  /\ (forall a b c, a < b -> b < c ->
        create_multi createITE createImplication createNAry
          [a; b; b; c; c; c] p
        = create_multi createITE createImplication createNAry [a; c] p).
Proof.
  intros Hsorted. repeat split.
  - destruct l as [|f [|g rest]].
    + exists []. repeat split; constructor.
    + exists [f]. repeat split; try constructor.
      intros x. rewrite count_cons. change (PointerSet.count x []) with 0.
      case_decide; reflexivity.
    + destruct Hsorted as [Hle Hsorted].
      destruct (multi_scan_spec (g :: rest) f 1 []) as [Hasc Hcount];
        try assumption; try constructor.
      exists (multi_scan (g :: rest) f 1 []).
      split; [assumption|]. split.
      * intros x. rewrite Hcount, (count_cons x f).
        change (PointerSet.count x []) with 0.
        case_decide; case_decide; try congruence; reflexivity.
      * cbn [create_multi create_nary].
        destruct (multi_scan (g :: rest) f 1 []) as [|h [|h' s]]; auto.
  - intros a. cbn [create_multi create_nary multi_scan].
    rewrite Nat.eqb_refl. apply createNAry_empty.
  - intros a. cbn [create_multi create_nary multi_scan].
    rewrite !Nat.eqb_refl. apply createNAry_single.
  - intros a b c Hab Hbc. cbn [create_multi create_nary multi_scan].
    rewrite !Nat.eqb_refl.
    destruct (Nat.eqb_spec a b); [lia|]. destruct (Nat.eqb_spec b c); [lia|].
    destruct (Nat.eqb_spec a c); [lia|]. reflexivity.
Qed.

End Multi.

(** ** Handles: registering and releasing in a row *)

Lemma with_usages_twice p (tmp : nat) t (u u' : N) :
  with_usages (with_usages p tmp t u) tmp (set_usages u t) u'
  = with_usages p tmp t u'.
Proof.
  unfold with_usages, set_heap, set_usages. simpl.
  now rewrite insert_insert_eq.
Qed.

Lemma lookup_with_usages p (tmp x : nat) t (u : N) :
  heap (with_usages p tmp t u) !! x
  = if decide (x = tmp) then Some (set_usages u t) else heap p !! x.
Proof.
  unfold with_usages. simpl. case_decide as E.
  - subst. apply lookup_insert_eq.
  - now apply lookup_insert_ne.
Qed.

(** The base of a formula does not depend on the counters. *)
Lemma getBaseFormula_with_usages p (tmp f : nat) t (u : N) :
  heap p !! tmp = Some t ->
  getBaseFormula (with_usages p tmp t u) f = getBaseFormula p f.
Proof.
  intros Ht. unfold getBaseFormula, isBaseFormula.
  rewrite lookup_with_usages.
  destruct (decide (f = tmp)) as [->|Hf].
  - rewrite Ht. simpl mType. simpl mNegation. simpl mPayload.
    rewrite lookup_with_usages.
    destruct (decide (mNegation t = tmp)) as [E|E]; [|reflexivity].
    now rewrite E, Ht.
  - destruct (heap p !! f) as [c|]; [|reflexivity].
    rewrite lookup_with_usages.
    destruct (decide (mNegation c = tmp)) as [E|E]; [|reflexivity].
    now rewrite E, Ht.
Qed.

Lemma calls_app (cs1 cs2 : list Call) p :
  calls (cs1 ++ cs2) p
  = match calls cs1 p with Some p' => calls cs2 p' | None => None end.
Proof.
  revert p. induction cs1 as [|c cs1 IH]; intros p; simpl; [reflexivity|].
  destruct (call c p); [apply IH|reflexivity].
Qed.

Section Handles.
Variables (p : Pool C) (f tmp : nat) (e t : FormulaContent C).
Hypothesis Hf : heap p !! f = Some e.
Hypothesis Hbase : getBaseFormula p f = Some tmp.
Hypothesis Htmp : heap p !! tmp = Some t.

Lemma lookup_f_with_usages (u : N) :
  exists e', heap (with_usages p tmp t u) !! f = Some e' /\ mType e' = mType e.
Proof.
  rewrite lookup_with_usages. case_decide as E.
  - subst. rewrite Htmp in Hf. inversion Hf; subst. eauto.
  - eauto.
Qed.

(** One more handle on a formula that is in use already. *)
Lemma reg_in_use (u : N) :
  (0 < u < size_t_max)%N ->
  reg f (with_usages p tmp t u) = Some (with_usages p tmp t (u + 1)).
Proof.
  intros Hu. destruct (lookup_f_with_usages u) as (e' & He' & _).
  rewrite (reg_spec _ f tmp e' (set_usages u t) He').
  - simpl mUsages. destruct (N.eqb_spec u 0); [lia|]. simpl andb. cbv iota.
    apply (f_equal Some), with_usages_twice.
  - now rewrite getBaseFormula_with_usages.
  - rewrite lookup_with_usages. now rewrite decide_True.
  - simpl. lia.
Qed.

Lemma regs_in_use (n : nat) (u : N) :
  (0 < u)%N -> (u + N.of_nat n <= size_t_max)%N ->
  calls (replicate n (Reg f)) (with_usages p tmp t u)
  = Some (with_usages p tmp t (u + N.of_nat n)).
Proof.
  revert u. induction n as [|n IH]; intros u Hpos Hmax.
  - simpl. now rewrite N.add_0_r.
  - cbn [replicate calls call]. rewrite reg_in_use by lia.
    rewrite IH by lia. do 2 f_equal. lia.
Qed.


Lemma free_in_use (u : N) :
  (0 < u)%N -> u <> 2%N ->
  free f (with_usages p tmp t u) = Some (with_usages p tmp t (u - 1)).
Proof.
  intros Hpos Hne.
  rewrite (free_counts_down _ f tmp (set_usages u t)).
  - unfold released. simpl mUsages. fold (with_usages (with_usages p tmp t u) tmp (set_usages u t) (u - 1)).
    apply (f_equal Some), with_usages_twice.
  - now rewrite getBaseFormula_with_usages.
  - rewrite lookup_with_usages. now rewrite decide_True.
  - exact Hpos.
  - exact Hne.
Qed.




End Handles.

(** ** Releasing a formula that has a placeholder *)





End Proofs.

(** The sample constraints obey the laws of the atom type. *)
#[global] Instance sample_laws : ConstraintLaws (C := Sample.constraint).
Proof.
  split.
  - intros [l s]. unfold negation; simpl. unfold Sample.neg; simpl.
    now rewrite negb_involutive.
  - intros [l1 s1] [l2 s2]. unfold constraint_lt; simpl. unfold Sample.lt; simpl.
    destruct (Nat.ltb_spec l1 l2), (Nat.ltb_spec l2 l1),
      (Nat.eqb_spec l1 l2), (Nat.eqb_spec l2 l1), s1, s2;
      simpl; try lia; congruence.
  - intros [l s]. unfold constraint_lt, negation; simpl.
    unfold Sample.lt, Sample.neg; simpl.
    rewrite Nat.ltb_irrefl, Nat.eqb_refl. now destruct s.
Qed.

Lemma reachable_with_variable : reachable Sample.with_variable.
Proof.
  apply (reachable_call (CreateVariable 7) init); [apply reachable_init|].
  reflexivity.
Qed.

Lemma reachable_with_constraint : reachable Sample.with_constraint.
Proof.
  apply (reachable_call (CreateConstraint (Sample.mkConstraint 5 true)) init);
    [apply reachable_init|].
  reflexivity.
Qed.

Lemma reachable_calls (cs : list (Call (C := Sample.constraint)))
    (p p' : Pool Sample.constraint) :
  reachable p -> calls cs p = Some p' -> reachable p'.
Proof.
  revert p. induction cs as [|c cs IH]; simpl; intros p Hreach Hcalls.
  - now inversion Hcalls; subst.
  - destruct (call c p) as [p1|] eqn:Hcall; [|discriminate].
    eauto using reachable_call.
Qed.

Lemma reachable_with_connectives : reachable Sample.with_connectives.
Proof.
  apply (reachable_calls
           [CreateVariable 7; CreateVariable 8; CreateNAry AND [3; 5];
            CreateQuantifier EXISTS [1] 7] init);
    [apply reachable_init|].
  vm_compute. reflexivity.
Qed.

Lemma reachable_with_connective_placeholder :
  reachable Sample.with_connective_placeholder.
Proof.
  apply (reachable_calls
           [CreateVariable 7; CreateVariable 8; CreateNAry AND [3; 5];
            CreateTseitinVar 7] init);
    [apply reachable_init|].
  vm_compute. reflexivity.
Qed.

Lemma reachable_with_negation_placeholder :
  reachable Sample.with_negation_placeholder.
Proof.
  apply (reachable_calls
           [CreateVariable 7; Reg 4; CreateTseitinVar 4; Free 4] init);
    [apply reachable_init|].
  vm_compute. reflexivity.
Qed.

(** The conjunction of [Sample.with_connectives] is node 7 and its
    negation node 8. *)
Lemma negation_involution_witness :
  create_unary NOT 7 Sample.with_connectives = Some 8
  /\ create_unary NOT 8 Sample.with_connectives = Some 7
  /\ 8 <> 7.
Proof.
  apply (negation_involution Sample.with_connectives 7
           (mkContent 7 AND (Subformulas [3; 5]) 8 2 0)).
  - apply reachable_with_connectives.
  - vm_compute. reflexivity.
Defined.

(** C4 as stated fails on the constants: TRUE and its negation FALSE are
    both in the table of a new pool. *)
Lemma exactly_one_stored_fails :
  ~ (forall p : Pool Sample.constraint,
       reachable p ->
       forall (x : nat) (c : FormulaContent Sample.constraint),
         heap p !! x = Some c ->
         (x ∈ mPool p <-> mNegation c ∉ mPool p)).
Proof.
  intros Hall.
  destruct (Hall init (reachable_init) 1 (mkContent 1 TRUE NoPayload 2 2 0))
    as [Hone _]; [reflexivity|].
  apply Hone; simpl; repeat constructor.
Qed.

(** In [Sample.with_constraint] TRUE, node 1, and its negation FALSE,
    node 2, are both in the table; the constraint [5 > 0], node 4, is the
    negated polarity, and its base is in the table and holds a constraint
    that is less than its negation. *)
Lemma base_polarity_invariant_witness :
  (exists n : FormulaContent Sample.constraint,
     heap Sample.with_constraint !! 2 = Some n
     /\ (1 ∈ mPool Sample.with_constraint)
     /\ (2 ∈ mPool Sample.with_constraint)
     /\ mType n = FALSE)
  /\ exists (b : nat) (bc : FormulaContent Sample.constraint),
       getBaseFormula Sample.with_constraint 4 = Some b
       /\ heap Sample.with_constraint !! b = Some bc
       /\ (4 ∈ mPool Sample.with_constraint
           <-> 3 ∉ mPool Sample.with_constraint)
       /\ b ∈ mPool Sample.with_constraint
       /\ (b = 4 \/ b = 3)
       /\ (exists a, mPayload bc = Constraint_ a
                     /\ constraint_lt a (negation a) = true)
       /\ mType bc <> NOT.
Proof.
  split.
  - destruct (base_polarity_invariant Sample.with_constraint 1
                (mkContent 1 TRUE NoPayload 2 2 0))
      as (n & Hn & Hconst & _);
      [apply reachable_with_constraint|reflexivity|].
    destruct (Hconst (or_introl eq_refl)) as (H1 & H2 & Ht & _).
    destruct (Ht eq_refl) as (_ & _ & Hty).
    exists n. auto.
  - destruct (base_polarity_invariant Sample.with_constraint 4
                (mkContent 4 CONSTRAINT
                   (Constraint_ (Sample.mkConstraint 5 true)) 3 0 0))
      as (n & Hn & _ & Hbase);
      [apply reachable_with_constraint|reflexivity|].
    destruct Hbase as (b & bc & Hb & Hbc & Hone & Hin & _ & _ & Hcon & Hnot);
      [discriminate..|].
    destruct (Hcon eq_refl) as [Hwhich Hless].
    exists b, bc. auto 10.
Defined.

(** The multiset { 3, 3, 3, 4, 4 } over the pool with the variable 3 and
    its negation 4: only 3 survives. *)
Lemma create_multi_parity_witness :
  (exists s,
     PointerSet.ascending s
     /\ (forall x, PointerSet.count x s
                   = PointerSet.count x [3; 3; 3; 4; 4] mod 2)
     /\ Sample.create_multi [3; 3; 3; 4; 4] Sample.with_variable
        = match s with
          | [] => Some (falseFormula Sample.with_variable, Sample.with_variable)
          | [f] => Some (f, Sample.with_variable)
          | _ => Sample.createNAry XOR s Sample.with_variable
          end)
  /\ (forall a, Sample.create_multi [a; a] Sample.with_variable
                = Some (falseFormula Sample.with_variable, Sample.with_variable))
  /\ (forall a, Sample.create_multi [a; a; a] Sample.with_variable
                = Some (a, Sample.with_variable))
  /\ (forall a b c, a < b -> b < c ->
        Sample.create_multi [a; b; b; c; c; c] Sample.with_variable
        = Sample.create_multi [a; c] Sample.with_variable).
Proof.
  apply (create_multi_parity (fun _ _ => None) (fun _ _ => None)
           Sample.createNAry).
  - reflexivity.
  - reflexivity.
  - simpl. repeat (split; [repeat constructor|]). exact I.
Defined.



(** The constraint [5 > 0], node 4, counts on its base polarity, node 3:
    the first handle sets the counter to 2. *)
Lemma reg_free_threshold_witness :
  exists p' t',
    reg 4 Sample.with_constraint = Some p' /\ heap p' !! 3 = Some t'
    /\ mUsages t' = 2%N.
Proof.
  destruct (reg_free_threshold Sample.with_constraint 4 3
              (mkContent 4 CONSTRAINT (Constraint_ (Sample.mkConstraint 5 true))
                 3 0 0)
              (mkContent 3 CONSTRAINT (Constraint_ (Sample.mkConstraint 5 false))
                 4 0 0))
    as [Hreg _]; [reflexivity..|].
  apply Hreg. reflexivity.
Defined.

(** The variable of [Sample.with_variable], node 3, gets the new node 5
    as its placeholder; three more calls return node 5 again. *)
Lemma tseitin_bookkeeping_witness :
  (exists p0, getTseitinVar 3 Sample.with_variable = Some (1, p0)
              /\ same_nodes Sample.with_variable p0)
  /\ exists tv p1 tvc,
       createTseitinVar 3 Sample.with_variable = Some (tv, p1)
       /\ heap Sample.with_variable !! tv = None
       /\ tv <> 1 /\ tv <> 3
       /\ heap p1 !! tv = Some tvc
       /\ mType tvc = BOOL
       /\ mPayload tvc = Variable_ 0
       /\ mDifficulty tvc = 0
       /\ mFreshVariable p1 = 1
       /\ tv ∈ mPool p1
       /\ mTseitinVars p1 !! 3 = Some tv
       /\ mTseitinVarToFormula p1 !! tv = Some 3
       /\ (exists p2, createTseitinVars 3 3 p1 = Some ([tv; tv; tv], p2)
                      /\ same_nodes p1 p2)
       /\ (exists p3, getTseitinVar 3 p1 = Some (tv, p3) /\ same_nodes p1 p3).
Proof.
  apply (tseitin_bookkeeping Sample.with_variable 3
           (mkContent 3 BOOL (Variable_ 7) 4 1 0)
           (mkContent 1 TRUE NoPayload 2 2 0) 3);
    try reflexivity; try apply reachable_with_variable;
    simpl; unfold size_t_max; lia.
Defined.

End FormulaPoolProofs.

(** * Further properties of [AstPool] *)
Module AstPoolLaws.
Import AstPool AstPoolProofs.

(** ** Nodes, ids and shapes *)

Lemma find_shape_None_inv (s : Shape) (l : list Ast) :
  find_shape s l = None -> Forall (fun a => shape a <> s) l.
Proof.
  induction l as [|a l IH]; [constructor|].
  rewrite find_shape_cons. case_bool_decide; [discriminate|].
  intros Hl. constructor; auto.
Qed.

Lemma find_shape_Some (s : Shape) (l : list Ast) (a : Ast) :
  find_shape s l = Some a -> a ∈ l /\ shape a = s.
Proof.
  unfold find_shape. intros Hfind.
  apply List.find_some in Hfind as [Hin Hs].
  apply bool_decide_eq_true in Hs. split; [now apply list_elem_of_In|assumption].
Qed.

Lemma deref_Some (p : Pool) (i : nat) (a : Ast) :
  deref p i = Some a -> a ∈ mAsts p /\ mId a = i.
Proof.
  unfold deref. intros Hfind.
  apply List.find_some in Hfind as [Hin Hi].
  apply Nat.eqb_eq in Hi. split; [now apply list_elem_of_In|assumption].
Qed.

Lemma deref_found (p : Pool) (a : Ast) :
  a ∈ mAsts p -> is_Some (deref p (mId a)).
Proof.
  intros Hin. unfold deref.
  destruct (List.find _ (mAsts p)) as [b|] eqn:Hfind; [eauto|].
  apply list_elem_of_In in Hin.
  pose proof (List.find_none _ _ Hfind a Hin) as Hno. simpl in Hno.
  now rewrite Nat.eqb_refl in Hno.
Qed.

Lemma distinct_interned (p p' : Pool) (s : Shape) (n : nat) :
  invariant p -> candidate p s ->
  (forall a b, a ∈ mAsts p -> b ∈ mAsts p ->
     (mId a = mId b -> a = b) /\ (shape a = shape b -> a = b)) ->
  addAstToPool s p = Some (n, p') ->
  mIdAllocator p <= mIdAllocator p' ->
  forall a b, a ∈ mAsts p' -> b ∈ mAsts p' ->
    (mId a = mId b -> a = b) /\ (shape a = shape b -> a = b).
Proof.
  intros Hinv Hcand Hold Hadd Hle.
  apply addAstToPool_in_range in Hadd;
    [|pose proof (inv_alloc _ Hinv); lia|exact Hle].
  clear Hle. revert Hadd.
  destruct (find_shape s (mAsts p)) eqn:Hfind; [now intros [= _ <-]|].
  cbv zeta.
  pose proof (negated_fresh p s Hinv Hcand) as Hneg. rewrite Hneg.
  intros [= _ <-]. simpl mAsts.
  apply find_shape_None_inv in Hfind.
  apply find_shape_None_inv in Hneg. inversion Hneg as [|? ? Hs Hneg']; subst.
  simpl in Hs.
  pose proof (inv_ids _ Hinv) as Hids.
  assert (Hfresh : forall c, c ∈ mAsts p ->
            mId c < mIdAllocator p /\ shape c <> s
            /\ shape c <> negated (mIdAllocator p)).
  { intros c Hc. repeat split.
    - now apply (proj1 (Forall_forall _ _) Hids).
    - now apply (proj1 (Forall_forall _ _) Hfind).
    - now apply (proj1 (Forall_forall _ _) Hneg'). }
  intros a b Ha Hb.
  apply elem_of_cons in Ha as [->|Ha]; [|apply elem_of_cons in Ha as [->|Ha]];
    (apply elem_of_cons in Hb as [->|Hb]; [|apply elem_of_cons in Hb as [->|Hb]]);
    simpl; try (split; [intros; reflexivity|intros; reflexivity]);
    try (split; intros E; exfalso; first [lia|congruence]);
    try (destruct (Hfresh _ Hb) as (H1 & H2 & H3);
         split; intros E; exfalso; first [lia|congruence]);
    try (destruct (Hfresh _ Ha) as (H1 & H2 & H3);
         split; intros E; exfalso; first [lia|congruence]).
  now apply Hold.
Qed.

Lemma distinct_reachable (p : Pool) (a b : Ast) :
  reachable p ->
  a ∈ mAsts p -> b ∈ mAsts p ->
  (mId a = mId b -> a = b) /\ (shape a = shape b -> a = b).
Proof.
  intros Hreach. revert a b.
  induction Hreach as [|s p n p' Hreach IH Hcand Hadd Hle].
  - intros a b Ha Hb. simpl in Ha, Hb.
    apply elem_of_cons in Ha as [->|Ha];
      [|apply list_elem_of_singleton in Ha as ->];
      (apply elem_of_cons in Hb as [->|Hb];
       [|apply list_elem_of_singleton in Hb as ->]);
      simpl; split; intros E; try reflexivity; discriminate.
  - eapply distinct_interned; eauto using reachable_invariant.
Qed.

(** X1. In every pool that interning leads to before the allocator
    wraps around, a node is determined by its id and also by its shape:
    two nodes of the table with the same id, or with the same shape, are
    one node; and the id of a node of the table leads back to this
    node. *)
Theorem nodes_distinct (p : Pool) (a b : Ast) :
  reachable p ->
  a ∈ mAsts p -> b ∈ mAsts p ->
  (mId a = mId b -> a = b)
  /\ (shape a = shape b -> a = b)
  /\ deref p (mId a) = Some a.
Proof.
  intros Hreach Ha Hb.
  destruct (distinct_reachable p a b Hreach Ha Hb) as [Hid Hshape].
  split; [assumption|]. split; [assumption|].
  destruct (deref_found p a Ha) as [a' Ha'].
  pose proof (deref_Some _ _ _ Ha') as [Hin' Hid'].
  destruct (distinct_reachable p a' a Hreach Hin' Ha) as [Hsame _].
  rewrite Ha'. f_equal. exact (Hsame Hid').
Qed.

(** AND(p, q) and its negation in [Sample.conjunction]. *)
Lemma nodes_distinct_witness :
  (mId (mkAst 7 (mkShape AND [3; 5] 0)) = mId (mkAst 8 (negated 7)) ->
   mkAst 7 (mkShape AND [3; 5] 0) = mkAst 8 (negated 7))
  /\ (shape (mkAst 7 (mkShape AND [3; 5] 0)) = shape (mkAst 8 (negated 7)) ->
      mkAst 7 (mkShape AND [3; 5] 0) = mkAst 8 (negated 7))
  /\ deref Sample.conjunction (mId (mkAst 7 (mkShape AND [3; 5] 0)))
     = Some (mkAst 7 (mkShape AND [3; 5] 0)).
Proof.
  apply (nodes_distinct Sample.conjunction).
  - apply reachable_conjunction.
  - repeat constructor.
  - repeat constructor.
Defined.

(** Id 0 is never handed out. *)
Lemma ids_positive (p : Pool) (a : Ast) :
  reachable p -> a ∈ mAsts p -> 0 < mId a.
Proof.
  induction 1 as [|s p n p' Hreach IH Hcand Hadd Hle]; intros Hin.
  - simpl in Hin. apply elem_of_cons in Hin as [->|Hin];
      [simpl; lia|apply list_elem_of_singleton in Hin as ->; simpl; lia].
  - apply addAstToPool_in_range in Hadd;
      [|pose proof (inv_alloc _ (reachable_invariant _ Hreach)); lia|exact Hle].
    destruct (find_shape s (mAsts p)); [inversion Hadd; subst; auto|].
    cbv zeta in Hadd.
    rewrite negated_fresh in Hadd by eauto using reachable_invariant.
    inversion Hadd; subst. simpl in Hin.
    pose proof (inv_alloc _ (reachable_invariant _ Hreach)).
    apply elem_of_cons in Hin as [->|Hin]; [simpl; lia|].
    apply elem_of_cons in Hin as [->|Hin]; [simpl; lia|auto].
Qed.

(** Interning does not fail, whether the allocator wraps around or
    not. *)
Lemma interned (p : Pool) (s : Shape) :
  reachable p -> candidate p s ->
  exists n p',
    addAstToPool s p = Some (n, p')
    /\ deref p' n = Some (mkAst n s)
    /\ 0 < n.
Proof.
  intros Hreach Hcand.
  pose proof (reachable_invariant p Hreach) as Hinv.
  unfold addAstToPool.
  destruct (find_shape s (mAsts p)) as [a|] eqn:Hfind.
  - apply find_shape_Some in Hfind as [Hin Hshape].
    exists (mId a), p. split; [reflexivity|].
    destruct (deref_found p a Hin) as [b Hb].
    pose proof (deref_Some _ _ _ Hb) as [Hbin Hbid].
    destruct (distinct_reachable p b a Hreach Hbin Hin) as [Hsame _].
    rewrite (Hsame Hbid) in Hb.
    split; [rewrite Hb; destruct a; simpl in *; congruence|].
    now apply (ids_positive p).
  - cbv zeta. rewrite negated_fresh by assumption.
    do 2 eexists. split; [reflexivity|].
    unfold deref. cbn [mAsts mIdAllocator List.find mId].
    rewrite Nat.eqb_refl.
    rewrite (proj2 (Nat.eqb_neq _ _) (increment_other (mIdAllocator p))).
    split; [reflexivity|]. pose proof (inv_alloc _ Hinv). lia.
Qed.

(** While the allocator has room, interning keeps what was published. *)
Lemma interned_in_range (p p' : Pool) (s : Shape) (n : nat) :
  reachable p -> candidate p s -> has_room p ->
  addAstToPool s p = Some (n, p') ->
  (forall i a, deref p i = Some a -> deref p' i = Some a)
  /\ mIdAllocator p <= mIdAllocator p'
  /\ n < mIdAllocator p'.
Proof.
  intros Hreach Hcand Hroom.
  pose proof (reachable_invariant p Hreach) as Hinv.
  destruct (has_room_increment p Hroom) as [E1 E2].
  unfold addAstToPool.
  destruct (find_shape s (mAsts p)) as [a|] eqn:Hfind.
  - apply find_shape_Some in Hfind as [Hin Hshape].
    intros [= <- <-]. split; [auto|]. split; [lia|].
    now apply (proj1 (Forall_forall _ _) (inv_ids _ Hinv)).
  - cbv zeta. rewrite negated_fresh by assumption.
    rewrite E1, E2. intros [= <- <-]. cbn [mIdAllocator].
    split; [|lia].
    intros i a Hi. unfold deref. cbn [mAsts List.find mId].
    pose proof (deref_Some p i a Hi) as [Hin <-].
    assert (mId a < mIdAllocator p)
      by now apply (proj1 (Forall_forall _ _) (inv_ids _ Hinv)).
    destruct (Nat.eqb_spec (S (mIdAllocator p)) (mId a)); [lia|].
    destruct (Nat.eqb_spec (mIdAllocator p) (mId a)); [lia|].
    exact Hi.
Qed.

(** X2. Interning a candidate over published nodes never fails, and it
    returns a node of the table that has the candidate's shape. While
    the allocator has room for two more ids, every node that was
    published before is still there under its id, the allocator does not
    go back, and the pool that is left is again one that interning leads
    to. *)
Theorem addAstToPool_total (p : Pool) (s : Shape) :
  reachable p -> candidate p s ->
  exists n p',
    addAstToPool s p = Some (n, p')
    /\ deref p' n = Some (mkAst n s)
    /\ 0 < n
    /\ (has_room p ->
        reachable p'
        /\ (forall i a, deref p i = Some a -> deref p' i = Some a)
        /\ mIdAllocator p <= mIdAllocator p'
        /\ n < mIdAllocator p').
Proof.
  intros Hreach Hcand.
  destruct (interned p s Hreach Hcand) as (n & p' & Hadd & Hderef & Hpos).
  exists n, p'. split; [assumption|]. split; [assumption|].
  split; [assumption|]. intros Hroom.
  destruct (interned_in_range p p' s n Hreach Hcand Hroom Hadd)
    as (Hkept & Hle & Hlt).
  split; [|auto].
  exact (reachable_add s p n p' Hreach Hcand Hadd Hle).
Qed.

(** OR(p, q) is interned in [Sample.conjunction], whose allocator stands
    at 9. *)
Lemma addAstToPool_total_witness :
  has_room Sample.conjunction
  /\ exists n p',
       addAstToPool (mkShape OR [3; 5] 0) Sample.conjunction = Some (n, p')
       /\ deref p' n = Some (mkAst n (mkShape OR [3; 5] 0))
       /\ 0 < n
       /\ (has_room Sample.conjunction ->
           reachable p'
           /\ (forall i a, deref Sample.conjunction i = Some a ->
                           deref p' i = Some a)
           /\ mIdAllocator Sample.conjunction <= mIdAllocator p'
           /\ n < mIdAllocator p').
Proof.
  split; [unfold has_room, UINT_MAX; simpl; lia|].
  apply (addAstToPool_total Sample.conjunction (mkShape OR [3; 5] 0)).
  - apply reachable_conjunction.
  - repeat constructor.
Defined.

(** ** The scan of [createAst] *)

Lemma next_Some (i j : nat) (s : list nat) :
  PointerSet.next i s = Some j -> i < j /\ j ∈ s.
Proof.
  induction s as [|z s IH]; simpl; [discriminate|].
  destruct (Nat.ltb_spec i z).
  - intros [= <-]. split; [assumption|apply list_elem_of_here].
  - intros Hj. destruct (IH Hj). split; [assumption|].
    now apply list_elem_of_further.
Qed.

Lemma scan_end (fuel : nat) (p : Pool) (_type : FormulaType) (s : list nat) :
  scan fuel p _type s None = Some (Continue s).
Proof. now destruct fuel. Qed.

Lemma operands_erase (p : Pool) (x : nat) (s : list nat) :
  operands p s -> operands p (PointerSet.erase x s).
Proof.
  intros [Hasc Hrange]. split; [now apply ascending_erase|].
  apply Forall_forall. intros y Hy.
  apply elem_of_erase in Hy as [Hy _]; [|assumption].
  now apply (proj1 (Forall_forall _ _) Hrange).
Qed.

Lemma operands_insert (p : Pool) (x : nat) (s : list nat) :
  0 < x < mIdAllocator p -> operands p s ->
  operands p (PointerSet.insert x s).
Proof.
  intros Hx [Hasc Hrange]. split; [now apply ascending_insert|].
  now apply Forall_insert.
Qed.

Lemma operands_insert_range (p : Pool) (xs s : list nat) :
  Forall (fun x => 0 < x < mIdAllocator p) xs -> operands p s ->
  operands p (PointerSet.insert_range xs s).
Proof.
  intros Hxs Hs. unfold PointerSet.insert_range.
  induction Hxs as [|x xs Hx _ IH]; simpl; [assumption|].
  now apply operands_insert.
Qed.

Lemma operands_range (p : Pool) (s : list nat) (x : nat) :
  operands p s -> x ∈ s -> 0 < x < mIdAllocator p.
Proof.
  intros [_ Hrange] Hx. exact (proj1 (Forall_forall _ _) Hrange x Hx).
Qed.

(** With one unit of fuel for every id from the iterator up to the
    allocator the scan comes to an end. For AND, OR and IFF an early
    return is the constant of the connective; otherwise the operand set
    that is left is again in ascending order over published nodes, it is
    the set as it was for IFF, it is not empty for XOR, and for AND and
    OR it still holds every operand of another tag. *)
Lemma scan_result (p : Pool) (_type : FormulaType) :
  invariant p ->
  _type = AND \/ _type = OR \/ _type = XOR \/ _type = IFF ->
  forall (fuel : nat) (s : list nat) (i : nat),
    mIdAllocator p - i <= fuel ->
    operands p s -> i ∈ s ->
    exists r,
      scan fuel p _type s (Some i) = Some r
      /\ match r with
         | Return c =>
             _type <> XOR
             /\ c = (if bool_decide (_type = OR) then mpTrue p else mpFalse p)
         | Continue s' =>
             operands p s'
             /\ (_type = XOR -> s' <> [])
             /\ (_type = IFF -> s' = s)
             /\ (_type = AND \/ _type = OR ->
                 forall x X, x ∈ s -> deref p x = Some X ->
                             getType X <> _type -> x ∈ s')
         end.
Proof.
  intros Hinv Hty.
  assert (Htrue : 0 < mpTrue p < mIdAllocator p).
  { rewrite (inv_true _ Hinv). pose proof (inv_alloc _ Hinv). lia. }
  induction fuel as [|fuel IH]; intros s i Hfuel Hs Hi.
  { pose proof (operands_range p s i Hs Hi). lia. }
  pose proof (operands_range p s i Hs Hi) as Hirange.
  cbn [scan].
  destruct (inv_dense _ Hinv i Hirange) as [Ai HAi]. rewrite HAi.
  destruct (bool_decide (getType Ai = _type)
            && (bool_decide (_type = AND) || bool_decide (_type = OR)))
    eqn:Hflat.
  - (* the operand is replaced by its own operands *)
    apply andb_true_iff in Hflat as [Hsame Hao].
    apply bool_decide_eq_true in Hsame.
    assert (Hand_or : _type = AND \/ _type = OR).
    { apply orb_true_iff in Hao as [E|E]; apply bool_decide_eq_true in E; auto. }
    set (s1 := PointerSet.insert_range (subasts Ai) s).
    assert (Hs1 : operands p s1).
    { apply operands_insert_range; [|assumption].
      pose proof (inv_subasts _ Hinv) as Hsub.
      exact (proj1 (Forall_forall _ _) Hsub Ai (deref_elem _ _ _ HAi)). }
    assert (Hs2 : operands p (PointerSet.erase i s1))
      by now apply operands_erase.
    assert (Hkeep : forall x X, x ∈ s -> deref p x = Some X ->
                                getType X <> _type ->
                                x ∈ PointerSet.erase i s1).
    { intros x X Hx HX HtyX. apply elem_of_erase; [apply Hs1|].
      split; [apply elem_of_insert_range; auto|].
      intros ->. rewrite HAi in HX. inversion HX; subst. contradiction. }
    destruct (PointerSet.next i s1) as [j|] eqn:Hj.
    + apply next_Some in Hj as [Hij Hjin].
      assert (Hj2 : j ∈ PointerSet.erase i s1).
      { apply elem_of_erase; [apply Hs1|]. split; [assumption|lia]. }
      pose proof (operands_range p _ j Hs2 Hj2) as Hjrange.
      destruct (IH (PointerSet.erase i s1) j) as (r & Hr & Hgood);
        [lia|assumption|assumption|].
      exists r. split; [assumption|].
      destruct r as [c|s']; [assumption|].
      destruct Hgood as (Hs' & Hxor & Hiff & Hmem).
      split; [assumption|]. split; [assumption|].
      split; [destruct Hand_or; congruence|].
      intros Hao' x X Hx HX HtyX. eapply Hmem; eauto.
    + rewrite scan_end. eexists. split; [reflexivity|].
      split; [assumption|].
      split; [destruct Hand_or; congruence|].
      split; [destruct Hand_or; congruence|].
      intros _ x X Hx HX HtyX. eauto.
  - destruct (PointerSet.next i s) as [j|] eqn:Hj.
    2:{ rewrite scan_end. eexists. split; [reflexivity|].
        split; [assumption|]. split.
        - intros _ ->. now apply elem_of_nil in Hi.
        - split; [reflexivity|]. intros _ x X Hx _ _. exact Hx. }
    apply next_Some in Hj as [Hij Hjin].
    pose proof (operands_range p s j Hs Hjin) as Hjrange.
    destruct (inv_dense _ Hinv j Hjrange) as [Bj HBj]. rewrite HBj.
    destruct ((i =? mpTrue p) && (j =? mpFalse p)
              || bool_decide (getType Bj = NOT)
                 && bool_decide (subasts Bj = [i])).
    + destruct Hty as [->|[->|[->| ->]]].
      * eexists. split; [reflexivity|]. split; [discriminate|reflexivity].
      * eexists. split; [reflexivity|]. split; [discriminate|reflexivity].
      * (* XOR: the pair is replaced by TRUE *)
        set (s1 := PointerSet.erase i s).
        set (s3 := PointerSet.insert (mpTrue p)
                     (PointerSet.erase j s1)).
        assert (Hs3 : operands p s3).
        { apply operands_insert; [assumption|].
          now apply operands_erase, operands_erase. }
        assert (Hne : s3 <> []).
        { intros E. assert (Hin : mpTrue p ∈ s3)
            by (apply elem_of_insert; auto).
          rewrite E in Hin. now apply elem_of_nil in Hin. }
        destruct (PointerSet.next j s1) as [j'|] eqn:Hj'.
        -- apply next_Some in Hj' as [Hjj' Hj'in].
           assert (Hj'3 : j' ∈ s3).
           { apply elem_of_insert. right.
             apply elem_of_erase; [exact (proj1 (operands_erase p i s Hs))|].
             split; [assumption|lia]. }
           pose proof (operands_range p s3 j' Hs3 Hj'3).
           destruct (IH s3 j') as (r & Hr & Hgood);
             [lia|assumption|assumption|].
           exists r. split; [assumption|].
           destruct r as [c|s']; [assumption|].
           destruct Hgood as (Hs' & Hxor & _ & _).
           split; [assumption|]. split; [assumption|].
           split; [discriminate|]. intros [E|E]; discriminate.
        -- rewrite scan_end. eexists. split; [reflexivity|].
           split; [assumption|]. split; [auto|].
           split; [discriminate|]. intros [E|E]; discriminate.
      * eexists. split; [reflexivity|]. split; [discriminate|reflexivity].
    + destruct (IH s j) as (r & Hr & Hgood); [lia|assumption|assumption|].
      exists r. split; [assumption|]. exact Hgood.
Qed.

(** The scan for IFF leaves the set as it is, so it comes to every
    element: a set that holds an operand and, right after it, its
    negation makes it return FALSE. *)
Lemma scan_iff_pair (p : Pool) (a : nat) (B : Ast) :
  invariant p ->
  deref p (S a) = Some B ->
  (getType B = NOT /\ subasts B = [a])
  \/ (a = mpTrue p /\ S a = mpFalse p) ->
  forall (fuel : nat) (s : list nat) (i : nat),
    a - i < fuel -> i <= a ->
    operands p s -> i ∈ s -> a ∈ s -> S a ∈ s ->
    scan fuel p IFF s (Some i) = Some (Return (mpFalse p)).
Proof.
  intros Hinv HB Hneg.
  induction fuel as [|fuel IH]; intros s i Hfuel Hia Hs Hi Ha HSa; [lia|].
  cbn [scan].
  destruct (inv_dense _ Hinv i (operands_range p s i Hs Hi)) as [Ai HAi].
  rewrite HAi.
  replace (bool_decide (IFF = AND) || bool_decide (IFF = OR)) with false
    by reflexivity.
  rewrite andb_false_r.
  destruct (decide (i = a)) as [->|Hne].
  - destruct (next_spec a (S a) s) as (j & Hj & Hr & _);
      [apply Hs|assumption|lia|].
    assert (j = S a) as -> by lia.
    rewrite Hj, HB.
    replace ((a =? mpTrue p) && (S a =? mpFalse p)
             || bool_decide (getType B = NOT) && bool_decide (subasts B = [a]))
      with true; [reflexivity|].
    destruct Hneg as [[HBnot HBsub]|[Etrue Efalse]].
    + rewrite HBnot, HBsub.
      rewrite !bool_decide_eq_true_2 by reflexivity.
      now rewrite orb_true_r.
    + rewrite <- Etrue, <- Efalse. now rewrite !Nat.eqb_refl.
  - destruct (next_spec i a s) as (j & Hj & Hr & Hjin);
      [apply Hs|assumption|lia|].
    rewrite Hj.
    destruct (inv_dense _ Hinv j (operands_range p s j Hs Hjin)) as [Bj HBj].
    rewrite HBj.
    destruct ((i =? mpTrue p) && (j =? mpFalse p) || _); [reflexivity|].
    apply IH; try assumption; lia.
Qed.

(** The constants have the two least ids, so in a set of published nodes
    they are where the simplification looks for them. *)
Lemma find_constants_spec (p : Pool) (s : list nat) :
  invariant p -> operands p s ->
  (mpTrue p ∈ s -> fst (find_constants p s) <> None)
  /\ (mpFalse p ∈ s -> snd (find_constants p s) <> None).
Proof.
  intros Hinv [Hasc Hrange].
  rewrite (inv_true _ Hinv), (inv_false _ Hinv).
  destruct s as [|x rest]; [split; intros E; now apply elem_of_nil in E|].
  destruct Hasc as [Hx Hrest].
  apply Forall_cons in Hrange as [Hxr Hrr].
  unfold find_constants. rewrite (inv_true _ Hinv), (inv_false _ Hinv).
  destruct (Nat.eqb_spec x 1) as [->|Hx1].
  - split; [discriminate|]. cbn [snd]. intros H2.
    apply elem_of_cons in H2 as [H2|H2]; [discriminate|].
    destruct rest as [|y rest']; [now apply elem_of_nil in H2|].
    apply Forall_cons in Hx as [Hy _]. destruct Hrest as [Hy' _].
    apply elem_of_cons in H2 as [<-|H2]; [discriminate|].
    apply (proj1 (Forall_forall _ _) Hy') in H2.
    destruct (Nat.eqb_spec y 2); [discriminate|lia].
  - split; cbn [fst snd].
    + intros H1. apply elem_of_cons in H1 as [H1|H1]; [congruence|].
      apply (proj1 (Forall_forall _ _) Hx) in H1. lia.
    + intros H2. apply elem_of_cons in H2 as [<-|H2]; [discriminate|].
      apply (proj1 (Forall_forall _ _) Hx) in H2. lia.
Qed.

Section CreateAstLaws.
Variable SIMPLIFY_AST : bool.
Variable newAstWithOneSubast :
  FormulaType -> nat -> Pool -> option (nat * Pool).

Lemma finish_cases (p : Pool) (_type : FormulaType) (s : list nat) :
  reachable p -> operands p s -> s <> [] ->
  (exists x, 0 < x < mIdAllocator p
             /\ finish newAstWithOneSubast p _type s
                = newAstWithOneSubast _type x p)
  \/ (exists n p',
        2 <= length s
        /\ finish newAstWithOneSubast p _type s = Some (n, p')
        /\ deref p' n = Some (mkAst n (mkShape _type s 0))).
Proof.
  intros Hreach Hs Hne. destruct s as [|x [|y s]]; [congruence| |].
  - left. exists x. split; [|reflexivity].
    apply (operands_range p [x]); [assumption|apply list_elem_of_here].
  - right. cbn [finish].
    destruct (interned p (mkShape _type (x :: y :: s) 0) Hreach (proj2 Hs))
      as (n & p' & Hadd & Hderef & _).
    exists n, p'. split; [simpl; lia|]. auto.
Qed.

(** X3. With fuel up to the allocator [createAst] comes to an end, and
    what it returns is one of three things: a constant, with the pool
    unchanged; what [newAstWithOneSubast] makes of a single operand that
    is left; or a node of the connective asked for whose operands are at
    least two published nodes in ascending order of their ids. *)
Theorem createAst_cases (p : Pool) (_type : FormulaType) (s : list nat)
    (fuel : nat) :
  reachable p ->
  _type = AND \/ _type = OR \/ _type = XOR \/ _type = IFF ->
  operands p s ->
  mIdAllocator p <= fuel ->
  (exists c,
     createAst SIMPLIFY_AST newAstWithOneSubast fuel _type s p = Some (c, p)
     /\ (c = mpTrue p \/ c = mpFalse p))
  \/ (exists x,
        0 < x < mIdAllocator p
        /\ createAst SIMPLIFY_AST newAstWithOneSubast fuel _type s p
           = newAstWithOneSubast _type x p)
  \/ (exists s' n p',
        2 <= length s' /\ operands p s'
        /\ createAst SIMPLIFY_AST newAstWithOneSubast fuel _type s p
           = Some (n, p')
        /\ deref p' n = Some (mkAst n (mkShape _type s' 0))).
Proof.
  intros Hreach Hty Hs Hfuel.
  pose proof (reachable_invariant p Hreach) as Hinv.
  assert (Hfinish : forall s0,
            operands p s0 -> s0 <> [] ->
            (exists c, finish newAstWithOneSubast p _type s0 = Some (c, p)
                       /\ (c = mpTrue p \/ c = mpFalse p))
            \/ (exists x, 0 < x < mIdAllocator p
                          /\ finish newAstWithOneSubast p _type s0
                             = newAstWithOneSubast _type x p)
            \/ (exists s' n p',
                  2 <= length s' /\ operands p s'
                  /\ finish newAstWithOneSubast p _type s0 = Some (n, p')
                  /\ deref p' n = Some (mkAst n (mkShape _type s' 0)))).
  { intros s0 Hs0 Hne.
    destruct (finish_cases p _type s0 Hreach Hs0 Hne)
      as [(x & Hx & E)|(n & p' & Hlen & E & Hd)].
    - right. left. eauto.
    - right. right. exists s0, n, p'. auto. }
  assert (Hafter : forall s0,
            operands p s0 ->
            (exists c, after_scan SIMPLIFY_AST newAstWithOneSubast p _type s0
                       = Some (c, p)
                       /\ (c = mpTrue p \/ c = mpFalse p))
            \/ (exists x, 0 < x < mIdAllocator p
                          /\ after_scan SIMPLIFY_AST newAstWithOneSubast p _type s0
                             = newAstWithOneSubast _type x p)
            \/ (exists s' n p',
                  2 <= length s' /\ operands p s'
                  /\ after_scan SIMPLIFY_AST newAstWithOneSubast p _type s0
                     = Some (n, p')
                  /\ deref p' n = Some (mkAst n (mkShape _type s' 0)))).
  { intros s0 Hs0. unfold after_scan.
    destruct s0 as [|x0 rest]; [left; eauto|].
    set (s1 := x0 :: rest) in *.
    assert (Hne : s1 <> []) by discriminate.
    destruct (SIMPLIFY_AST && _); [|now apply Hfinish].
    destruct (find_constants p s1) as [iterToTrue iterToFalse].
    destruct _type; try (now apply Hfinish).
    - (* AND *)
      case_bool_decide; [left; eauto|].
      set (s2 := match iterToTrue with
                 | Some t => PointerSet.erase t s1
                 | None => s1
                 end).
      assert (Hs2 : operands p s2)
        by (subst s2; destruct iterToTrue; auto using operands_erase).
      destruct s2 as [|y2 rest2] eqn:E2; [left; eauto|].
      rewrite <- E2. apply Hfinish; [now rewrite E2|rewrite E2; discriminate].
    - (* OR *)
      case_bool_decide; [left; eauto|].
      set (s2 := match iterToFalse with
                 | Some f => PointerSet.erase f s1
                 | None => s1
                 end).
      assert (Hs2 : operands p s2)
        by (subst s2; destruct iterToFalse; auto using operands_erase).
      destruct s2 as [|y2 rest2] eqn:E2; [left; eauto|].
      rewrite <- E2. apply Hfinish; [now rewrite E2|rewrite E2; discriminate].
    - (* IFF *)
      destruct (_ && _); [left; eauto|now apply Hfinish]. }
  unfold createAst.
  replace (bool_decide (_type = AND) || bool_decide (_type = OR)
           || bool_decide (_type = XOR) || bool_decide (_type = IFF))
    with true by (destruct Hty as [->|[->|[->| ->]]]; reflexivity).
  destruct s as [|i rest].
  - simpl PointerSet.begin. rewrite scan_end. now apply Hafter.
  - simpl PointerSet.begin.
    destruct (scan_result p _type Hinv Hty fuel (i :: rest) i)
      as (r & Hr & Hgood); [lia|assumption|apply list_elem_of_here|].
    rewrite Hr. destruct r as [c|s'].
    + left. exists c. split; [reflexivity|].
      destruct Hgood as [_ ->]. case_bool_decide; auto.
    + apply Hafter. apply Hgood.
Qed.

(** X4. IFF over an operand set that holds a formula and its negation
    (the NOT node after it, or FALSE after TRUE) is FALSE, whatever the
    formula is: the scan does not rewrite the operands of an IFF, so it
    meets the pair. *)
Theorem createAst_iff_absorbs (p : Pool) (a : nat) (B : Ast) (s : list nat)
    (fuel : nat) :
  reachable p ->
  deref p (S a) = Some B ->
  (getType B = NOT /\ subasts B = [a])
  \/ (a = mpTrue p /\ S a = mpFalse p) ->
  operands p s ->
  a ∈ s -> S a ∈ s ->
  a < fuel ->
  createAst SIMPLIFY_AST newAstWithOneSubast fuel IFF s p
  = Some (mpFalse p, p).
Proof.
  intros Hreach HB Hneg Hs Ha HSa Hfuel.
  apply reachable_invariant in Hreach.
  unfold createAst. cbn [orb bool_decide].
  replace (bool_decide (IFF = AND) || bool_decide (IFF = OR)
           || bool_decide (IFF = XOR) || bool_decide (IFF = IFF))
    with true by reflexivity.
  destruct (begin_spec a s (proj1 Hs) Ha) as (i & Hi & Hle & Hin).
  rewrite Hi.
  rewrite (scan_iff_pair p a B Hreach HB Hneg fuel s i);
    try assumption; [reflexivity|lia].
Qed.

(** X5. With SIMPLIFY_AST defined, FALSE among the operands makes an AND
    FALSE and TRUE among the operands makes an OR TRUE, whatever the
    other operands are; the pool is left as it is. *)
Theorem createAst_annihilator (p : Pool) (_type : FormulaType) (c : nat)
    (s : list nat) (fuel : nat) :
  reachable p ->
  (_type = AND /\ c = mpFalse p) \/ (_type = OR /\ c = mpTrue p) ->
  operands p s ->
  c ∈ s ->
  mIdAllocator p <= fuel ->
  createAst true newAstWithOneSubast fuel _type s p = Some (c, p).
Proof.
  intros Hreach Hty Hs Hc Hfuel.
  pose proof (reachable_invariant p Hreach) as Hinv.
  destruct Hty as [[-> ->]|[-> ->]].
  - unfold createAst.
    replace (bool_decide (AND = AND) || bool_decide (AND = OR)
             || bool_decide (AND = XOR) || bool_decide (AND = IFF))
      with true by reflexivity.
    destruct (begin_spec _ s (proj1 Hs) Hc) as (i & Hi & _ & Hin).
    rewrite Hi.
    destruct (scan_result p AND Hinv (or_introl eq_refl) fuel s i)
      as (r & Hr & Hgood); [lia|assumption|assumption|].
    rewrite Hr. destruct r as [c|s'].
    + destruct Hgood as [_ ->]. reflexivity.
    + destruct Hgood as (Hs' & _ & _ & Hkeep).
      assert (Hc' : mpFalse p ∈ s').
      { apply (Hkeep (or_introl eq_refl) _ (mkAst 2 (mkShape FALSE [] 0)));
          [assumption| |discriminate].
        rewrite (inv_false _ Hinv). apply (inv_deref_false _ Hinv). }
      pose proof (proj2 (find_constants_spec p s' Hinv Hs') Hc') as Hfound.
      unfold after_scan.
      destruct s' as [|x rest]; [reflexivity|].
      cbn [andb].
      replace (bool_decide (AND = AND) || bool_decide (AND = OR)
               || bool_decide (AND = IFF)) with true by reflexivity.
      destruct (find_constants p (x :: rest)) as [iterToTrue iterToFalse].
      cbn [snd] in Hfound.
      now rewrite (bool_decide_eq_true_2 _ Hfound).
  - unfold createAst.
    replace (bool_decide (OR = AND) || bool_decide (OR = OR)
             || bool_decide (OR = XOR) || bool_decide (OR = IFF))
      with true by reflexivity.
    destruct (begin_spec _ s (proj1 Hs) Hc) as (i & Hi & _ & Hin).
    rewrite Hi.
    destruct (scan_result p OR Hinv (or_intror (or_introl eq_refl)) fuel s i)
      as (r & Hr & Hgood); [lia|assumption|assumption|].
    rewrite Hr. destruct r as [c|s'].
    + destruct Hgood as [_ ->]. reflexivity.
    + destruct Hgood as (Hs' & _ & _ & Hkeep).
      assert (Hc' : mpTrue p ∈ s').
      { apply (Hkeep (or_intror eq_refl) _ (mkAst 1 (mkShape TRUE [] 0)));
          [assumption| |discriminate].
        rewrite (inv_true _ Hinv). apply (inv_deref_true _ Hinv). }
      pose proof (proj1 (find_constants_spec p s' Hinv Hs') Hc') as Hfound.
      unfold after_scan.
      destruct s' as [|x rest]; [now apply elem_of_nil in Hc'|].
      cbn [andb].
      replace (bool_decide (OR = AND) || bool_decide (OR = OR)
               || bool_decide (OR = IFF)) with true by reflexivity.
      destruct (find_constants p (x :: rest)) as [iterToTrue iterToFalse].
      cbn [fst] in Hfound.
      now rewrite (bool_decide_eq_true_2 _ Hfound).
Qed.


Ltac compare_ids :=
  repeat match goal with
    | |- context [?x <? ?y] =>
        first [ rewrite (proj2 (Nat.ltb_lt x y)) by lia
              | rewrite (proj2 (Nat.ltb_ge x y)) by lia ]
    | |- context [?x =? ?y] =>
        first [ rewrite (proj2 (Nat.eqb_eq x y)) by lia
              | rewrite (proj2 (Nat.eqb_neq x y)) by lia ]
    end.

Lemma scan_two (p : Pool) (_type : FormulaType) (c a : nat) (A : Ast)
    (fuel : nat) :
  invariant p ->
  _type = AND \/ _type = OR ->
  c = mpTrue p \/ c = mpFalse p ->
  deref p a = Some A -> 2 < a ->
  getType A <> _type ->
  ~ (getType A = NOT /\ subasts A = [c]) ->
  scan (S (S fuel)) p _type [c; a] (Some c) = Some (Continue [c; a]).
Proof.
  intros Hinv Hty Hc HA Ha HtyA Hnot.
  pose proof (inv_true _ Hinv) as Ht. pose proof (inv_false _ Hinv) as Hf.
  assert (Hdc : exists C0, deref p c = Some C0
                           /\ (getType C0 = TRUE \/ getType C0 = FALSE)).
  { destruct Hc as [->| ->].
    - rewrite Ht, (inv_deref_true _ Hinv). eauto.
    - rewrite Hf, (inv_deref_false _ Hinv). eauto. }
  destruct Hdc as (C0 & HC0 & HtyC).
  assert (Hca : c < a) by (destruct Hc; lia).
  cbn [scan]. rewrite HC0.
  rewrite (bool_decide_eq_false_2 (getType C0 = _type))
    by (destruct Hty, HtyC; congruence).
  cbn [andb PointerSet.next].
  rewrite Nat.ltb_irrefl, (proj2 (Nat.ltb_lt c a) Hca). cbv iota.
  rewrite HA.
  replace (a =? mpFalse p) with false
    by (symmetry; apply Nat.eqb_neq; lia).
  rewrite andb_false_r. cbn [orb].
  replace (bool_decide (getType A = NOT) && bool_decide (subasts A = [c]))
    with false.
  2:{ symmetry. apply andb_false_iff.
      destruct (decide (getType A = NOT)) as [E1|E1];
        [right|left; now apply bool_decide_eq_false_2].
      apply bool_decide_eq_false_2. tauto. }
  cbv iota. cbn [scan]. rewrite ?HA, (bool_decide_eq_false_2 (getType A = _type)) by assumption.
  cbn [andb]. rewrite ?Nat.ltb_irrefl.
  replace (a <? c) with false by (symmetry; apply Nat.ltb_ge; lia).
  cbv iota. apply scan_end.
Qed.

(** X6. With SIMPLIFY_AST defined, TRUE is dropped from a conjunction
    and FALSE from a disjunction: AND over TRUE and one more operand, or
    OR over FALSE and one more operand, is what [newAstWithOneSubast]
    makes of that operand alone, provided the operand is neither of the
    connective's own tag nor the NOT node of the constant. *)
Theorem createAst_identity (p : Pool) (_type : FormulaType) (c a : nat)
    (A : Ast) (fuel : nat) :
  reachable p ->
  (_type = AND /\ c = mpTrue p) \/ (_type = OR /\ c = mpFalse p) ->
  deref p a = Some A -> 2 < a ->
  getType A <> _type ->
  ~ (getType A = NOT /\ subasts A = [c]) ->
  2 <= fuel ->
  createAst true newAstWithOneSubast fuel _type [c; a] p
  = newAstWithOneSubast _type a p.
Proof.
  intros Hreach Hty HA Ha HtyA Hnot Hfuel.
  pose proof (reachable_invariant p Hreach) as Hinv.
  destruct fuel as [|[|fuel]]; [lia..|].
  unfold createAst.
  replace (bool_decide (_type = AND) || bool_decide (_type = OR)
           || bool_decide (_type = XOR) || bool_decide (_type = IFF))
    with true by (destruct Hty as [[-> _]|[-> _]]; reflexivity).
  cbn [PointerSet.begin head].
  rewrite (scan_two p _type c a A fuel Hinv); try assumption;
    [|destruct Hty; tauto..].
  unfold after_scan, find_constants. cbn [andb].
  pose proof (inv_true _ Hinv) as Ht. pose proof (inv_false _ Hinv) as Hf.
  destruct Hty as [[-> ->]|[-> ->]].
  - compare_ids.
    cbn [PointerSet.erase]. compare_ids.
    rewrite (bool_decide_eq_false_2 (None <> None)) by tauto.
    reflexivity.
  - compare_ids.
    cbn [PointerSet.erase]. compare_ids.
    rewrite (bool_decide_eq_false_2 (None <> None)) by tauto.
    reflexivity.
Qed.


(** X7. XOR over a formula and its negation replaces the pair by TRUE
    and hands TRUE to [newAstWithOneSubast]. The operands are a set: if
    TRUE was an operand already, the TRUE that stands for the pair is
    that same element, and the result is the same as without it. *)
Theorem createAst_xor_pair (p : Pool) (a : nat) (A B : Ast) (s : list nat)
    (fuel : nat) :
  reachable p ->
  deref p a = Some A ->
  deref p (S a) = Some B ->
  getType B = NOT -> subasts B = [a] ->
  s = [a; S a]
  \/ (s = [mpTrue p; a; S a] /\ 2 < a
      /\ ~ (getType A = NOT /\ subasts A = [mpTrue p])) ->
  2 <= fuel ->
  createAst SIMPLIFY_AST newAstWithOneSubast fuel XOR s p
  = newAstWithOneSubast XOR (mpTrue p) p.
Proof.
  intros Hreach HA HB HBnot HBsub Hs Hfuel.
  pose proof (reachable_invariant p Hreach) as Hinv.
  pose proof (inv_true _ Hinv) as Ht. pose proof (inv_false _ Hinv) as Hf.
  destruct fuel as [|[|fuel]]; [lia..|].
  assert (Hpair : bool_decide (getType B = NOT)
                  && bool_decide (subasts B = [a]) = true).
  { rewrite HBnot, HBsub. now rewrite !bool_decide_eq_true_2. }
  assert (Hguard : bool_decide (XOR = AND) || bool_decide (XOR = OR) = false)
    by reflexivity.
  assert (Hlast : forall f,
            scan (S f) p XOR s (Some a) = Some (Continue [mpTrue p])).
  { intros f. cbn [scan]. rewrite HA, Hguard, andb_false_r.
    destruct Hs as [->|(-> & Ha & _)]; cbn [PointerSet.next];
      compare_ids; cbv iota; rewrite HB, Hpair, orb_true_r;
      cbn [PointerSet.erase PointerSet.next]; compare_ids;
      cbn [PointerSet.erase PointerSet.next]; compare_ids;
      cbn [PointerSet.insert]; compare_ids; apply scan_end. }
  assert (Hscan : scan (S (S fuel)) p XOR s (PointerSet.begin s)
                  = Some (Continue [mpTrue p])).
  { destruct Hs as [E|(E & Ha & HnotA)].
    - rewrite E at 2. cbn [PointerSet.begin head]. apply Hlast.
    - rewrite E at 2. cbn [PointerSet.begin head].
      remember (S fuel) as fuel1 eqn:Efuel.
      cbn [scan]. rewrite Ht at 1. rewrite (inv_deref_true _ Hinv).
      unfold getType at 1. cbn [shape sType].
      rewrite (bool_decide_eq_false_2 (TRUE = XOR)) by discriminate.
      cbn [andb]. rewrite E at 1. cbn [PointerSet.next].
      compare_ids. cbv iota. rewrite HA.
      replace (bool_decide (getType A = NOT)
               && bool_decide (subasts A = [mpTrue p])) with false.
      2:{ symmetry. apply andb_false_iff.
          destruct (decide (getType A = NOT)) as [E1|E1];
            [right|left; now apply bool_decide_eq_false_2].
          apply bool_decide_eq_false_2. tauto. }
      compare_ids. cbn [andb orb]. subst fuel1. apply Hlast. }
  unfold createAst.
  replace (bool_decide (XOR = AND) || bool_decide (XOR = OR)
           || bool_decide (XOR = XOR) || bool_decide (XOR = IFF))
    with true by reflexivity.
  rewrite Hscan. unfold after_scan.
  replace (bool_decide (XOR = AND) || bool_decide (XOR = OR)
           || bool_decide (XOR = IFF)) with false by reflexivity.
  now rewrite andb_false_r.
Qed.

End CreateAstLaws.

Lemma createAst_cases_witness :
  (exists c,
     createAst true Sample.oneSubast 9 OR [3; 5; 7] Sample.conjunction
     = Some (c, Sample.conjunction)
     /\ (c = mpTrue Sample.conjunction \/ c = mpFalse Sample.conjunction))
  \/ (exists x,
        0 < x < mIdAllocator Sample.conjunction
        /\ createAst true Sample.oneSubast 9 OR [3; 5; 7] Sample.conjunction
           = Sample.oneSubast OR x Sample.conjunction)
  \/ (exists s' n p',
        2 <= length s' /\ operands Sample.conjunction s'
        /\ createAst true Sample.oneSubast 9 OR [3; 5; 7] Sample.conjunction
           = Some (n, p')
        /\ deref p' n = Some (mkAst n (mkShape OR s' 0))).
Proof.
  apply (createAst_cases true Sample.oneSubast Sample.conjunction OR
           [3; 5; 7] 9).
  - apply reachable_conjunction.
  - auto.
  - split; [simpl; repeat constructor|repeat constructor].
  - simpl. lia.
Defined.

(** IFF over { AND(p, q), NOT AND(p, q) } in [Sample.conjunction]. *)
Lemma createAst_iff_absorbs_witness :
  createAst true Sample.oneSubast 8 IFF [7; 8] Sample.conjunction
  = Some (2, Sample.conjunction).
Proof.
  apply (createAst_iff_absorbs true Sample.oneSubast Sample.conjunction 7
           (mkAst 8 (negated 7)) [7; 8] 8).
  - apply reachable_conjunction.
  - reflexivity.
  - left. split; reflexivity.
  - split; [simpl; repeat constructor|repeat constructor].
  - repeat constructor.
  - repeat constructor.
  - lia.
Defined.

(** OR over { TRUE, p, AND(p, q) } in [Sample.conjunction]. *)
Lemma createAst_annihilator_witness :
  createAst true Sample.oneSubast 9 OR [1; 3; 7] Sample.conjunction
  = Some (1, Sample.conjunction).
Proof.
  apply (createAst_annihilator Sample.oneSubast Sample.conjunction OR 1
           [1; 3; 7] 9).
  - apply reachable_conjunction.
  - right. split; reflexivity.
  - split; [simpl; repeat constructor|repeat constructor].
  - repeat constructor.
  - simpl. lia.
Defined.

(** AND over { TRUE, p } in [Sample.conjunction]. *)
Lemma createAst_identity_witness :
  createAst true Sample.oneSubast 2 AND [1; 3] Sample.conjunction
  = Sample.oneSubast AND 3 Sample.conjunction.
Proof.
  apply (createAst_identity Sample.oneSubast Sample.conjunction AND 1 3
           (mkAst 3 (mkShape BOOL [] 1)) 2).
  - apply reachable_conjunction.
  - left. split; reflexivity.
  - reflexivity.
  - lia.
  - discriminate.
  - intros [E _]. discriminate E.
  - lia.
Defined.

(** XOR over { TRUE, p, NOT p } in [Sample.conjunction]. *)
Lemma createAst_xor_pair_witness :
  createAst true Sample.oneSubast 2 XOR [1; 3; 4] Sample.conjunction
  = Sample.oneSubast XOR 1 Sample.conjunction.
Proof.
  apply (createAst_xor_pair true Sample.oneSubast Sample.conjunction 3
           (mkAst 3 (mkShape BOOL [] 1)) (mkAst 4 (negated 3)) [1; 3; 4] 2).
  - apply reachable_conjunction.
  - reflexivity.
  - reflexivity.
  - reflexivity.
  - reflexivity.
  - right. split; [reflexivity|]. split; [lia|].
    intros [E _]. discriminate E.
  - lia.
Defined.

End AstPoolLaws.

(** * Further properties of [FormulaPool] *)
Module FormulaPoolLaws.
Import FormulaPool FormulaPoolProofs.

Section Laws.
Context {C : Type} `{ConstraintOps C}.
Implicit Types (p : Pool C) (t e c : FormulaContent C).

(** ** Handles that are released again *)

Lemma with_usages_id p (tmp : nat) t :
  heap p !! tmp = Some t -> with_usages p tmp t (mUsages t) = p.
Proof.
  intros Htmp. unfold with_usages, set_heap.
  replace (set_usages (mUsages t) t) with t by now destruct t.
  rewrite insert_id by assumption. now destruct p.
Qed.

Lemma frees_in_use p (f tmp : nat) t (n : nat) (u : N) :
  getBaseFormula p f = Some tmp ->
  heap p !! tmp = Some t ->
  (2 <= u)%N ->
  calls (replicate n (Free f)) (with_usages p tmp t (u + N.of_nat n))
  = Some (with_usages p tmp t u).
Proof.
  intros Hbase Htmp Hu. induction n as [|n IH].
  - simpl. now rewrite N.add_0_r.
  - cbn [replicate calls call].
    rewrite (free_in_use p f tmp t Hbase Htmp) by lia.
    replace (u + N.of_nat (S n) - 1)%N with (u + N.of_nat n)%N by lia.
    exact IH.
Qed.

(** X8. Handles taken and given back: on a formula whose counter is at
    least 2, [n] calls of [reg] followed by [n] calls of [free] leave the
    pool exactly as it was. *)
Theorem balanced_handles p (f tmp : nat) e t (n : nat) :
  heap p !! f = Some e ->
  getBaseFormula p f = Some tmp ->
  heap p !! tmp = Some t ->
  (2 <= mUsages t)%N ->
  (mUsages t + N.of_nat n <= size_t_max)%N ->
  calls (replicate n (Reg f) ++ replicate n (Free f)) p = Some p.
Proof.
  intros Hf Hbase Htmp Hu Hmax.
  rewrite calls_app.
  rewrite <- (with_usages_id p tmp t Htmp) at 1.
  rewrite (regs_in_use p f tmp e t Hf Hbase Htmp) by lia.
  rewrite (frees_in_use p f tmp t n (mUsages t) Hbase Htmp Hu).
  now rewrite with_usages_id.
Qed.

(** ** A formula and its negation count on one node *)

Lemma getBaseFormula_plain p (x : nat) c :
  heap p !! x = Some c -> plain (mType c) -> getBaseFormula p x = Some x.
Proof.
  intros Hx (Hnot & Hcon & _). unfold getBaseFormula. rewrite Hx.
  now rewrite !bool_decide_eq_false_2.
Qed.

Lemma getBaseFormula_not p (x : nat) c :
  heap p !! x = Some c -> mType c = NOT ->
  getBaseFormula p x = Some (mNegation c).
Proof.
  intros Hx Hnot. unfold getBaseFormula. rewrite Hx.
  now rewrite bool_decide_eq_true_2.
Qed.

Lemma getBaseFormula_constraint p (x : nat) c n (a b : C) :
  heap p !! x = Some c -> heap p !! mNegation c = Some n ->
  mType c = CONSTRAINT ->
  mPayload c = Constraint_ a -> mPayload n = Constraint_ b ->
  getBaseFormula p x
  = Some (if constraint_lt a b then x else mNegation c).
Proof.
  intros Hx Hn Hty Ha Hb. unfold getBaseFormula, isBaseFormula.
  rewrite Hx, Hty, Ha, Hn, Hb.
  rewrite bool_decide_eq_false_2 by discriminate.
  rewrite bool_decide_eq_true_2 by reflexivity.
  now destruct (constraint_lt a b).
Qed.

Lemma base_of_pair `{!ConstraintLaws} p (x : nat) c :
  reachable p ->
  heap p !! x = Some c ->
  mType c <> TRUE -> mType c <> FALSE ->
  exists n b,
    heap p !! mNegation c = Some n
    /\ mNegation n = x
    /\ (mType n = CONSTRAINT <-> mType c = CONSTRAINT)
    /\ getBaseFormula p x = Some b
    /\ getBaseFormula p (mNegation c) = Some b
    /\ getBaseFormula p b = Some b.
Proof.
  intros Hreach Hx Htrue Hfalse.
  destruct (inv_pair _ _ (reachable_polarized p Hreach) x c Hx)
    as (n & Hn & Hback & Hne & Hpol).
  exists n.
  destruct Hpol as [[E|E] _ _ _|Hplain Hnot _ _|Hnot Hplain _ _
                   |a Hc Hnc Hpc Hpn Hok _ _|a Hc Hnc Hpn Hpc Hok _ _];
    try congruence.
  - exists x. split; [assumption|]. split; [assumption|].
    split; [destruct Hplain as (_ & ? & _); split; congruence|].
    rewrite (getBaseFormula_plain p x c Hx Hplain).
    rewrite (getBaseFormula_not p _ n Hn Hnot), Hback. auto.
  - exists (mNegation c). split; [assumption|]. split; [assumption|].
    split; [destruct Hplain as (_ & ? & _); split; congruence|].
    rewrite (getBaseFormula_not p x c Hx Hnot).
    rewrite (getBaseFormula_plain p _ n Hn Hplain). auto.
  - exists x. split; [assumption|]. split; [assumption|].
    split; [split; congruence|].
    assert (Hx' : heap p !! mNegation n = Some c) by now rewrite Hback.
    rewrite (getBaseFormula_constraint p x c n a (negation a)) by assumption.
    rewrite (getBaseFormula_constraint p _ n c (negation a) a) by assumption.
    unfold base_polarity in Hok.
    rewrite Hok, (constraint_lt_asym _ _ Hok), Hback. auto.
  - exists (mNegation c). split; [assumption|]. split; [assumption|].
    split; [split; congruence|].
    assert (Hx' : heap p !! mNegation n = Some c) by now rewrite Hback.
    rewrite (getBaseFormula_constraint p x c n (negation a) a) by assumption.
    rewrite (getBaseFormula_constraint p _ n c a (negation a)) by assumption.
    unfold base_polarity in Hok.
    rewrite Hok, (constraint_lt_asym _ _ Hok). auto.
Qed.

(** X9. In every pool that calls lead to, a formula other than TRUE and
    FALSE and its negation have the same base formula, which is its own
    base; so [reg] and [free] do the same to the pool whether they are
    given the formula or its negation. *)
Theorem negation_shares_counter `{!ConstraintLaws} p (x : nat) c :
  reachable p ->
  heap p !! x = Some c ->
  mType c <> TRUE -> mType c <> FALSE ->
  (exists b,
     getBaseFormula p x = Some b
     /\ getBaseFormula p (mNegation c) = Some b
     /\ getBaseFormula p b = Some b)
  /\ reg (mNegation c) p = reg x p
  /\ free (mNegation c) p = free x p.
Proof.
  intros Hreach Hx Htrue Hfalse.
  destruct (base_of_pair p x c Hreach Hx Htrue Hfalse)
    as (n & b & Hn & Hback & Hcon & Hbx & Hbn & Hbb).
  split; [eauto|]. split.
  - unfold reg. rewrite Hx, Hn, Hbx, Hbn.
    destruct (heap p !! b) as [t|]; [|reflexivity].
    replace (bool_decide (mType n = CONSTRAINT))
      with (bool_decide (mType c = CONSTRAINT)); [reflexivity|].
    apply bool_decide_ext. tauto.
  - unfold free. now rewrite Hbx, Hbn.
Qed.

(** ** The Tseitin bookkeeping *)

Lemma change_older_kept (ok : C -> Prop) p p' :
  change ok p p' -> older_kept p p'.
Proof.
  induction 1 as [p|p1 p2 p3 _ [Ha1 Hk1] _ [Ha2 Hk2]|p x c c' Hx Hlinks
                 |p tv tvf|p v|p tmp p' Hdestroy|p ty pl nty npl u Hpub k].
  - split; [lia|eauto].
  - split; [lia|]. intros x c3 Hx H3.
    destruct (Hk2 x c3) as (c2 & H2 & E2); [lia|assumption|].
    destruct (Hk1 x c2 Hx H2) as (c1 & H1 & E1).
    exists c1. split; [assumption|congruence].
  - split; [simpl; lia|]. simpl. intros y c0 _ Hy.
    destruct (decide (y = x)) as [->|Hne].
    + rewrite lookup_insert_eq in Hy. inversion Hy; subst c0.
      exists c. split; [assumption|]. symmetry. apply Hlinks.
    + rewrite lookup_insert_ne in Hy by congruence. eauto.
  - split; [simpl; lia|]. simpl. eauto.
  - split; [simpl; lia|]. simpl. eauto.
  - unfold destroy in Hdestroy.
    destruct (heap p !! tmp) as [t|]; [|discriminate].
    inversion Hdestroy; subst p'. split; [simpl; lia|]. simpl.
    intros x c' _ Hx.
    apply lookup_delete_Some in Hx as [_ Hx].
    apply lookup_delete_Some in Hx as [_ Hx]. eauto.
  - split; [simpl; lia|]. simpl. intros x c' Hx Hlook. fold k in Hx.
    rewrite !lookup_insert_ne in Hlook by lia. eauto.
Qed.

Lemma same_tseitin_refl p : same_tseitin p p.
Proof. repeat split. Qed.

Lemma same_tseitin_trans p1 p2 p3 :
  same_tseitin p1 p2 -> same_tseitin p2 p3 -> same_tseitin p1 p3.
Proof. intros (? & ? & ?) (? & ? & ?). repeat split; congruence. Qed.

Lemma same_tseitin_pruned p p' : same_tseitin p p' -> pruned p p'.
Proof.
  intros (Htv & Htvf & Hfresh). split; [assumption|]. split.
  - intros tv f. now rewrite Htvf.
  - intros Hinv tv f. rewrite Htv, Htvf. apply Hinv.
Qed.

Lemma pruned_trans p1 p2 p3 : pruned p1 p2 -> pruned p2 p3 -> pruned p1 p3.
Proof.
  intros (Hf1 & Hs1 & Hi1) (Hf2 & Hs2 & Hi2).
  split; [congruence|]. split; [eauto|tauto].
Qed.

Lemma reg_same_tseitin (f : nat) p p' :
  reg f p = Some p' -> same_tseitin p p'.
Proof.
  unfold reg. intros Hreg.
  destruct (heap p !! f); [|discriminate].
  destruct (getBaseFormula p f) as [tmp|]; [|discriminate].
  destruct (heap p !! tmp); [|discriminate].
  destruct (_ <? _)%N; [|discriminate].
  inversion Hreg. repeat split.
Qed.

Lemma destroy_same_tseitin (tmp : nat) p p' :
  destroy tmp p = Some p' -> same_tseitin p p'.
Proof.
  unfold destroy. intros Hd.
  destruct (heap p !! tmp); [|discriminate].
  inversion Hd. repeat split.
Qed.

Lemma add_same_tseitin (ty : FormulaType) (pl : Payload C) (e : nat) p p' :
  add ty pl p = Some (e, p') -> same_tseitin p p'.
Proof.
  unfold add. intros Hadd.
  destruct (find_content ty pl p);
    [inversion Hadd; subst; apply same_tseitin_refl|].
  destruct (createNegatedContent _ _) as [[[nty npl] p2]|] eqn:Hneg;
    [|discriminate].
  inversion Hadd; subst e p'. clear Hadd.
  unfold createNegatedContent in Hneg. simpl in Hneg.
  rewrite lookup_insert_eq in Hneg. simpl in Hneg.
  case_bool_decide.
  - destruct pl; try discriminate. inversion Hneg; subst. repeat split.
  - destruct (reg _ _) as [p3|] eqn:Hreg; [|discriminate].
    inversion Hneg; subst. apply reg_same_tseitin in Hreg.
    destruct Hreg as (? & ? & ?). repeat split; assumption.
Qed.

(** An entry and the entry that points back are dropped together. *)
Lemma pruned_pair (f tv : nat) p :
  mTseitinVars p !! f = Some tv ->
  pruned p (set_tseitin (delete f (mTseitinVars p))
              (delete tv (mTseitinVarToFormula p)) p).
Proof.
  intros Hf. split; [reflexivity|]. split.
  - simpl. intros tv0 f0 H0. now apply lookup_delete_Some in H0.
  - intros Hinv tv0 f0. simpl. rewrite !lookup_delete_Some.
    rewrite (Hinv tv0 f0). split.
    + intros [Hne H0]. split; [|assumption]. congruence.
    + intros [Hne H0]. split; [|assumption].
      intros <-. apply Hinv in Hf. apply Hinv in H0. congruence.
Qed.

Lemma freeTseitinVariable_pruned (x : nat) (b : bool) p p' :
  tseitin_inverse p ->
  freeTseitinVariable x p = Some (b, p') -> pruned p p'.
Proof.
  intros Hinv. unfold freeTseitinVariable. intros Hfree.
  destruct (mTseitinVars p !! x) as [tv|] eqn:Hx.
  - destruct (heap p !! tv) as [tvc|]; [|discriminate].
    destruct (_ =? 1)%N;
      [|inversion Hfree; subst; apply same_tseitin_pruned, same_tseitin_refl].
    destruct (mTseitinVarToFormula p !! tv); [|discriminate].
    destruct (destroy _ _) as [p2|] eqn:Hd; [|discriminate].
    inversion Hfree; subst.
    eapply pruned_trans; [exact (pruned_pair x tv p Hx)|].
    eapply same_tseitin_pruned, destroy_same_tseitin, Hd.
  - destruct (mTseitinVarToFormula p !! x) as [fcont|] eqn:Hback;
      [|inversion Hfree; subst; apply same_tseitin_pruned, same_tseitin_refl].
    destruct (heap p !! fcont) as [fc|]; [|discriminate].
    destruct (_ =? 1)%N;
      [|inversion Hfree; subst; apply same_tseitin_pruned, same_tseitin_refl].
    destruct (getBaseFormula p fcont) as [tmp|]; [|discriminate].
    destruct (destroy _ _) as [p2|] eqn:Hd; [|discriminate].
    inversion Hfree; subst.
    eapply pruned_trans;
      [exact (pruned_pair fcont x p (proj1 (Hinv _ _) Hback))|].
    eapply same_tseitin_pruned, destroy_same_tseitin, Hd.
Qed.

Lemma free_pruned (f : nat) p p' :
  tseitin_inverse p -> free f p = Some p' -> pruned p p'.
Proof.
  intros Hinv. unfold free. intros Hfree.
  destruct (getBaseFormula p f) as [tmp|]; [|discriminate].
  destruct (heap p !! tmp) as [t|]; [|discriminate].
  destruct (0 <? _)%N; [|discriminate].
  set (p0 := set_heap _ p) in Hfree.
  assert (H0 : pruned p p0) by (apply same_tseitin_pruned; repeat split).
  destruct (_ =? 1)%N; [|inversion Hfree; subst; assumption].
  destruct (freeTseitinVariable tmp p0) as [[b1 p1]|] eqn:H1; [|discriminate].
  apply freeTseitinVariable_pruned in H1; [|now apply H0].
  destruct (heap p1 !! tmp) as [t1|]; [|discriminate].
  destruct (freeTseitinVariable _ p1) as [[b2 p2]|] eqn:H2; [|discriminate].
  apply freeTseitinVariable_pruned in H2; [|apply H1, H0, Hinv].
  assert (H02 : pruned p p2) by eauto using pruned_trans.
  destruct (b1 || b2); [inversion Hfree; subst; assumption|].
  eapply pruned_trans; [exact H02|].
  eapply same_tseitin_pruned, destroy_same_tseitin, Hfree.
Qed.

Lemma kept_placeholders p p' :
  tseitin_inverse p -> placeholders p ->
  older_kept p p' -> pruned p p' ->
  tseitin_inverse p' /\ placeholders p'.
Proof.
  intros Hinv Hph [Halloc Hkept] (Hfresh & Hsub & Hinv').
  split; [auto|]. intros tv f Htv.
  destruct (Hph tv f (Hsub _ _ Htv)) as [Hlt Hvar].
  split; [lia|]. intros c' Hc'.
  destruct (Hkept tv c' Hlt Hc') as (c & Hc & E).
  destruct (Hvar c Hc) as (v & Hv & Hvlt).
  exists v. split; [congruence|lia].
Qed.

Lemma find_content_Some (ty : FormulaType) (pl : Payload C) p (e : nat) :
  find_content ty pl p = Some e ->
  e ∈ mPool p
  /\ exists c, heap p !! e = Some c /\ mType c = ty /\ mPayload c = pl.
Proof.
  unfold find_content. intros Hfind.
  apply List.find_some in Hfind as [Hin Hc].
  split; [now apply list_elem_of_In|].
  destruct (heap p !! e) as [c|]; [|discriminate].
  apply andb_true_iff in Hc as [Hty Hpl].
  apply bool_decide_eq_true in Hty, Hpl. eauto.
Qed.

(** What [add] returns is a published node with the payload asked for:
    one that was there, or the one that got the next id. *)
Lemma add_entry (ty : FormulaType) (pl : Payload C) (e : nat) p p' :
  (forall x, x ∈ mPool p -> x < mIdAllocator p) ->
  add ty pl p = Some (e, p') ->
  e < mIdAllocator p'
  /\ (forall c, heap p' !! e = Some c -> mPayload c = pl)
  /\ ((exists c, heap p !! e = Some c /\ mPayload c = pl)
      \/ e = mIdAllocator p).
Proof.
  intros Htable. unfold add. intros Hadd.
  destruct (find_content ty pl p) as [e0|] eqn:Hfind.
  - inversion Hadd; subst e0 p'. clear Hadd.
    apply find_content_Some in Hfind as (Hin & c & Hc & _ & Hpl).
    split; [auto|]. split; [|eauto]. intros c' Hc'. congruence.
  - destruct (createNegatedContent _ _) as [[[nty npl] p2]|] eqn:Hneg;
      [|discriminate].
    inversion Hadd; subst e p'. clear Hadd.
    set (k := mIdAllocator p) in *.
    set (p1 := mkPool _ _ _ _ _ _ _ _) in Hneg.
    assert (Hkept : older_kept p1 p2).
    { unfold createNegatedContent in Hneg.
      destruct (heap p1 !! k); [|discriminate].
      case_bool_decide.
      - destruct (mPayload _); try discriminate.
        inversion Hneg; subst. split; [lia|eauto].
      - destruct (reg k p1) as [p3|] eqn:Hreg; [|discriminate].
        inversion Hneg; subst.
        exact (change_older_kept (fun _ => True) _ _
                 (reg_change _ _ _ _ Hreg)). }
    destruct Hkept as [Halloc Hkept]. simpl in Halloc.
    split; [simpl; lia|]. split; [|auto].
    intros c Hc. simpl in Hc. rewrite lookup_insert_ne in Hc by lia.
    destruct (Hkept k c) as (c1 & Hc1 & E); [simpl; lia|assumption|].
    simpl in Hc1. rewrite lookup_insert_eq in Hc1.
    inversion Hc1; subst c1. now rewrite <- E.
Qed.

Lemma handle_same_tseitin (f r : nat) p p' :
  handle f p = Some (r, p') -> same_tseitin p p'.
Proof.
  unfold handle. intros Hh.
  destruct (reg f p) as [p1|] eqn:Hreg; [|discriminate].
  inversion Hh; subst. now apply reg_same_tseitin in Hreg.
Qed.

Lemma createTseitinVar_placeholders (f r : nat) p p' :
  (forall x, x ∈ mPool p -> x < mIdAllocator p) ->
  tseitin_inverse p -> placeholders p ->
  createTseitinVar f p = Some (r, p') ->
  tseitin_inverse p' /\ placeholders p'.
Proof.
  intros Htable Hinv Hph Hcreate.
  pose proof (change_older_kept (fun _ => True) _ _
                (createTseitinVar_change _ _ _ _ _ Hcreate)) as Hold.
  unfold createTseitinVar in Hcreate.
  destruct (mTseitinVars p !! f) as [tv|] eqn:Hf.
  { apply (kept_placeholders p p'); try assumption.
    eapply same_tseitin_pruned, handle_same_tseitin, Hcreate. }
  set (v := mFreshVariable p) in *.
  set (p0 := mkPool _ _ _ _ _ _ _ (S v)) in Hcreate.
  unfold create_variable in Hcreate.
  destruct (add BOOL (Variable_ v) p0) as [[hi p1]|] eqn:Hadd; [|discriminate].
  destruct (heap p1 !! f) as [fc|]; [|discriminate].
  destruct (heap p1 !! hi) as [hc|] eqn:Hhi; [|discriminate].
  set (p2 := set_heap _ p1) in Hcreate.
  set (p3 := set_tseitin _ _ p2) in Hcreate.
  destruct (add_same_tseitin _ _ _ _ _ Hadd) as (Htv1 & Htvf1 & Hfresh1).
  destruct (add_entry _ _ _ p0 p1 Htable Hadd) as (Hlt & Hpl & Horigin).
  destruct (handle_same_tseitin _ _ _ _ Hcreate) as (Htv' & Htvf' & Hfresh').
  assert (Hold1 : older_kept p1 p').
  { apply (change_older_kept (fun _ => True)).
    eapply change_trans; [|eapply handle_change, Hcreate].
    eapply change_trans; [|apply change_tseitin].
    apply (change_update _ p1 hi hc); [assumption|].
    apply same_links_set_difficulty. }
  assert (Hnew : mTseitinVarToFormula p !! hi = None).
  { destruct (mTseitinVarToFormula p !! hi) as [g|] eqn:Hg; [|reflexivity].
    destruct (Hph hi g Hg) as [Hhilt Hvar].
    destruct Horigin as [(c & Hc & Hcpl)|Ehi]; [|subst hi; simpl in Hhilt; lia].
    destruct (Hvar c Hc) as (v' & Hv' & Hv'lt).
    rewrite Hcpl in Hv'. inversion Hv'; subst v'. unfold v in Hv'lt. lia. }
  simpl in Htv', Htvf', Hfresh', Htv1, Htvf1, Hfresh1.
  split.
  - intros tv0 f0. rewrite Htv', Htvf', Htv1, Htvf1.
    rewrite !lookup_insert_Some. rewrite (Hinv tv0 f0). split.
    + intros [[E1 E2]|[Hne H0]]; [auto|]. right. split; [congruence|assumption].
    + intros [[E1 E2]|[Hne H0]]; [auto|]. right. split; [|assumption].
      intros E. subst tv0. apply Hinv in H0. congruence.
  - intros tv0 f0. rewrite Htvf', Htvf1, Hfresh'.
    rewrite lookup_insert_Some. intros [[E1 E2]|[Hne H0]].
    + subst tv0 f0. split; [destruct Hold1; lia|]. intros c' Hc'.
      destruct Hold1 as [_ Hkept1].
      destruct (Hkept1 hi c' Hlt Hc') as (c1 & Hc1 & E).
      exists v. split; [rewrite <- E; auto|lia].
    + destruct (Hph tv0 f0 H0) as [Hlt0 Hvar].
      destruct Hold as [Halloc Hkept].
      split; [lia|]. intros c' Hc'.
      destruct (Hkept tv0 c' Hlt0 Hc') as (c & Hc & E).
      destruct (Hvar c Hc) as (v' & Hv' & Hv'lt).
      exists v'. split; [congruence|]. fold v in Hv'lt. lia.
Qed.

Lemma copy_handles_same_tseitin (fs : list nat) p p' :
  copy_handles fs p = Some p' -> same_tseitin p p'.
Proof.
  revert p. induction fs as [|f fs IH]; simpl; intros p Hcopy.
  - inversion Hcopy; subst. apply same_tseitin_refl.
  - destruct (reg f p) as [p1|] eqn:Hreg; [|discriminate].
    eapply same_tseitin_trans; [eapply reg_same_tseitin; exact Hreg|eauto].
Qed.

Lemma release_handles_pruned (fs : list nat) p p' :
  tseitin_inverse p -> release_handles fs p = Some p' -> pruned p p'.
Proof.
  revert p. induction fs as [|f fs IH]; simpl; intros p Hinv Hrel.
  - inversion Hrel; subst. apply same_tseitin_pruned, same_tseitin_refl.
  - destruct (free f p) as [p1|] eqn:Hfree; [|discriminate].
    pose proof (free_pruned f p p1 Hinv Hfree) as H1.
    eapply pruned_trans; [exact H1|]. apply IH; [|exact Hrel].
    now apply H1.
Qed.

Lemma add_candidate_pruned (ty : FormulaType) (pl : Payload C)
    (fs : list nat) (e : nat) p p' :
  tseitin_inverse p ->
  add_candidate ty pl fs p = Some (e, p') -> pruned p p'.
Proof.
  unfold add_candidate. intros Hinv Hadd.
  destruct (find_content ty pl p).
  - destruct (release_handles fs p) as [p1|] eqn:Hrel; [|discriminate].
    inversion Hadd; subst. eauto using release_handles_pruned.
  - eapply same_tseitin_pruned, add_same_tseitin, Hadd.
Qed.

(** Every call but [createTseitinVar] leaves the bookkeeping as it is
    or drops entries in pairs. *)
Lemma call_pruned (c : Call) p p' :
  tseitin_inverse p ->
  (forall f, c <> CreateTseitinVar f) ->
  call c p = Some p' -> pruned p p'.
Proof.
  intros Hinv Hcreate Hcall.
  destruct c as [v|a|eq|pbc|f|f|f|f|vc|vc|va|bv|ty vars term|ty fs];
    simpl in Hcall; try (now destruct (Hcreate f)).
  - unfold create_variable in Hcall.
    destruct (add _ _ p) as [[e p1]|] eqn:Hadd; [|discriminate].
    inversion Hcall; subst. eapply same_tseitin_pruned, add_same_tseitin, Hadd.
  - apply same_tseitin_pruned. unfold create_constraint in Hcall.
    destruct (isConsistent a) as [|[|n]];
      try (inversion Hcall; subst; apply same_tseitin_refl).
    destruct (isBaseFormula_constraint a).
    + destruct (add _ _ p) as [[e p1]|] eqn:Hadd; [|discriminate].
      inversion Hcall; subst. eapply add_same_tseitin, Hadd.
    + destruct (add _ _ p) as [[e p1]|] eqn:Hadd; [|discriminate].
      destruct (heap p1 !! e); [|discriminate].
      inversion Hcall; subst. eapply add_same_tseitin, Hadd.
  - unfold create_ueq in Hcall.
    destruct (add _ _ p) as [[e p1]|] eqn:Hadd; [|discriminate].
    inversion Hcall; subst. eapply same_tseitin_pruned, add_same_tseitin, Hadd.
  - unfold create_pbconstraint in Hcall.
    destruct (add _ _ p) as [[e p1]|] eqn:Hadd; [|discriminate].
    inversion Hcall; subst. eapply same_tseitin_pruned, add_same_tseitin, Hadd.
  - now apply same_tseitin_pruned, (reg_same_tseitin f).
  - now apply (free_pruned f).
  - apply same_tseitin_pruned. unfold getTseitinVar in Hcall.
    destruct (mTseitinVars p !! f) as [tv|].
    + destruct (handle tv p) as [[r p1]|] eqn:Hh; [|discriminate].
      inversion Hcall; subst. eapply handle_same_tseitin, Hh.
    + destruct (handle _ p) as [[r p1]|] eqn:Hh; [|discriminate].
      inversion Hcall; subst. eapply handle_same_tseitin, Hh.
  - unfold create_varcompare in Hcall.
    destruct (add _ _ p) as [[e p1]|] eqn:Hadd; [|discriminate].
    inversion Hcall; subst. eapply same_tseitin_pruned, add_same_tseitin, Hadd.
  - apply same_tseitin_pruned.
    unfold create_varcompare_copy, create_varcompare, create_constraint in Hcall.
    destruct (asConstraint vc) as [a|].
    + destruct (isConsistent a) as [|[|n]];
        try (inversion Hcall; subst; apply same_tseitin_refl).
      destruct (isBaseFormula_constraint a).
      * destruct (add _ _ p) as [[e p1]|] eqn:Hadd; [|discriminate].
        inversion Hcall; subst. eapply add_same_tseitin, Hadd.
      * destruct (add _ _ p) as [[e p1]|] eqn:Hadd; [|discriminate].
        destruct (heap p1 !! e); [|discriminate].
        inversion Hcall; subst. eapply add_same_tseitin, Hadd.
    + destruct (add _ _ p) as [[e p1]|] eqn:Hadd; [|discriminate].
      inversion Hcall; subst. eapply add_same_tseitin, Hadd.
  - unfold create_varassign in Hcall.
    destruct (add _ _ p) as [[e p1]|] eqn:Hadd; [|discriminate].
    inversion Hcall; subst. eapply same_tseitin_pruned, add_same_tseitin, Hadd.
  - apply same_tseitin_pruned. unfold create_bvconstraint in Hcall.
    destruct (isAlwaysConsistent bv);
      [inversion Hcall; subst; apply same_tseitin_refl|].
    destruct (isAlwaysInconsistent bv);
      [inversion Hcall; subst; apply same_tseitin_refl|].
    destruct (add _ _ p) as [[e p1]|] eqn:Hadd; [|discriminate].
    inversion Hcall; subst. eapply add_same_tseitin, Hadd.
  - unfold create_quantifier in Hcall.
    destruct (_ || _); [|discriminate].
    destruct vars as [|v vars];
      [inversion Hcall; subst; apply same_tseitin_pruned, same_tseitin_refl|].
    destruct (handle term p) as [[h p1]|] eqn:Hh; [|discriminate].
    destruct (add_candidate _ _ _ p1) as [[e p2]|] eqn:Hadd; [|discriminate].
    inversion Hcall; subst.
    pose proof (same_tseitin_pruned _ _ (handle_same_tseitin _ _ _ _ Hh)) as H1.
    eapply pruned_trans; [exact H1|].
    eapply add_candidate_pruned; [|exact Hadd]. now apply H1.
  - unfold create_nary_copy in Hcall.
    destruct (copy_handles fs p) as [p1|] eqn:Hcopy; [|discriminate].
    pose proof (same_tseitin_pruned _ _ (copy_handles_same_tseitin _ _ _ Hcopy))
      as H1.
    destruct (create_nary _ _ _ ty fs p1) as [[e p2]|] eqn:Hadd; [|discriminate].
    inversion Hcall; subst.
    eapply pruned_trans; [exact H1|].
    unfold create_nary, intern_connective in Hadd.
    destruct ty; try discriminate;
      (eapply add_candidate_pruned; [|exact Hadd]); now apply H1.
Qed.

Lemma reachable_tseitin p :
  reachable p -> tseitin_inverse p /\ placeholders p.
Proof.
  induction 1 as [|c p p' Hreach [Hinv Hph] Hcall].
  - split.
    + intros tv f. simpl. rewrite !lookup_empty. split; discriminate.
    + intros tv f. simpl. rewrite lookup_empty. discriminate.
  - pose proof (reachable_linked p Hreach) as Hlinked.
    assert (Hold : older_kept p p').
    { apply (change_older_kept (fun _ => True)).
      now apply (call_change _ (fun _ _ => I) (fun _ _ => I) c). }
    assert (Hother : (forall f, c <> CreateTseitinVar f) ->
                     tseitin_inverse p' /\ placeholders p').
    { intros Hnocreate.
      apply (kept_placeholders p p'); try assumption.
      now apply (call_pruned c). }
    destruct c as [v|a|eq|pbc|f|f|f|f|vc|vc|va|bv|ty vars term|ty fs];
      try (apply Hother; intros; discriminate).
    simpl in Hcall.
    destruct (createTseitinVar f p) as [[r p1]|] eqn:Hcreate; [|discriminate].
    inversion Hcall; subst p1.
    apply (createTseitinVar_placeholders f r p p'); try assumption.
    apply (inv_table _ _ Hlinked).
Qed.

(** X10. In every pool that calls lead to, [mTseitinVarToFormula] is the
    inverse of [mTseitinVars]: the iterator stored for a placeholder
    points to the entry of the formula that has this placeholder, and
    every placeholder of a formula has its entry, as the [assert] in
    [freeTseitinVariable] demands. Placeholders are published nodes. *)
Theorem tseitin_maps_inverse p (f tv : nat) :
  reachable p ->
  (mTseitinVarToFormula p !! tv = Some f <-> mTseitinVars p !! f = Some tv)
  /\ (mTseitinVars p !! f = Some tv -> tv < mIdAllocator p).
Proof.
  intros Hreach. destruct (reachable_tseitin p Hreach) as [Hinv Hph].
  split; [apply Hinv|]. intros Hf. apply Hinv in Hf.
  now destruct (Hph tv f Hf).
Qed.

(** ** Releasing a placeholder *)

Lemma freeTseitinVariable_formula_used p (x fcont : nat) fc :
  mTseitinVars p !! x = None ->
  mTseitinVarToFormula p !! x = Some fcont ->
  heap p !! fcont = Some fc ->
  mUsages fc <> 1%N ->
  freeTseitinVariable x p = Some (true, p).
Proof.
  intros Hx Hback Hfc Hused. unfold freeTseitinVariable.
  rewrite Hx, Hback, Hfc. now destruct (N.eqb_spec (mUsages fc) 1).
Qed.

Lemma freeTseitinVariable_formula_unused p (x fcont tmp : nat) fc :
  mTseitinVars p !! x = None ->
  mTseitinVarToFormula p !! x = Some fcont ->
  heap p !! fcont = Some fc ->
  mUsages fc = 1%N ->
  getBaseFormula p fcont = Some tmp ->
  freeTseitinVariable x p
  = (fun p' => (false, p'))
      <$> destroy tmp (set_tseitin (delete fcont (mTseitinVars p))
                         (delete x (mTseitinVarToFormula p)) p).
Proof.
  intros Hx Hback Hfc Hunused Hbase. unfold freeTseitinVariable.
  rewrite Hx, Hback, Hfc, Hunused, Hbase. change (1 =? 1)%N with true.
  cbv iota. now destruct (destroy tmp _).
Qed.

(** X11. Releasing the last handle of a placeholder. If the formula it
    stands for is counted as used, the placeholder stays, with its
    counter at 1. If the formula's own counter is at 1, the formula's
    base node and its negation are destroyed first, the two entries of
    the bookkeeping are dropped, and then the placeholder and its
    negation are destroyed as well. *)
Theorem free_placeholder p (tv f tmp : nat) tvc fc t :
  heap p !! tv = Some tvc -> plain (mType tvc) -> mUsages tvc = 2%N ->
  mTseitinVars p !! tv = None ->
  mTseitinVarToFormula p !! tv = Some f ->
  no_tseitin p (mNegation tvc) ->
  heap p !! f = Some fc -> f <> tv ->
  getBaseFormula p f = Some tmp -> heap p !! tmp = Some t ->
  tmp <> tv -> mNegation t <> tv ->
  (mUsages fc <> 1%N /\ free tv p = Some (released p tv tvc))
  \/ (mUsages fc = 1%N
      /\ exists p',
           free tv p = Some p'
           /\ heap p' !! tv = None /\ heap p' !! mNegation tvc = None
           /\ heap p' !! tmp = None /\ heap p' !! mNegation t = None
           /\ mTseitinVars p' !! f = None
           /\ mTseitinVarToFormula p' !! tv = None
           /\ (tv ∉ mPool p') /\ (tmp ∉ mPool p')).
Proof.
  intros Htvc Hplain Hu Htv Hback [Hneg1 Hneg2] Hfc Hne Hbase Ht Hne1 Hne2.
  pose proof (getBaseFormula_plain p tv tvc Htvc Hplain) as Hown.
  set (q0 := released p tv tvc).
  assert (Hfc0 : heap q0 !! f = Some fc).
  { subst q0. unfold released. simpl. now rewrite lookup_insert_ne. }
  assert (Htv0 : heap q0 !! tv = Some (set_usages 1 tvc)).
  { subst q0. unfold released. simpl. rewrite Hu. apply lookup_insert_eq. }
  assert (Hfree : free tv p
                  = match freeTseitinVariable tv q0 with
                    | Some (b1, p1) =>
                        match heap p1 !! tv with
                        | Some t1 =>
                            match freeTseitinVariable (mNegation t1) p1 with
                            | Some (b2, p2) =>
                                if b1 || b2 then Some p2 else destroy tv p2
                            | None => None
                            end
                        | None => None
                        end
                    | None => None
                    end).
  { unfold free. rewrite Hown, Htvc. fold (released p tv tvc). rewrite Hu.
    reflexivity. }
  rewrite Hfree. clear Hfree.
  destruct (N.eq_dec (mUsages fc) 1%N) as [Hunused|Hused].
  - right. split; [assumption|].
    assert (Hbase0 : getBaseFormula q0 f = Some tmp).
    { subst q0.
      change (released p tv tvc) with (with_usages p tv tvc (mUsages tvc - 1)).
      now rewrite (getBaseFormula_with_usages p tv f tvc _ Htvc). }
    rewrite (freeTseitinVariable_formula_unused q0 tv f tmp fc
               Htv Hback Hfc0 Hunused Hbase0).
    set (q1 := set_tseitin _ _ q0).
    assert (Ht1 : heap q1 !! tmp = Some t).
    { subst q1 q0. unfold released. simpl. now rewrite lookup_insert_ne. }
    destruct (destroy_spec q1 tmp t Ht1)
      as (q2 & Hq2 & G1 & G2 & G3 & Hpool2 & Hheap2).
    rewrite Hq2. simpl fmap. cbv iota beta.
    assert (H2 : heap q2 !! tv = Some (set_usages 1 tvc)).
    { rewrite Hheap2. rewrite !lookup_delete_ne by congruence. exact Htv0. }
    rewrite H2. simpl mNegation.
    assert (Htseitin2 : mTseitinVars q2 = delete f (mTseitinVars p)
                        /\ mTseitinVarToFormula q2
                           = delete tv (mTseitinVarToFormula p)).
    { unfold destroy in Hq2. rewrite Ht1 in Hq2. now inversion Hq2. }
    destruct Htseitin2 as [Etv Etvf].
    rewrite (freeTseitinVariable_none q2 (mNegation tvc)).
    2:{ split; [rewrite Etv|rewrite Etvf]; apply lookup_delete_None; auto. }
    simpl orb. cbv iota.
    destruct (destroy_spec q2 tv _ H2)
      as (q3 & Hq3 & K1 & K2 & K3 & Hpool3 & Hheap3).
    assert (Htseitin3 : mTseitinVars q3 = mTseitinVars q2
                        /\ mTseitinVarToFormula q3 = mTseitinVarToFormula q2).
    { unfold destroy in Hq3. rewrite H2 in Hq3. now inversion Hq3. }
    destruct Htseitin3 as [Etv3 Etvf3]. simpl mNegation in K2, Hheap3.
    exists q3. split; [exact Hq3|].
    repeat split; try assumption.
    + rewrite Hheap3. apply lookup_delete_None. right.
      apply lookup_delete_None. now right.
    + rewrite Hheap3. apply lookup_delete_None. right.
      apply lookup_delete_None. now right.
    + rewrite Etv3, Etv. apply lookup_delete_eq.
    + rewrite Etvf3, Etvf. apply lookup_delete_eq.
    + rewrite Hpool3. intros Hin.
      apply list_elem_of_filter in Hin as [_ Hin]. contradiction.
  - left. split; [assumption|].
    rewrite (freeTseitinVariable_formula_used q0 tv f fc Htv Hback Hfc0 Hused).
    rewrite Htv0. simpl mNegation.
    now rewrite (freeTseitinVariable_none q0 (mNegation tvc)).
Qed.

(** ** A constraint and its negation *)

(** The node that [add] returns for a constraint is found from then on. *)
Lemma add_constraint_found (a : C) (e : nat) p p' :
  add CONSTRAINT (Constraint_ a) p = Some (e, p') ->
  find_content CONSTRAINT (Constraint_ a) p' = Some e
  /\ is_Some (heap p' !! e).
Proof.
  destruct (find_content CONSTRAINT (Constraint_ a) p) as [e0|] eqn:Hfind.
  - rewrite (add_found _ _ _ _ Hfind). intros [= <- <-].
    split; [assumption|].
    apply find_content_Some in Hfind as (_ & c & Hc & _). eauto.
  - rewrite (add_new_constraint a p Hfind). intros [= <- <-]. split.
    + unfold find_content. cbn [mPool heap List.find].
      rewrite lookup_insert_ne by lia. rewrite lookup_insert_eq.
      cbn [mType mPayload].
      now rewrite !bool_decide_eq_true_2 by reflexivity.
    + cbn [heap]. rewrite lookup_insert_ne by lia.
      rewrite lookup_insert_eq. eauto.
Qed.

(** X12. Creating a constraint that is neither valid nor inconsistent
    and then its negation gives two nodes that are each other's
    negation; the second creation, and any repetition of either, leaves
    the pool as it is. *)
Theorem create_constraint_negation `{!ConstraintLaws} p p1 (a : C) (r : nat) :
  reachable p ->
  2 <= isConsistent a -> 2 <= isConsistent (negation a) ->
  create_constraint a p = Some (r, p1) ->
  exists rc,
    heap p1 !! r = Some rc
    /\ create_constraint (negation a) p1 = Some (mNegation rc, p1)
    /\ create_constraint a p1 = Some (r, p1)
    /\ mNegation rc <> r.
Proof.
  intros Hreach Ha Hna Hcreate.
  assert (Hreach1 : reachable p1).
  { apply (reachable_call (CreateConstraint a) p p1 Hreach).
    simpl. now rewrite Hcreate. }
  pose proof (reachable_polarized p1 Hreach1) as Hinv1.
  unfold create_constraint in *.
  destruct (isConsistent a) as [|[|ka]]; [lia..|].
  destruct (isConsistent (negation a)) as [|[|kn]]; [lia..|].
  unfold isBaseFormula_constraint in *.
  rewrite negation_involutive.
  destruct (constraint_lt a (negation a)) eqn:Hbase.
  - rewrite (constraint_lt_asym _ _ Hbase).
    destruct (add_constraint_found a r p p1 Hcreate) as [Hfind [rc Hrc]].
    rewrite (add_found _ _ _ _ Hfind), Hrc.
    exists rc. repeat split.
    destruct (inv_pair _ _ Hinv1 r rc Hrc) as (n & _ & _ & Hne & _).
    exact Hne.
  - rewrite (constraint_lt_negation _ Hbase).
    destruct (add CONSTRAINT (Constraint_ (negation a)) p) as [[b p2]|] eqn:Hadd;
      [|discriminate].
    destruct (heap p2 !! b) as [bc|] eqn:Hbc; [|discriminate].
    inversion Hcreate; subst r p2. clear Hcreate.
    destruct (add_constraint_found _ b p p1 Hadd) as [Hfind _].
    rewrite (add_found _ _ _ _ Hfind), Hbc.
    destruct (inv_pair _ _ Hinv1 b bc Hbc) as (n & Hn & Hback & Hne & _).
    exists n. rewrite Hback. repeat split; [assumption|].
    congruence.
Qed.

(** ** Where the counters are *)

Lemma base_in_table `{!ConstraintLaws} p (x b : nat) c :
  reachable p ->
  heap p !! x = Some c ->
  getBaseFormula p x = Some b -> b ∈ mPool p.
Proof.
  intros Hreach Hx Hb.
  destruct (inv_pair _ _ (reachable_polarized p Hreach) x c Hx)
    as (n & Hn & Hback & Hne & Hpol).
  assert (Hx' : heap p !! mNegation n = Some c) by now rewrite Hback.
  destruct Hpol as [Hc _ Hin _|Hplain _ Hin _|Hnot _ _ Hin
                   |a Hc Hnc Hpc Hpn Hok Hin _|a Hc Hnc Hpn Hpc Hok _ Hin].
  - unfold getBaseFormula in Hb. rewrite Hx in Hb.
    rewrite !bool_decide_eq_false_2 in Hb by (destruct Hc; congruence).
    now inversion Hb; subst.
  - rewrite (getBaseFormula_plain p x c Hx Hplain) in Hb.
    now inversion Hb; subst.
  - rewrite (getBaseFormula_not p x c Hx Hnot) in Hb.
    now inversion Hb; subst.
  - rewrite (getBaseFormula_constraint p x c n a (negation a)) in Hb
      by assumption.
    unfold base_polarity in Hok. rewrite Hok in Hb. now inversion Hb; subst.
  - rewrite (getBaseFormula_constraint p x c n (negation a) a) in Hb
      by assumption.
    unfold base_polarity in Hok.
    rewrite (constraint_lt_asym _ _ Hok) in Hb. now inversion Hb; subst.
Qed.

Lemma counted_reg (f : nat) p p' :
  (forall tmp, getBaseFormula p f = Some tmp -> tmp ∈ mPool p) ->
  reg f p = Some p' ->
  counted_on_table p -> counted_on_table p'.
Proof.
  intros Hbase Hreg Hcount. unfold reg in Hreg.
  destruct (heap p !! f); [|discriminate].
  destruct (getBaseFormula p f) as [tmp|]; [|discriminate].
  destruct (heap p !! tmp); [|discriminate].
  destruct (_ <? _)%N; [|discriminate].
  inversion Hreg; subst p'. intros x c. simpl. intros Hx Hout.
  rewrite lookup_insert_ne in Hx; [now apply (Hcount x)|].
  intros <-. apply Hout. now apply Hbase.
Qed.

Lemma counted_destroy (tmp : nat) p p' :
  destroy tmp p = Some p' ->
  counted_on_table p -> counted_on_table p'.
Proof.
  unfold destroy. intros Hd Hcount.
  destruct (heap p !! tmp) as [t|]; [|discriminate].
  inversion Hd; subst p'. intros x c. simpl. intros Hx Hout.
  apply lookup_delete_Some in Hx as [Hne Hx].
  apply lookup_delete_Some in Hx as [_ Hx].
  apply (Hcount x c Hx). intros Hin. apply Hout.
  apply list_elem_of_filter. split; [congruence|assumption].
Qed.

Lemma counted_freeTseitinVariable (x : nat) (b : bool) p p' :
  freeTseitinVariable x p = Some (b, p') ->
  counted_on_table p -> counted_on_table p'.
Proof.
  unfold freeTseitinVariable. intros Hfree Hcount.
  destruct (mTseitinVars p !! x) as [tv|].
  - destruct (heap p !! tv); [|discriminate].
    destruct (_ =? 1)%N; [|now inversion Hfree; subst].
    destruct (mTseitinVarToFormula p !! tv); [|discriminate].
    destruct (destroy _ _) as [p2|] eqn:Hd; [|discriminate].
    inversion Hfree; subst. eapply counted_destroy; [exact Hd|]. exact Hcount.
  - destruct (mTseitinVarToFormula p !! x) as [fcont|];
      [|now inversion Hfree; subst].
    destruct (heap p !! fcont); [|discriminate].
    destruct (_ =? 1)%N; [|now inversion Hfree; subst].
    destruct (getBaseFormula p fcont); [|discriminate].
    destruct (destroy _ _) as [p2|] eqn:Hd; [|discriminate].
    inversion Hfree; subst. eapply counted_destroy; [exact Hd|]. exact Hcount.
Qed.

Lemma counted_free (f : nat) p p' :
  (forall tmp, getBaseFormula p f = Some tmp -> tmp ∈ mPool p) ->
  free f p = Some p' ->
  counted_on_table p -> counted_on_table p'.
Proof.
  intros Hbase Hfree Hcount. unfold free in Hfree.
  destruct (getBaseFormula p f) as [tmp|]; [|discriminate].
  destruct (heap p !! tmp) as [t|]; [|discriminate].
  destruct (0 <? _)%N; [|discriminate].
  set (p0 := set_heap _ p) in Hfree.
  assert (H0 : counted_on_table p0).
  { intros x c. subst p0. simpl. intros Hx Hout.
    rewrite lookup_insert_ne in Hx; [now apply (Hcount x)|].
    intros <-. apply Hout. now apply Hbase. }
  destruct (_ =? 1)%N; [|now inversion Hfree; subst].
  destruct (freeTseitinVariable tmp p0) as [[b1 p1]|] eqn:H1; [|discriminate].
  apply counted_freeTseitinVariable in H1; [|assumption].
  destruct (heap p1 !! tmp) as [t1|]; [|discriminate].
  destruct (freeTseitinVariable _ p1) as [[b2 p2]|] eqn:H2; [|discriminate].
  apply counted_freeTseitinVariable in H2; [|assumption].
  destruct (b1 || b2); [now inversion Hfree; subst|].
  eapply counted_destroy; [exact Hfree|]. exact H2.
Qed.

Lemma counted_add (ty : FormulaType) (pl : Payload C) (e : nat) p p' :
  ty <> NOT ->
  add ty pl p = Some (e, p') ->
  counted_on_table p -> counted_on_table p'.
Proof.
  intros Hnot Hadd Hcount.
  destruct (find_content ty pl p) as [e0|] eqn:Hfind.
  { rewrite (add_found _ _ _ _ Hfind) in Hadd. now inversion Hadd; subst. }
  assert (Hnew : exists c1 c2,
            mUsages c2 = 0%N
            /\ heap p' = <[S (mIdAllocator p) := c2]>
                           (<[mIdAllocator p := c1]> (heap p))
            /\ mPool p' = mIdAllocator p :: mPool p).
  { destruct (decide (ty = CONSTRAINT)) as [->|Hcon].
    - destruct pl as [|v|a|g|gs|a|vs g];
        try (unfold add, createNegatedContent in Hadd; rewrite Hfind in Hadd;
             simpl in Hadd; rewrite lookup_insert_eq in Hadd;
             simpl in Hadd; discriminate).
      rewrite (add_new_constraint a p Hfind) in Hadd.
      inversion Hadd; subst. do 2 eexists.
      split; [|split; reflexivity]. reflexivity.
    - rewrite (add_new ty pl p Hfind Hcon Hnot) in Hadd.
      inversion Hadd; subst. do 2 eexists.
      split; [|split; reflexivity]. reflexivity. }
  destruct Hnew as (c1 & c2 & Hzero & Hheap & Hpool).
  intros x c. rewrite Hheap, Hpool. intros Hx Hout.
  apply not_elem_of_cons in Hout as [Hne Hout].
  apply lookup_insert_Some in Hx as [[_ <-]|[_ Hx]]; [assumption|].
  rewrite lookup_insert_ne in Hx by congruence.
  now apply (Hcount x).
Qed.

Lemma add_bool_entry (v hi : nat) p p1 :
  add BOOL (Variable_ v) p = Some (hi, p1) ->
  hi ∈ mPool p1
  /\ exists c, heap p1 !! hi = Some c /\ mType c = BOOL.
Proof.
  intros Hadd.
  destruct (find_content BOOL (Variable_ v) p) as [e0|] eqn:Hfind.
  - rewrite (add_found _ _ _ _ Hfind) in Hadd. inversion Hadd; subst.
    apply find_content_Some in Hfind as (Hin & c & Hc & Hty & _). eauto.
  - rewrite (add_new BOOL _ p Hfind) in Hadd by discriminate.
    inversion Hadd; subst. split; [apply list_elem_of_here|].
    cbn [heap]. rewrite lookup_insert_ne by lia. rewrite lookup_insert_eq.
    eauto.
Qed.

Lemma counted_handle (f r : nat) p p' :
  (forall tmp, getBaseFormula p f = Some tmp -> tmp ∈ mPool p) ->
  handle f p = Some (r, p') ->
  counted_on_table p -> counted_on_table p'.
Proof.
  unfold handle. intros Hbase Hh.
  destruct (reg f p) as [p1|] eqn:Hreg; [|discriminate].
  injection Hh as _ Hp. subst p1. now apply (counted_reg f p).
Qed.

Lemma counted_createTseitinVar (f r : nat) p p' :
  (forall tv tmp, mTseitinVars p !! f = Some tv ->
                  getBaseFormula p tv = Some tmp -> tmp ∈ mPool p) ->
  createTseitinVar f p = Some (r, p') ->
  counted_on_table p -> counted_on_table p'.
Proof.
  intros Hbase Hcreate Hcount. unfold createTseitinVar in Hcreate.
  destruct (mTseitinVars p !! f) as [tv|] eqn:Hf.
  { apply (counted_handle tv r p p'); eauto. }
  set (p0 := mkPool _ _ _ _ _ _ _ _) in Hcreate.
  unfold create_variable in Hcreate.
  destruct (add BOOL _ p0) as [[hi p1]|] eqn:Hadd; [|discriminate].
  destruct (heap p1 !! f) as [fc|]; [|discriminate].
  destruct (heap p1 !! hi) as [hc|] eqn:Hhi; [|discriminate].
  set (p2 := set_heap _ p1) in Hcreate.
  set (p3 := set_tseitin _ _ p2) in Hcreate.
  assert (H1 : counted_on_table p1)
    by (eapply counted_add; [|exact Hadd|exact Hcount]; discriminate).
  destruct (add_bool_entry _ _ _ _ Hadd) as (Hin & c & Hc & Hty).
  rewrite Hhi in Hc. inversion Hc; subst c. clear Hc.
  assert (H3 : counted_on_table p3).
  { intros x c. subst p3 p2. simpl. intros Hx Hout.
    apply lookup_insert_Some in Hx as [[<- <-]|[_ Hx]];
      [simpl; now apply (H1 hi)|now apply (H1 x)]. }
  apply (counted_handle hi r p3 p'); [|assumption|assumption].
  intros tmp Htmp.
  rewrite (getBaseFormula_plain p3 hi (set_difficulty (mDifficulty fc) hc))
    in Htmp.
  - now inversion Htmp; subst.
  - subst p3 p2. simpl. apply lookup_insert_eq.
  - simpl. rewrite Hty. apply plain_BOOL.
Qed.

Lemma getBaseFormula_live p (f b : nat) :
  getBaseFormula p f = Some b -> is_Some (heap p !! f).
Proof.
  unfold getBaseFormula. destruct (heap p !! f); [eauto|discriminate].
Qed.

Lemma counted_copy_handles `{!ConstraintLaws} (fs : list nat) p p' :
  reachable p -> copy_handles fs p = Some p' ->
  counted_on_table p -> reachable p' /\ counted_on_table p'.
Proof.
  revert p. induction fs as [|f fs IH]; simpl; intros p Hreach Hcopy Hcount.
  - now inversion Hcopy; subst.
  - destruct (reg f p) as [p1|] eqn:Hreg; [|discriminate].
    apply (IH p1); [|exact Hcopy|].
    + exact (reachable_call (Reg f) p p1 Hreach Hreg).
    + apply (counted_reg f p p1); [|assumption|assumption].
      intros tmp Htmp.
      destruct (getBaseFormula_live p f tmp Htmp) as [e He].
      exact (base_in_table p f tmp e Hreach He Htmp).
Qed.

Lemma counted_release_handles `{!ConstraintLaws} (fs : list nat) p p' :
  reachable p -> release_handles fs p = Some p' ->
  counted_on_table p -> reachable p' /\ counted_on_table p'.
Proof.
  revert p. induction fs as [|f fs IH]; simpl; intros p Hreach Hrel Hcount.
  - now inversion Hrel; subst.
  - destruct (free f p) as [p1|] eqn:Hfree; [|discriminate].
    apply (IH p1); [|exact Hrel|].
    + exact (reachable_call (Free f) p p1 Hreach Hfree).
    + apply (counted_free f p p1); [|assumption|assumption].
      intros tmp Htmp.
      destruct (getBaseFormula_live p f tmp Htmp) as [e He].
      exact (base_in_table p f tmp e Hreach He Htmp).
Qed.

Lemma counted_add_candidate `{!ConstraintLaws} (ty : FormulaType)
    (pl : Payload C) (fs : list nat) (e : nat) p p' :
  ty <> NOT -> reachable p ->
  add_candidate ty pl fs p = Some (e, p') ->
  counted_on_table p -> counted_on_table p'.
Proof.
  unfold add_candidate. intros Hnot Hreach Hadd Hcount.
  destruct (find_content ty pl p).
  - destruct (release_handles fs p) as [p1|] eqn:Hrel; [|discriminate].
    inversion Hadd; subst.
    now destruct (counted_release_handles fs p p' Hreach Hrel Hcount).
  - eapply counted_add; [exact Hnot|exact Hadd|exact Hcount].
Qed.

Lemma reachable_counted `{!ConstraintLaws} p :
  reachable p -> counted_on_table p.
Proof.
  induction 1 as [|c p p' Hreach Hcount Hcall].
  - intros x c. simpl. intros Hx Hout.
    apply lookup_insert_Some in Hx as [[<- _]|[_ Hx]];
      [exfalso; apply Hout; repeat constructor|].
    apply lookup_insert_Some in Hx as [[<- _]|[_ Hx]];
      [exfalso; apply Hout; repeat constructor|].
    now rewrite lookup_empty in Hx.
  - assert (Hbase : forall f tmp, getBaseFormula p f = Some tmp ->
                                  tmp ∈ mPool p).
    { intros f tmp Htmp.
      destruct (getBaseFormula_live p f tmp Htmp) as [e He].
      exact (base_in_table p f tmp e Hreach He Htmp). }
    assert (Hconstraint : forall a r p1,
              create_constraint a p = Some (r, p1) -> counted_on_table p1).
    { intros a r p1 Hcreate. unfold create_constraint in Hcreate.
      destruct (isConsistent a) as [|[|n]];
        try (now inversion Hcreate; subst).
      destruct (isBaseFormula_constraint a).
      - eapply counted_add; [|exact Hcreate|exact Hcount]; discriminate.
      - destruct (add _ _ p) as [[e p2]|] eqn:Hadd; [|discriminate].
        destruct (heap p2 !! e); [|discriminate].
        inversion Hcreate; subst.
        eapply counted_add; [|exact Hadd|exact Hcount]; discriminate. }
    destruct c as [v|a|eq|pbc|f|f|f|f|vc|vc|va|bv|ty vars term|ty fs];
      simpl in Hcall.
    + unfold create_variable in Hcall.
      destruct (add _ _ p) as [[e p1]|] eqn:Hadd; [|discriminate].
      inversion Hcall; subst.
      eapply counted_add; [|exact Hadd|exact Hcount]; discriminate.
    + destruct (create_constraint a p) as [[r p1]|] eqn:Hcreate;
        [|discriminate].
      inversion Hcall; subst. eauto.
    + unfold create_ueq in Hcall.
      destruct (add _ _ p) as [[e p1]|] eqn:Hadd; [|discriminate].
      inversion Hcall; subst.
      eapply counted_add; [|exact Hadd|exact Hcount]; discriminate.
    + unfold create_pbconstraint in Hcall.
      destruct (add _ _ p) as [[e p1]|] eqn:Hadd; [|discriminate].
      inversion Hcall; subst.
      eapply counted_add; [|exact Hadd|exact Hcount]; discriminate.
    + apply (counted_reg f p p'); eauto.
    + apply (counted_free f p p'); eauto.
    + unfold getTseitinVar in Hcall.
      destruct (mTseitinVars p !! f) as [tv|].
      * destruct (handle tv p) as [[r p1]|] eqn:Hh; [|discriminate].
        inversion Hcall; subst. apply (counted_handle tv r p p'); eauto.
      * destruct (handle _ p) as [[r p1]|] eqn:Hh; [|discriminate].
        inversion Hcall; subst. apply (counted_handle (trueFormula p) r p p'); eauto.
    + destruct (createTseitinVar f p) as [[r p1]|] eqn:Hcreate; [|discriminate].
      inversion Hcall; subst.
      apply (counted_createTseitinVar f r p p'); eauto.
    + unfold create_varcompare in Hcall.
      destruct (add _ _ p) as [[e p1]|] eqn:Hadd; [|discriminate].
      inversion Hcall; subst.
      eapply counted_add; [|exact Hadd|exact Hcount]; discriminate.
    + unfold create_varcompare_copy, create_varcompare in Hcall.
      destruct (asConstraint vc) as [a|].
      * destruct (create_constraint a p) as [[r p1]|] eqn:Hcreate;
          [|discriminate].
        inversion Hcall; subst. eauto.
      * destruct (add _ _ p) as [[e p1]|] eqn:Hadd; [|discriminate].
        inversion Hcall; subst.
        eapply counted_add; [|exact Hadd|exact Hcount]; discriminate.
    + unfold create_varassign in Hcall.
      destruct (add _ _ p) as [[e p1]|] eqn:Hadd; [|discriminate].
      inversion Hcall; subst.
      eapply counted_add; [|exact Hadd|exact Hcount]; discriminate.
    + unfold create_bvconstraint in Hcall.
      destruct (isAlwaysConsistent bv); [now inversion Hcall; subst|].
      destruct (isAlwaysInconsistent bv); [now inversion Hcall; subst|].
      destruct (add _ _ p) as [[e p1]|] eqn:Hadd; [|discriminate].
      inversion Hcall; subst.
      eapply counted_add; [|exact Hadd|exact Hcount]; discriminate.
    + unfold create_quantifier in Hcall.
      destruct (_ || _) eqn:Hty; [|discriminate].
      destruct vars as [|v vars]; [now inversion Hcall; subst|].
      destruct (handle term p) as [[h p1]|] eqn:Hh; [|discriminate].
      destruct (add_candidate _ _ _ p1) as [[e p2]|] eqn:Hadd; [|discriminate].
      inversion Hcall; subst.
      assert (Hreach1 : reachable p1).
      { apply (reachable_call (Reg term) p p1 Hreach). simpl.
        unfold handle in Hh. destruct (reg term p); [|discriminate].
        now inversion Hh. }
      eapply counted_add_candidate; [|exact Hreach1|exact Hadd|].
      * intros ->. discriminate.
      * apply (counted_handle term h p p1); eauto.
    + unfold create_nary_copy in Hcall.
      destruct (copy_handles fs p) as [p1|] eqn:Hcopy; [|discriminate].
      destruct (counted_copy_handles fs p p1 Hreach Hcopy Hcount)
        as [Hreach1 Hcount1].
      destruct (create_nary _ _ _ ty fs p1) as [[e p2]|] eqn:Hadd; [|discriminate].
      inversion Hcall; subst.
      unfold create_nary, intern_connective in Hadd.
      destruct ty; try discriminate;
        (eapply counted_add_candidate;
         [|exact Hreach1|exact Hadd|exact Hcount1]); discriminate.
Qed.

(** X14. The usage counters are kept on the base formulas, which are
    the nodes of the table: in every pool that calls lead to, the
    counter of a node that is not in the table is 0, whatever handles on
    it were taken and released, and the node that [reg] and [free] count
    on is in the table. *)
Theorem usages_on_base `{!ConstraintLaws} p (x : nat) c :
  reachable p ->
  heap p !! x = Some c ->
  (x ∉ mPool p -> mUsages c = 0%N)
  /\ exists b, getBaseFormula p x = Some b /\ b ∈ mPool p.
Proof.
  intros Hreach Hx. split.
  - now apply (reachable_counted p Hreach x c).
  - destruct (inv_pair _ _ (reachable_polarized p Hreach) x c Hx)
      as (n & Hn & _).
    assert (Hsome : is_Some (getBaseFormula p x)).
    { unfold getBaseFormula, isBaseFormula. rewrite Hx.
      case_bool_decide; [eauto|]. case_bool_decide; [|eauto].
      rewrite Hn.
      destruct (inv_pair _ _ (reachable_polarized p Hreach) x c Hx)
        as (n' & Hn' & _ & _ & Hpol).
      rewrite Hn in Hn'. inversion Hn'; subst n'.
      destruct Hpol as [[E|E] _ _ _|[_ [E _]] _ _ _|E _ _ _
                       |a _ _ Hpc Hpn _ _ _|a _ _ Hpn Hpc _ _ _];
        try congruence.
      - rewrite Hpc, Hpn. destruct (constraint_lt _ _); eauto.
      - rewrite Hpc, Hpn. destruct (constraint_lt _ _); eauto. }
    destruct Hsome as [b Hb]. exists b. split; [assumption|].
    exact (base_in_table p x b c Hreach Hx Hb).
Qed.

(** ** Releasing a node of a pair that the Tseitin maps know *)






(** ** Equalities over uninterpreted terms *)

Section UEqualityLaws.
Variable uvariable_lt : nat -> nat -> bool.
Variable ufinstance_lt : nat -> nat -> bool.
Variable UEquality : Arg -> Arg -> bool -> option bool -> nat.

(** X13. [create] for an equality of two uninterpreted terms does not
    depend on the order in which the terms are given, if the orders of
    variables and of function instances are asymmetric; and an equality
    of a term with itself is TRUE, its negation FALSE, with the pool
    left as it is. *)
Theorem create_uequality_symmetric p (_lhs _rhs : Arg) (_negated : bool) :
  (forall x y, uvariable_lt x y = true -> uvariable_lt y x = false) ->
  (forall x y, ufinstance_lt x y = true -> ufinstance_lt y x = false) ->
  create_uequality uvariable_lt ufinstance_lt UEquality _lhs _rhs _negated p
  = create_uequality uvariable_lt ufinstance_lt UEquality _rhs _lhs _negated p
  /\ create_uequality uvariable_lt ufinstance_lt UEquality _lhs _lhs _negated p
     = Some (if _negated then falseFormula p else trueFormula p, p).
Proof.
  intros Hvar Hinst.
  assert (Hvirr : forall x, uvariable_lt x x = false).
  { intros x. destruct (uvariable_lt x x) eqn:E; [|reflexivity].
    now rewrite (Hvar x x E) in E. }
  assert (Hiirr : forall x, ufinstance_lt x x = false).
  { intros x. destruct (ufinstance_lt x x) eqn:E; [|reflexivity].
    now rewrite (Hinst x x E) in E. }
  split.
  - destruct _lhs as [l|l], _rhs as [r|r]; simpl; try reflexivity.
    + destruct (uvariable_lt l r) eqn:E1.
      * now rewrite (Hvar l r E1).
      * now destruct (uvariable_lt r l).
    + destruct (ufinstance_lt l r) eqn:E1.
      * now rewrite (Hinst l r E1).
      * now destruct (ufinstance_lt r l).
  - destruct _lhs as [l|l]; simpl.
    + rewrite Hvirr. now destruct _negated.
    + rewrite Hiirr. now destruct _negated.
Qed.

End UEqualityLaws.

End Laws.

(** Two more handles on the variable 7 of [Sample.with_placeholder],
    given back again. *)
Lemma balanced_handles_witness :
  calls (replicate 2 (Reg 3) ++ replicate 2 (Free 3)) Sample.with_placeholder
  = Some Sample.with_placeholder.
Proof.
  apply (balanced_handles Sample.with_placeholder 3 3
           (mkContent 3 BOOL (Variable_ 7) 4 2 0)
           (mkContent 3 BOOL (Variable_ 7) 4 2 0) 2).
  - vm_compute. reflexivity.
  - vm_compute. reflexivity.
  - vm_compute. reflexivity.
  - vm_compute. discriminate.
  - vm_compute. discriminate.
Defined.

(** The constraint [5 > 0], node 4, and its base [5 <= 0], node 3. *)
Lemma negation_shares_counter_witness :
  (exists b,
     getBaseFormula Sample.with_connectives 10 = Some b
     /\ getBaseFormula Sample.with_connectives 9 = Some b
     /\ getBaseFormula Sample.with_connectives b = Some b)
  /\ reg 9 Sample.with_connectives = reg 10 Sample.with_connectives
  /\ free 9 Sample.with_connectives = free 10 Sample.with_connectives.
Proof.
  apply (negation_shares_counter Sample.with_connectives 10
           (mkContent 10 NOT (Subformula 9) 9 0 0)).
  - apply reachable_with_connectives.
  - vm_compute. reflexivity.
  - discriminate.
  - discriminate.
Defined.

Lemma tseitin_maps_inverse_witness :
  (mTseitinVarToFormula Sample.with_connective_placeholder !! 9 = Some 7
   <-> mTseitinVars Sample.with_connective_placeholder !! 7 = Some 9)
  /\ (mTseitinVars Sample.with_connective_placeholder !! 7 = Some 9 ->
      9 < mIdAllocator Sample.with_connective_placeholder).
Proof.
  apply (tseitin_maps_inverse Sample.with_connective_placeholder 7 9).
  apply reachable_with_connective_placeholder.
Defined.

(** The placeholder 5 of the variable 7, node 3, in
    [Sample.with_fresh_placeholder]. *)
Lemma free_placeholder_witness :
  (1%N <> 1%N
   /\ free 5 Sample.with_fresh_placeholder
      = Some (released Sample.with_fresh_placeholder 5
                (mkContent 5 BOOL (Variable_ 0) 6 2 0)))
  \/ (1%N = 1%N
      /\ exists p',
           free 5 Sample.with_fresh_placeholder = Some p'
           /\ heap p' !! 5 = None /\ heap p' !! 6 = None
           /\ heap p' !! 3 = None /\ heap p' !! 4 = None
           /\ mTseitinVars p' !! 3 = None
           /\ mTseitinVarToFormula p' !! 5 = None
           /\ (5 ∉ mPool p') /\ (3 ∉ mPool p')).
Proof.
  apply (free_placeholder Sample.with_fresh_placeholder 5 3 3
           (mkContent 5 BOOL (Variable_ 0) 6 2 0)
           (mkContent 3 BOOL (Variable_ 7) 4 1 0)
           (mkContent 3 BOOL (Variable_ 7) 4 1 0)).
  - vm_compute. reflexivity.
  - repeat split; discriminate.
  - reflexivity.
  - vm_compute. reflexivity.
  - vm_compute. reflexivity.
  - split; vm_compute; reflexivity.
  - vm_compute. reflexivity.
  - lia.
  - vm_compute. reflexivity.
  - vm_compute. reflexivity.
  - lia.
  - simpl. lia.
Defined.

(** [5 > 0] and then [5 <= 0] in a new pool. *)
Lemma create_constraint_negation_witness :
  exists rc,
    heap Sample.with_constraint !! 4 = Some rc
    /\ create_constraint (Sample.mkConstraint 5 false) Sample.with_constraint
       = Some (mNegation rc, Sample.with_constraint)
    /\ create_constraint (Sample.mkConstraint 5 true) Sample.with_constraint
       = Some (4, Sample.with_constraint)
    /\ mNegation rc <> 4.
Proof.
  change (Sample.mkConstraint 5 false)
    with (negation (Sample.mkConstraint 5 true)).
  apply (create_constraint_negation init Sample.with_constraint
           (Sample.mkConstraint 5 true) 4).
  - apply reachable_init.
  - vm_compute. lia.
  - vm_compute. lia.
  - vm_compute. reflexivity.
Defined.

(** The equality of the variables 2 and 1. *)
Lemma create_uequality_symmetric_witness :
  create_uequality Nat.ltb Nat.ltb Sample.uequality
    (UVariable_ 2) (UVariable_ 1) false Sample.with_variable
  = create_uequality Nat.ltb Nat.ltb Sample.uequality
      (UVariable_ 1) (UVariable_ 2) false Sample.with_variable
  /\ create_uequality Nat.ltb Nat.ltb Sample.uequality
       (UVariable_ 2) (UVariable_ 2) false Sample.with_variable
     = Some (trueFormula Sample.with_variable, Sample.with_variable).
Proof.
  apply (create_uequality_symmetric Nat.ltb Nat.ltb Sample.uequality
           Sample.with_variable (UVariable_ 2) (UVariable_ 1) false).
  - intros x y Hxy. apply Nat.ltb_lt in Hxy. apply Nat.ltb_ge. lia.
  - intros x y Hxy. apply Nat.ltb_lt in Hxy. apply Nat.ltb_ge. lia.
Defined.

(** The handle on [5 > 0], node 4, is counted on node 3. *)
Lemma usages_on_base_witness :
  (8 ∉ mPool Sample.with_connectives ->
   mUsages (mkContent 8 NOT (Subformula 7) 7 0 0
            : FormulaContent Sample.constraint) = 0%N)
  /\ exists b, getBaseFormula Sample.with_connectives 8 = Some b
               /\ b ∈ mPool Sample.with_connectives.
Proof.
  apply (usages_on_base Sample.with_connectives 8).
  - apply reachable_with_connectives.
  - vm_compute. reflexivity.
Defined.


(** After every handle has been released, what is left depends on the
    order of the releases: if the handle of the NOT node 4 goes first,
    the variable, the placeholder and the mapping stay; if the handle of
    the placeholder goes first, everything is destroyed. *)
Lemma release_order_matters :
  (exists p1 : Pool Sample.constraint,
     calls [CreateVariable 7; Reg 4; CreateTseitinVar 4; Free 4; Free 5] init
     = Some p1
     /\ mPool p1 = [5; 3; 1; 2]
     /\ mTseitinVars p1 !! 4 = Some 5)
  /\ (exists p2 : Pool Sample.constraint,
        calls [CreateVariable 7; Reg 4; CreateTseitinVar 4; Free 5; Free 4] init
        = Some p2
        /\ mPool p2 = [1; 2]
        /\ mTseitinVars p2 !! 4 = None).
Proof.
  split; eexists; (split; [vm_compute; reflexivity|]);
    split; vm_compute; reflexivity.
Qed.

End FormulaPoolLaws.

(** * Properties of [SampleSet] *)
Module SampleSetLaws.
Import SampleSet.

Section Laws.
Context {Number : Type} `{Comparison Number}.
Implicit Types (r x y : RealAlgebraicNumber Number).
Implicit Types (l k : list (RealAlgebraicNumber Number)).
Implicit Types (s : SampleSet Number).

(** The empty set is well-formed. *)
Lemma wf_empty : wf (empty (Number := Number)).
Proof. split; simpl; try reflexivity; constructor. Qed.

(** ** Positions *)


Lemma lower_bound_end l r :
  lower_bound l r = length l <-> Forall (fun x => less x r = true) l.
Proof.
  induction l as [|x l IH]; simpl.
  - split; [constructor|reflexivity].
  - destruct (less x r) eqn:E.
    + rewrite Forall_cons. split.
      * intros [= Hl]. split; [exact E|]. now apply IH.
      * intros [_ Hl]. f_equal. now apply IH.
    + split; [discriminate|]. intros Hall.
      apply Forall_cons in Hall as [Hx _]. congruence.
Qed.

Lemma lower_bound_lookup l r x :
  l !! lower_bound l r = Some x -> less x r = false.
Proof.
  induction l as [|y l IH]; simpl; [discriminate|].
  destruct (less y r) eqn:E; simpl; [assumption|].
  intros [= <-]. exact E.
Qed.

Lemma lower_bound_member `{!ComparisonLaws} l r :
  sorted l -> r ∈ l -> l !! lower_bound l r = Some r.
Proof.
  induction l as [|x l IH]; simpl.
  - intros _ Hr. now apply elem_of_nil in Hr.
  - intros [Hx Hl] Hr.
    apply elem_of_cons in Hr as [->|Hr].
    + now rewrite less_irreflexive.
    + pose proof (proj1 (Forall_forall _ _) Hx r Hr) as Hbelow.
      unfold below in Hbelow. rewrite Hbelow. simpl. now apply IH.
Qed.

(** ** Lists *)



Lemma sorted_delete (i : nat) l : sorted l -> sorted (delete i l).
Proof.
  revert i. induction l as [|x l IH]; intros [|i]; simpl; try tauto.
  intros [Hx Hl]. split; [|now apply IH]. now apply Forall_delete.
Qed.

Lemma find_erase_member r l :
  NoDup (address <$> l) -> r ∈ l ->
  exists k, find_erase r l = Some k /\ l ≡ₚ r :: k.
Proof.
  induction l as [|x l IH]; simpl.
  - intros _ Hr. now apply elem_of_nil in Hr.
  - intros Hdistinct Hr. apply NoDup_cons in Hdistinct as [Hx Hl].
    destruct (Nat.eqb_spec (address x) (address r)) as [E|E].
    + exists l. split; [reflexivity|].
      apply elem_of_cons in Hr as [->|Hr]; [reflexivity|].
      destruct Hx. rewrite E. now apply list_elem_of_fmap_2.
    + apply elem_of_cons in Hr as [->|Hr]; [congruence|].
      destruct (IH Hl Hr) as (k & -> & Hk).
      exists (x :: k). split; [reflexivity|].
      rewrite Hk. apply Permutation_swap.
Qed.

Lemma NoDup_filter_addresses (P : RealAlgebraicNumber Number -> Prop)
    `{!forall x, Decision (P x)} l :
  NoDup (address <$> l) -> NoDup (address <$> filter P l).
Proof.
  intros Hl. eapply sublist_NoDup; [exact Hl|apply fmap_sublist, sublist_filter].
Qed.

(** A queue that holds the samples with a property, after one sample
    went. *)
Lemma share_removed (P : RealAlgebraicNumber Number -> Prop)
    `{!forall x, Decision (P x)} l l' q q' r :
  l ≡ₚ r :: l' ->
  q ≡ₚ filter P l ->
  (P r -> q ≡ₚ r :: q') ->
  (~ P r -> q' = q) ->
  q' ≡ₚ filter P l'.
Proof.
  intros Hl Hq Hyes Hno. rewrite Hl in Hq.
  destruct (decide (P r)) as [HP|HP].
  - rewrite filter_cons_True in Hq by assumption.
    rewrite (Hyes HP) in Hq. exact (Permutation.Permutation_cons_inv Hq).
  - rewrite filter_cons_False in Hq by assumption. now rewrite (Hno HP).
Qed.

(** ** The queues give up a sample *)

Lemma removeFromQueue_spec r s :
  NoDup (address <$> queue s) -> r ∈ queue s ->
  exists q,
    removeFromQueue r s
    = Some (mkSampleSet (samples s) q (NRqueue s) (IRqueue s)
              (rootQueue s) (nonRootQueue s) (allocated s))
    /\ queue s ≡ₚ r :: q.
Proof.
  intros Hdistinct Hr. unfold removeFromQueue.
  destruct (find_erase_member r _ Hdistinct Hr) as (q & -> & Hq). eauto.
Qed.

Lemma removeFromNRIR_spec r s :
  NoDup (address <$> NRqueue s) -> NoDup (address <$> IRqueue s) ->
  (isNumeric r = true -> r ∈ NRqueue s) ->
  (isNumeric r = false -> r ∈ IRqueue s) ->
  exists nr ir,
    removeFromNRIR r s
    = Some (mkSampleSet (samples s) (queue s) nr ir
              (rootQueue s) (nonRootQueue s) (allocated s))
    /\ (isNumeric r = true -> NRqueue s ≡ₚ r :: nr)
    /\ (isNumeric r <> true -> nr = NRqueue s)
    /\ (isNumeric r = false -> IRqueue s ≡ₚ r :: ir)
    /\ (isNumeric r <> false -> ir = IRqueue s).
Proof.
  intros Hnr Hir Hyes Hno. unfold removeFromNRIR.
  destruct (isNumeric r).
  - destruct (find_erase_member r _ Hnr (Hyes eq_refl)) as (q & -> & Hq).
    exists q, (IRqueue s). repeat split; congruence || auto.
  - destruct (find_erase_member r _ Hir (Hno eq_refl)) as (q & -> & Hq).
    exists (NRqueue s), q. repeat split; congruence || auto.
Qed.

Lemma removeFromNonrootRoot_spec r s :
  NoDup (address <$> rootQueue s) -> NoDup (address <$> nonRootQueue s) ->
  (isRoot r = true -> r ∈ rootQueue s) ->
  (isRoot r = false -> r ∈ nonRootQueue s) ->
  exists root nonroot,
    removeFromNonrootRoot r s
    = Some (mkSampleSet (samples s) (queue s) (NRqueue s) (IRqueue s)
              root nonroot (allocated s))
    /\ (isRoot r = true -> rootQueue s ≡ₚ r :: root)
    /\ (isRoot r <> true -> root = rootQueue s)
    /\ (isRoot r = false -> nonRootQueue s ≡ₚ r :: nonroot)
    /\ (isRoot r <> false -> nonroot = nonRootQueue s).
Proof.
  intros Hroot Hnonroot Hyes Hno. unfold removeFromNonrootRoot.
  destruct (isRoot r).
  - destruct (find_erase_member r _ Hroot (Hyes eq_refl)) as (q & -> & Hq).
    exists q, (nonRootQueue s). repeat split; congruence || auto.
  - destruct (find_erase_member r _ Hnonroot (Hno eq_refl)) as (q & -> & Hq).
    exists (rootQueue s), q. repeat split; congruence || auto.
Qed.

(** The lists of a well-formed set, one by one. *)
Lemma wf_shares s r :
  wf s -> r ∈ samples s ->
  NoDup (address <$> queue s)
  /\ NoDup (address <$> NRqueue s) /\ NoDup (address <$> IRqueue s)
  /\ NoDup (address <$> rootQueue s) /\ NoDup (address <$> nonRootQueue s)
  /\ r ∈ queue s
  /\ (isNumeric r = true -> r ∈ NRqueue s)
  /\ (isNumeric r = false -> r ∈ IRqueue s)
  /\ (isRoot r = true -> r ∈ rootQueue s)
  /\ (isRoot r = false -> r ∈ nonRootQueue s).
Proof.
  intros [_ Hq Hnr Hir Hroot Hnonroot Hdistinct _] Hr.
  repeat split.
  - now rewrite Hq.
  - rewrite Hnr. now apply NoDup_filter_addresses.
  - rewrite Hir. now apply NoDup_filter_addresses.
  - rewrite Hroot. now apply NoDup_filter_addresses.
  - rewrite Hnonroot. now apply NoDup_filter_addresses.
  - now rewrite Hq.
  - intros E. rewrite Hnr. now apply list_elem_of_filter.
  - intros E. rewrite Hir. now apply list_elem_of_filter.
  - intros E. rewrite Hroot. now apply list_elem_of_filter.
  - intros E. rewrite Hnonroot. now apply list_elem_of_filter.
Qed.

(** A well-formed set stays well-formed when one of its samples goes
    from the list of samples and from every queue it is in. *)
Lemma wf_without s (i : nat) r q nr ir root nonroot :
  wf s ->
  samples s !! i = Some r ->
  queue s ≡ₚ r :: q ->
  (isNumeric r = true -> NRqueue s ≡ₚ r :: nr) ->
  (isNumeric r <> true -> nr = NRqueue s) ->
  (isNumeric r = false -> IRqueue s ≡ₚ r :: ir) ->
  (isNumeric r <> false -> ir = IRqueue s) ->
  (isRoot r = true -> rootQueue s ≡ₚ r :: root) ->
  (isRoot r <> true -> root = rootQueue s) ->
  (isRoot r = false -> nonRootQueue s ≡ₚ r :: nonroot) ->
  (isRoot r <> false -> nonroot = nonRootQueue s) ->
  wf (mkSampleSet (delete i (samples s)) q nr ir root nonroot (allocated s)).
Proof.
  intros [Hsorted Hq Hnr Hir Hroot Hnonroot Hdistinct Halloc] Hi
    Hq' Hnr1 Hnr2 Hir1 Hir2 Hroot1 Hroot2 Hnonroot1 Hnonroot2.
  pose proof (delete_Permutation _ _ _ Hi) as Hperm.
  split; simpl.
  - now apply sorted_delete.
  - rewrite Hq, Hperm in Hq'.
    symmetry. exact (Permutation.Permutation_cons_inv Hq').
  - now apply (share_removed _ (samples s) _ (NRqueue s) nr r).
  - now apply (share_removed _ (samples s) _ (IRqueue s) ir r).
  - now apply (share_removed _ (samples s) _ (rootQueue s) root r).
  - now apply (share_removed _ (samples s) _ (nonRootQueue s) nonroot r).
  - eapply sublist_NoDup; [exact Hdistinct|].
    apply fmap_sublist, sublist_delete.
  - now apply Forall_delete.
Qed.

(** ** Taking samples out *)

(** X15. [pop] on a well-formed set that is not empty fails none of its
    assertions: it takes the sample at the front of the queue, which
    [next] shows, out of the samples and out of each queue that holds it,
    and leaves a well-formed set. *)
Theorem pop_spec `{!ComparisonLaws} s :
  wf s -> samples s <> [] ->
  exists r s',
    next s = Some r
    /\ pop s = Some s'
    /\ wf s'
    /\ queue s = r :: queue s'
    /\ samples s ≡ₚ r :: samples s'
    /\ (r ∉ samples s')
    /\ allocated s' = allocated s.
Proof.
  intros Hwf Hne.
  assert (Hqueue : exists r q, queue s = r :: q).
  { destruct (queue s) as [|r q] eqn:E; [|eauto].
    pose proof (wf_queue s Hwf) as Hq. rewrite E in Hq.
    apply Permutation_nil_l in Hq. congruence. }
  destruct Hqueue as (r & q & Hq).
  assert (Hr : r ∈ samples s).
  { rewrite <- (wf_queue s Hwf), Hq. apply list_elem_of_here. }
  pose proof (lower_bound_member _ r (wf_sorted s Hwf) Hr) as Hpos.
  set (i := lower_bound (samples s) r) in *.
  destruct (wf_shares s r Hwf Hr)
    as (_ & Hdnr & Hdir & Hdroot & Hdnonroot & _ & Hnr & Hir & Hroot & Hnonroot).
  set (s1 := mkSampleSet (delete i (samples s)) (tail (queue s))
               (NRqueue s) (IRqueue s) (rootQueue s) (nonRootQueue s)
               (allocated s)).
  destruct (removeFromNRIR_spec r s1 Hdnr Hdir Hnr Hir)
    as (nr & ir & Hs2 & Hnr1 & Hnr2 & Hir1 & Hir2).
  set (s2 := mkSampleSet _ _ nr ir _ _ _) in Hs2.
  destruct (removeFromNonrootRoot_spec r s2 Hdroot Hdnonroot Hroot Hnonroot)
    as (root & nonroot & Hs3 & Hroot1 & Hroot2 & Hnonroot1 & Hnonroot2).
  assert (Hwf' : wf (mkSampleSet (delete i (samples s)) q nr ir root nonroot
                       (allocated s))).
  { apply (wf_without s i r); try assumption. now rewrite Hq. }
  exists r. eexists. split; [|split; [|split; [exact Hwf'|]]].
  - unfold next. rewrite bool_decide_eq_false_2 by assumption.
    now rewrite Hq.
  - unfold pop, next. rewrite bool_decide_eq_false_2 by assumption.
    rewrite Hq. cbn [head]. fold i.
    rewrite bool_decide_eq_false_2
      by (apply lookup_lt_Some in Hpos; lia).
    rewrite <- Hq. fold s1. rewrite Hs2. subst s1 s2. cbn [samples queue
      NRqueue IRqueue rootQueue nonRootQueue allocated] in *.
    rewrite Hs3, Hq. reflexivity.
  - cbn [samples queue allocated]. split; [assumption|].
    split; [now apply delete_Permutation|]. split; [|reflexivity].
    intros Hin.
    pose proof (wf_distinct s Hwf) as Hdistinct.
    rewrite (delete_Permutation _ _ _ Hpos) in Hdistinct.
    rewrite fmap_cons in Hdistinct.
    apply NoDup_cons in Hdistinct as [Hout _].
    apply Hout. now apply list_elem_of_fmap_2.
Qed.

(** X16. [remove] at a position of a well-formed set fails none of its
    assertions: the sample at this position goes from the samples and
    from the queues, the other samples stay in their order, and the set
    that is left is well-formed. *)
Theorem remove_spec s (position : nat) :
  wf s -> position < length (samples s) ->
  exists r s',
    samples s !! position = Some r
    /\ remove position s = Some (position, s')
    /\ wf s'
    /\ samples s' = delete position (samples s)
    /\ queue s ≡ₚ r :: queue s'
    /\ (r ∉ queue s').
Proof.
  intros Hwf Hlt.
  destruct (lookup_lt_is_Some_2 _ _ Hlt) as [r Hpos].
  assert (Hr : r ∈ samples s) by (eapply list_elem_of_lookup_2, Hpos).
  destruct (wf_shares s r Hwf Hr)
    as (Hdq & Hdnr & Hdir & Hdroot & Hdnonroot
        & Hq & Hnr & Hir & Hroot & Hnonroot).
  destruct (removeFromQueue_spec r s Hdq Hq) as (q & Hs1 & Hq1).
  set (s1 := mkSampleSet _ q _ _ _ _ _) in Hs1.
  destruct (removeFromNRIR_spec r s1 Hdnr Hdir Hnr Hir)
    as (nr & ir & Hs2 & Hnr1 & Hnr2 & Hir1 & Hir2).
  set (s2 := mkSampleSet _ _ nr ir _ _ _) in Hs2.
  destruct (removeFromNonrootRoot_spec r s2 Hdroot Hdnonroot Hroot Hnonroot)
    as (root & nonroot & Hs3 & Hroot1 & Hroot2 & Hnonroot1 & Hnonroot2).
  assert (Hwf' : wf (mkSampleSet (delete position (samples s)) q nr ir
                       root nonroot (allocated s))).
  { apply (wf_without s position r); assumption. }
  exists r. eexists. split; [assumption|].
  split; [|split; [exact Hwf'|]].
  - unfold remove. rewrite Hpos, Hs1, Hs2, Hs3. reflexivity.
  - cbn [samples queue]. split; [reflexivity|]. split; [assumption|].
    intros Hin. rewrite Hq1, fmap_cons in Hdq.
    apply NoDup_cons in Hdq as [Hout _].
    apply Hout. now apply list_elem_of_fmap_2.
Qed.

(** A sample is in the queue of the numeric or in the queue of the
    others, and in the queue of the roots or in the queue of the
    others. *)
Lemma bucket_member s r (P : RealAlgebraicNumber Number -> Prop)
    `{!forall x, Decision (P x)} l :
  l ≡ₚ filter P (samples s) -> r ∈ l -> r ∈ samples s /\ P r.
Proof.
  intros Hl Hr. rewrite Hl in Hr.
  apply list_elem_of_filter in Hr. tauto.
Qed.

Lemma bucket_empty s (P : RealAlgebraicNumber Number -> Prop)
    `{!forall x, Decision (P x)} :
  filter P (samples s) ≡ₚ [] -> forall x, x ∈ samples s -> ~ P x.
Proof.
  intros Hnil x Hx HP.
  assert (Hin : x ∈ filter P (samples s)) by now apply list_elem_of_filter.
  rewrite Hnil in Hin. now apply elem_of_nil in Hin.
Qed.

(** X19. [popNR] on a well-formed set that is not empty fails none of
    its assertions. It takes out the numeric sample that is longest in
    the set, or, only if no sample is numeric, the sample that is
    longest in the other queue; the sample goes from the samples and
    from every queue, and the set stays well-formed. *)
Theorem popNR_spec `{!ComparisonLaws} s :
  wf s -> samples s <> [] ->
  exists r s',
    nextNR s = Some r
    /\ popNR s = Some s'
    /\ wf s'
    /\ samples s ≡ₚ r :: samples s'
    /\ (r ∉ samples s')
    /\ (isNumeric r = false -> NRqueue s = [])
    /\ (isNumeric r = true -> exists nr, NRqueue s = r :: nr).
Proof.
  intros Hwf Hne.
  assert (Hfront : exists r,
            nextNR s = Some r /\ r ∈ samples s
            /\ (isNumeric r = true ->
                NRqueue s = r :: tail (NRqueue s))
            /\ (isNumeric r = false ->
                NRqueue s = [] /\ IRqueue s = r :: tail (IRqueue s))).
  { unfold nextNR. rewrite bool_decide_eq_false_2 by assumption.
    destruct (NRqueue s) as [|r nr] eqn:Enr.
    - rewrite bool_decide_eq_true_2 by reflexivity.
      destruct (IRqueue s) as [|r ir] eqn:Eir.
      + exfalso. destruct (samples s) as [|x l] eqn:E; [congruence|].
        pose proof (wf_NR s Hwf) as Hnr. pose proof (wf_IR s Hwf) as Hir.
        rewrite Enr in Hnr. rewrite Eir in Hir.
        assert (Hx : x ∈ samples s) by (rewrite E; apply list_elem_of_here).
        destruct (isNumeric x) eqn:Ex.
        * now apply (bucket_empty s _ (symmetry Hnr) x Hx).
        * now apply (bucket_empty s _ (symmetry Hir) x Hx).
      + exists r. split; [reflexivity|].
        destruct (bucket_member s r _ (IRqueue s) (wf_IR s Hwf)) as [Hr Hnum];
          [rewrite Eir; apply list_elem_of_here|].
        split; [assumption|]. split; [congruence|]. auto.
    - rewrite bool_decide_eq_false_2 by discriminate.
      exists r. split; [reflexivity|].
      destruct (bucket_member s r _ (NRqueue s) (wf_NR s Hwf)) as [Hr Hnum];
        [rewrite Enr; apply list_elem_of_here|].
      split; [assumption|]. split; [auto|congruence]. }
  destruct Hfront as (r & Hnext & Hr & Hyes & Hno).
  pose proof (lower_bound_member _ r (wf_sorted s Hwf) Hr) as Hpos.
  set (i := lower_bound (samples s) r) in *.
  destruct (wf_shares s r Hwf Hr)
    as (Hdq & _ & _ & Hdroot & Hdnonroot & Hq & _ & _ & Hroot & Hnonroot).
  set (nr := if isNumeric r then tail (NRqueue s) else NRqueue s).
  set (ir := if isNumeric r then IRqueue s else tail (IRqueue s)).
  set (s1 := mkSampleSet (delete i (samples s)) (queue s) nr ir
               (rootQueue s) (nonRootQueue s) (allocated s)).
  destruct (removeFromQueue_spec r s1 Hdq Hq) as (q & Hs2 & Hq1).
  set (s2 := mkSampleSet _ q _ _ _ _ _) in Hs2.
  destruct (removeFromNonrootRoot_spec r s2 Hdroot Hdnonroot Hroot Hnonroot)
    as (root & nonroot & Hs3 & Hroot1 & Hroot2 & Hnonroot1 & Hnonroot2).
  assert (Hwf' : wf (mkSampleSet (delete i (samples s)) q nr ir root nonroot
                       (allocated s))).
  { apply (wf_without s i r); try assumption; subst nr ir.
    - intros E. rewrite E. now rewrite (Hyes E) at 1.
    - intros E. now destruct (isNumeric r).
    - intros E. rewrite E. now rewrite (proj2 (Hno E)) at 1.
    - intros E. now destruct (isNumeric r). }
  exists r. eexists. split; [assumption|].
  split; [|split; [exact Hwf'|]].
  - unfold popNR. rewrite bool_decide_eq_false_2 by assumption.
    rewrite Hnext. fold i.
    rewrite bool_decide_eq_false_2
      by (apply lookup_lt_Some in Hpos; lia).
    replace (if bool_decide (NRqueue s = []) then _ else _) with s1.
    + rewrite Hs2. subst s2 s1. cbn [samples queue NRqueue IRqueue
        rootQueue nonRootQueue allocated] in *. rewrite Hs3. reflexivity.
    + subst s1 nr ir. destruct (isNumeric r) eqn:E.
      * rewrite bool_decide_eq_false_2; [reflexivity|].
        rewrite (Hyes eq_refl). discriminate.
      * rewrite bool_decide_eq_true_2; [reflexivity|]. now apply Hno.
  - cbn [samples]. split; [now apply delete_Permutation|].
    split; [|split; [intros E; now apply Hno|intros E; eauto]].
    intros Hin.
    pose proof (wf_distinct s Hwf) as Hdistinct.
    rewrite (delete_Permutation _ _ _ Hpos), fmap_cons in Hdistinct.
    apply NoDup_cons in Hdistinct as [Hout _].
    apply Hout. now apply list_elem_of_fmap_2.
Qed.

(** X20. [popNonroot] on a well-formed set that is not empty fails none
    of its assertions. It takes out the sample that is longest in the
    queue of the samples that are no roots, or, only if every sample is
    a root, the root that is longest in the set; the sample goes from the
    samples and from every queue, and the set stays well-formed. *)
Theorem popNonroot_spec `{!ComparisonLaws} s :
  wf s -> samples s <> [] ->
  exists r s',
    nextNonRoot s = Some r
    /\ popNonroot s = Some s'
    /\ wf s'
    /\ samples s ≡ₚ r :: samples s'
    /\ (r ∉ samples s')
    /\ (isRoot r = true -> nonRootQueue s = [])
    /\ (isRoot r = false -> exists rest, nonRootQueue s = r :: rest).
Proof.
  intros Hwf Hne.
  assert (Hfront : exists r,
            nextNonRoot s = Some r /\ r ∈ samples s
            /\ (isRoot r = false ->
                nonRootQueue s = r :: tail (nonRootQueue s))
            /\ (isRoot r = true ->
                nonRootQueue s = [] /\ rootQueue s = r :: tail (rootQueue s))).
  { unfold nextNonRoot. rewrite bool_decide_eq_false_2 by assumption.
    destruct (nonRootQueue s) as [|r rest] eqn:Efirst.
    - rewrite bool_decide_eq_true_2 by reflexivity.
      destruct (rootQueue s) as [|r rest] eqn:Eother.
      + exfalso. destruct (samples s) as [|x l] eqn:E; [congruence|].
        pose proof (wf_nonRoot s Hwf) as Hfirst.
        pose proof (wf_root s Hwf) as Hother.
        rewrite Efirst in Hfirst. rewrite Eother in Hother.
        assert (Hx : x ∈ samples s) by (rewrite E; apply list_elem_of_here).
        destruct (isRoot x) eqn:Ex.
        * now apply (bucket_empty s _ (symmetry Hother) x Hx).
        * now apply (bucket_empty s _ (symmetry Hfirst) x Hx).
      + exists r. split; [reflexivity|].
        destruct (bucket_member s r _ (rootQueue s) (wf_root s Hwf))
          as [Hr Hkind]; [rewrite Eother; apply list_elem_of_here|].
        split; [assumption|]. split; [congruence|]. auto.
    - rewrite bool_decide_eq_false_2 by discriminate.
      exists r. split; [reflexivity|].
      destruct (bucket_member s r _ (nonRootQueue s) (wf_nonRoot s Hwf))
        as [Hr Hkind]; [rewrite Efirst; apply list_elem_of_here|].
      split; [assumption|]. split; [auto|congruence]. }
  destruct Hfront as (r & Hnext & Hr & Hyes & Hno).
  pose proof (lower_bound_member _ r (wf_sorted s Hwf) Hr) as Hpos.
  set (i := lower_bound (samples s) r) in *.
  destruct (wf_shares s r Hwf Hr)
    as (Hdq & Hdnr & Hdir & _ & _ & Hq & Hnr & Hir & _ & _).
  set (root := if isRoot r then tail (rootQueue s) else rootQueue s).
  set (nonroot := if isRoot r then nonRootQueue s else tail (nonRootQueue s)).
  set (s1 := mkSampleSet (delete i (samples s)) (queue s)
               (NRqueue s) (IRqueue s) root nonroot (allocated s)).
  destruct (removeFromNRIR_spec r s1 Hdnr Hdir Hnr Hir)
    as (nr & ir & Hs2 & Hnr1 & Hnr2 & Hir1 & Hir2).
  set (s2 := mkSampleSet _ _ nr ir _ _ _) in Hs2.
  destruct (removeFromQueue_spec r s2 Hdq Hq) as (q & Hs3 & Hq1).
  assert (Hwf' : wf (mkSampleSet (delete i (samples s)) q nr ir root nonroot
                       (allocated s))).
  { apply (wf_without s i r); try assumption; subst root nonroot.
    - intros E. rewrite E. now rewrite ((proj2 (Hno E))) at 1.
    - intros E. now destruct (isRoot r).
    - intros E. rewrite E. now rewrite ((Hyes E)) at 1.
    - intros E. now destruct (isRoot r). }
  exists r. eexists. split; [assumption|].
  split; [|split; [exact Hwf'|]].
  - unfold popNonroot. rewrite bool_decide_eq_false_2 by assumption.
    rewrite Hnext. fold i.
    rewrite bool_decide_eq_false_2
      by (apply lookup_lt_Some in Hpos; lia).
    replace (if bool_decide (nonRootQueue s = []) then _ else _) with s1.
    + rewrite Hs2. subst s2 s1. cbn [samples queue NRqueue IRqueue
        rootQueue nonRootQueue allocated] in *. rewrite Hs3. reflexivity.
    + subst s1 root nonroot. destruct (isRoot r) eqn:E.
      * rewrite bool_decide_eq_true_2; [reflexivity|].
        now apply Hno.
      * rewrite bool_decide_eq_false_2; [reflexivity|].
        rewrite (Hyes eq_refl). discriminate.
  - cbn [samples]. split; [now apply delete_Permutation|].
    split; [|split; [intros E; now apply Hno|intros E; eauto]].
    intros Hin.
    pose proof (wf_distinct s Hwf) as Hdistinct.
    rewrite (delete_Permutation _ _ _ Hpos), fmap_cons in Hdistinct.
    apply NoDup_cons in Hdistinct as [Hout _].
    apply Hout. now apply list_elem_of_fmap_2.
Qed.

(** X21. [popRoot] on a well-formed set that is not empty fails none of
    its assertions. It takes out the root that is longest in the set,
    or, only if no sample is a root, the sample that is longest in the
    other queue; the sample goes from the samples and from every queue,
    and the set stays well-formed. *)
Theorem popRoot_spec `{!ComparisonLaws} s :
  wf s -> samples s <> [] ->
  exists r s',
    nextRoot s = Some r
    /\ popRoot s = Some s'
    /\ wf s'
    /\ samples s ≡ₚ r :: samples s'
    /\ (r ∉ samples s')
    /\ (isRoot r = false -> rootQueue s = [])
    /\ (isRoot r = true -> exists rest, rootQueue s = r :: rest).
Proof.
  intros Hwf Hne.
  assert (Hfront : exists r,
            nextRoot s = Some r /\ r ∈ samples s
            /\ (isRoot r = true ->
                rootQueue s = r :: tail (rootQueue s))
            /\ (isRoot r = false ->
                rootQueue s = [] /\ nonRootQueue s = r :: tail (nonRootQueue s))).
  { unfold nextRoot. rewrite bool_decide_eq_false_2 by assumption.
    destruct (rootQueue s) as [|r rest] eqn:Efirst.
    - rewrite bool_decide_eq_true_2 by reflexivity.
      destruct (nonRootQueue s) as [|r rest] eqn:Eother.
      + exfalso. destruct (samples s) as [|x l] eqn:E; [congruence|].
        pose proof (wf_root s Hwf) as Hfirst.
        pose proof (wf_nonRoot s Hwf) as Hother.
        rewrite Efirst in Hfirst. rewrite Eother in Hother.
        assert (Hx : x ∈ samples s) by (rewrite E; apply list_elem_of_here).
        destruct (isRoot x) eqn:Ex.
        * now apply (bucket_empty s _ (symmetry Hfirst) x Hx).
        * now apply (bucket_empty s _ (symmetry Hother) x Hx).
      + exists r. split; [reflexivity|].
        destruct (bucket_member s r _ (nonRootQueue s) (wf_nonRoot s Hwf))
          as [Hr Hkind]; [rewrite Eother; apply list_elem_of_here|].
        split; [assumption|]. split; [congruence|]. auto.
    - rewrite bool_decide_eq_false_2 by discriminate.
      exists r. split; [reflexivity|].
      destruct (bucket_member s r _ (rootQueue s) (wf_root s Hwf))
        as [Hr Hkind]; [rewrite Efirst; apply list_elem_of_here|].
      split; [assumption|]. split; [auto|congruence]. }
  destruct Hfront as (r & Hnext & Hr & Hyes & Hno).
  pose proof (lower_bound_member _ r (wf_sorted s Hwf) Hr) as Hpos.
  set (i := lower_bound (samples s) r) in *.
  destruct (wf_shares s r Hwf Hr)
    as (Hdq & Hdnr & Hdir & _ & _ & Hq & Hnr & Hir & _ & _).
  set (root := if isRoot r then tail (rootQueue s) else rootQueue s).
  set (nonroot := if isRoot r then nonRootQueue s else tail (nonRootQueue s)).
  set (s1 := mkSampleSet (delete i (samples s)) (queue s)
               (NRqueue s) (IRqueue s) root nonroot (allocated s)).
  destruct (removeFromNRIR_spec r s1 Hdnr Hdir Hnr Hir)
    as (nr & ir & Hs2 & Hnr1 & Hnr2 & Hir1 & Hir2).
  set (s2 := mkSampleSet _ _ nr ir _ _ _) in Hs2.
  destruct (removeFromQueue_spec r s2 Hdq Hq) as (q & Hs3 & Hq1).
  assert (Hwf' : wf (mkSampleSet (delete i (samples s)) q nr ir root nonroot
                       (allocated s))).
  { apply (wf_without s i r); try assumption; subst root nonroot.
    - intros E. rewrite E. now rewrite ((Hyes E)) at 1.
    - intros E. now destruct (isRoot r).
    - intros E. rewrite E. now rewrite ((proj2 (Hno E))) at 1.
    - intros E. now destruct (isRoot r). }
  exists r. eexists. split; [assumption|].
  split; [|split; [exact Hwf'|]].
  - unfold popRoot. rewrite bool_decide_eq_false_2 by assumption.
    rewrite Hnext. fold i.
    rewrite bool_decide_eq_false_2
      by (apply lookup_lt_Some in Hpos; lia).
    replace (if bool_decide (rootQueue s = []) then _ else _) with s1.
    + rewrite Hs2. subst s2 s1. cbn [samples queue NRqueue IRqueue
        rootQueue nonRootQueue allocated] in *. rewrite Hs3. reflexivity.
    + subst s1 root nonroot. destruct (isRoot r) eqn:E.
      * rewrite bool_decide_eq_false_2; [reflexivity|].
        rewrite (Hyes eq_refl). discriminate.
      * rewrite bool_decide_eq_true_2; [reflexivity|].
        now apply Hno.
  - cbn [samples]. split; [now apply delete_Permutation|].
    split; [|split; [intros E; now apply Hno|intros E; eauto]].
    intros Hin.
    pose proof (wf_distinct s Hwf) as Hdistinct.
    rewrite (delete_Permutation _ _ _ Hpos), fmap_cons in Hdistinct.
    apply NoDup_cons in Hdistinct as [Hout _].
    apply Hout. now apply list_elem_of_fmap_2.
Qed.

(** ** Putting samples in *)




(** ** A sample gets its numeric representation *)






Lemma lower_bound_not_end l r :
  lower_bound l r <> length l <-> Exists (fun x => less x r = false) l.
Proof.
  induction l as [|x l IH]; simpl.
  - split; [congruence|]. intros Hex. inversion Hex.
  - destruct (less x r) eqn:E.
    + rewrite Exists_cons. split.
      * intros Hne. right. apply IH. congruence.
      * intros [Hx|Hl]; [congruence|]. apply IH in Hl. congruence.
    + split; [|discriminate]. intros _. now left.
Qed.

Lemma sorted_last l (m : RealAlgebraicNumber Number) :
  sorted l -> last l = Some m ->
  forall x, x ∈ l -> x = m \/ below x m.
Proof.
  induction l as [|y l IH]; simpl; [discriminate|].
  intros [Hy Hl] Hlast x Hx. destruct l as [|z l].
  - inversion Hlast; subst. apply list_elem_of_singleton in Hx. auto.
  - assert (Hm : m ∈ z :: l).
    { apply (list_elem_of_lookup_2 _ (length l)).
      rewrite <- Hlast. symmetry. apply (last_lookup (z :: l)). }
    apply elem_of_cons in Hx as [->|Hx]; [|now apply IH].
    right. exact (proj1 (Forall_forall _ _) Hy m Hm).
Qed.

(** X18. On a well-formed set [contains] is true exactly if the
    greatest sample is not less than the number asked for: it looks for
    the position at which the number would stand and not at the sample
    that stands there. *)
Theorem contains_spec `{!ComparisonLaws} s r :
  wf s ->
  (contains r s = true
   <-> exists m, last (samples s) = Some m /\ less m r = false).
Proof.
  intros Hwf. unfold contains.
  rewrite bool_decide_eq_true, lower_bound_not_end, Exists_exists.
  split.
  - intros (x & Hx & Hxr).
    destruct (last (samples s)) as [m|] eqn:Hlast.
    + exists m. split; [reflexivity|].
      destruct (sorted_last _ m (wf_sorted s Hwf) Hlast x Hx) as [->|Hxm];
        [assumption|].
      destruct (less m r) eqn:Hmr; [|reflexivity].
      rewrite (less_transitive x m r Hxm Hmr) in Hxr. discriminate.
    + apply last_None in Hlast. rewrite Hlast in Hx.
      now apply elem_of_nil in Hx.
  - intros (m & Hlast & Hmr). exists m. split; [|assumption].
    apply (list_elem_of_lookup_2 _ (pred (length (samples s)))).
    now rewrite <- last_lookup.
Qed.

End Laws.

(** The sample numbers obey the laws of the comparison. *)
#[global] Instance sample_comparison_laws : ComparisonLaws (Number := nat).
Proof.
  split; simpl.
  - intros a. apply Nat.ltb_irrefl.
  - intros a b c Hab Hbc. apply Nat.ltb_lt in Hab, Hbc. apply Nat.ltb_lt. lia.
  - intros a b Hab Hne. apply Nat.ltb_ge in Hab. apply Nat.eqb_neq in Hne.
    apply Nat.ltb_lt. lia.
  - intros a b Heq. apply Nat.eqb_eq in Heq. apply Nat.ltb_ge. lia.
Qed.

Lemma wf_two_samples : wf Sample.two_samples.
Proof.
  split; simpl.
  - repeat split; repeat constructor.
  - apply Permutation_swap.
  - apply Permutation_swap.
  - reflexivity.
  - reflexivity.
  - reflexivity.
  - repeat constructor; rewrite ?elem_of_cons, ?elem_of_nil; lia.
  - repeat constructor.
Qed.

Lemma pop_spec_witness :
  exists r s',
    next Sample.two_samples = Some r
    /\ pop Sample.two_samples = Some s'
    /\ wf s'
    /\ queue Sample.two_samples = r :: queue s'
    /\ samples Sample.two_samples ≡ₚ r :: samples s'
    /\ (r ∉ samples s')
    /\ allocated s' = allocated Sample.two_samples.
Proof.
  apply (pop_spec Sample.two_samples).
  - apply wf_two_samples.
  - discriminate.
Defined.

Lemma remove_spec_witness :
  exists r s',
    samples Sample.two_samples !! 0 = Some r
    /\ remove 0 Sample.two_samples = Some (0, s')
    /\ wf s'
    /\ samples s' = delete 0 (samples Sample.two_samples)
    /\ queue Sample.two_samples ≡ₚ r :: queue s'
    /\ (r ∉ queue s').
Proof.
  apply (remove_spec Sample.two_samples 0).
  - apply wf_two_samples.
  - simpl. lia.
Defined.


Lemma popNR_spec_witness :
  exists r s',
    nextNR Sample.two_samples = Some r
    /\ popNR Sample.two_samples = Some s'
    /\ wf s'
    /\ samples Sample.two_samples ≡ₚ r :: samples s'
    /\ (r ∉ samples s')
    /\ (isNumeric r = false -> NRqueue Sample.two_samples = [])
    /\ (isNumeric r = true ->
        exists nr, NRqueue Sample.two_samples = r :: nr).
Proof.
  apply (popNR_spec Sample.two_samples).
  - apply wf_two_samples.
  - discriminate.
Defined.

Lemma popNonroot_spec_witness :
  exists r s',
    nextNonRoot Sample.two_samples = Some r
    /\ popNonroot Sample.two_samples = Some s'
    /\ wf s'
    /\ samples Sample.two_samples ≡ₚ r :: samples s'
    /\ (r ∉ samples s')
    /\ (isRoot r = true -> nonRootQueue Sample.two_samples = [])
    /\ (isRoot r = false ->
        exists rest, nonRootQueue Sample.two_samples = r :: rest).
Proof.
  apply (popNonroot_spec Sample.two_samples).
  - apply wf_two_samples.
  - discriminate.
Defined.

Lemma popRoot_spec_witness :
  exists r s',
    nextRoot Sample.two_samples = Some r
    /\ popRoot Sample.two_samples = Some s'
    /\ wf s'
    /\ samples Sample.two_samples ≡ₚ r :: samples s'
    /\ (r ∉ samples s')
    /\ (isRoot r = false -> rootQueue Sample.two_samples = [])
    /\ (isRoot r = true ->
        exists rest, rootQueue Sample.two_samples = r :: rest).
Proof.
  apply (popRoot_spec Sample.two_samples).
  - apply wf_two_samples.
  - discriminate.
Defined.



(** The number 4 is no sample of [Sample.two_samples], which holds 3
    and 5. *)
Lemma contains_spec_witness :
  contains (mkNumber 9 true 4 false) Sample.two_samples = true
  <-> exists m, last (samples Sample.two_samples) = Some m
                /\ less m (mkNumber 9 true 4 false) = false.
Proof.
  apply (contains_spec Sample.two_samples), wf_two_samples.
Defined.

End SampleSetLaws.

(** * Properties of [Constraint] *)
Module CoreConstraintLaws.
Import CoreConstraint.

Section Laws.
Context {LhsType : Type} `{LhsOps LhsType}.
Variable relationIsStrict : CompareRelation -> bool.

(** X23. A constraint whose left-hand side is a constant is trivially
    true or trivially false and never both, whatever relations count as
    strict. *)
Theorem trivial_exclusive (c : Constraint LhsType) :
  isConstant (mLhs c) = true ->
  isTrivialFalse relationIsStrict c = negb (isTrivialTrue relationIsStrict c).
Proof.
  unfold isTrivialTrue, isTrivialFalse.
  destruct c as [lhs rel]. cbn [mLhs mRelation]. intros ->.
  destruct (Z.eqb_spec (constantPart lhs) 0); [now rewrite negb_involutive|].
  destruct (Z.ltb_spec 0 (constantPart lhs)); now destruct rel.
Qed.

(** X24. If the strict relations are NEQ, LT and GT, then for a
    constraint whose left-hand side is a constant [isTrivialTrue] says
    whether the constant stands in the relation to 0, and
    [isTrivialFalse] whether it does not. *)
Theorem trivial_decides (c : Constraint LhsType) :
  (forall rel, relationIsStrict rel = strict rel) ->
  isConstant (mLhs c) = true ->
  (isTrivialTrue relationIsStrict c = true
   <-> holds (mRelation c) (constantPart (mLhs c)))
  /\ (isTrivialFalse relationIsStrict c = true
      <-> ~ holds (mRelation c) (constantPart (mLhs c))).
Proof.
  unfold isTrivialTrue, isTrivialFalse.
  destruct c as [lhs rel]. cbn [mLhs mRelation].
  intros Hstrict ->. rewrite Hstrict.
  destruct (Z.eqb_spec (constantPart lhs) 0) as [E|E].
  - rewrite E. destruct rel; simpl; repeat split;
      try lia; try discriminate; try (intros _; lia).
  - destruct (Z.ltb_spec 0 (constantPart lhs));
      destruct rel; simpl; repeat split;
        try lia; try discriminate; try (intros _; lia);
          try (intros _; reflexivity).
Qed.

End Laws.

(** The constraint [3 <= 0]. *)
Lemma trivial_exclusive_witness :
  isTrivialFalse strict (mkConstraint 3%Z LEQ)
  = negb (isTrivialTrue strict (mkConstraint 3%Z LEQ)).
Proof.
  apply (trivial_exclusive strict (mkConstraint 3%Z LEQ)). reflexivity.
Defined.

Lemma trivial_decides_witness :
  (isTrivialTrue strict (mkConstraint 3%Z LEQ) = true <-> (3 <= 0)%Z)
  /\ (isTrivialFalse strict (mkConstraint 3%Z LEQ) = true <-> ~ (3 <= 0)%Z).
Proof.
  exact (trivial_decides strict (mkConstraint 3%Z LEQ)
           (fun _ => eq_refl) eq_refl).
Defined.

End CoreConstraintLaws.
